(** * GarmentCode pattern core: edge factories and stitching rules

    A shallow embedding of [pypattern/edge_factory.py] and
    [pypattern/connector.py], and of the parts of the garment programs
    and of the body parameters that build on them.  Python floats are
    idealised as real numbers; the one place where the float semantics is
    visible in the control flow (the [nan] that [np.sqrt] yields on a
    negative argument) is modelled by the type [npfloat].  Python
    exceptions are values of type [error]; a computation that can raise
    returns an [outcome].  Among them is the [AssertionError] with which
    the edge constructor refuses an edge whose two ends do not differ.
    Code that mutates panels and interfaces is written in a
    state-and-exception monad whose state survives a raise, like the
    Python heap does. *)

From Stdlib Require Import Reals Lra Lia List String Bool Arith PeanoNat Psatz.
Import ListNotations.

Open Scope R_scope.

(** ** Booleans on reals *)

Definition Rltb (x y : R) : bool := if Rlt_dec x y then true else false.

(** ** Exceptions *)

(** The messages of the [raise] statements of the two modules. *)
Inductive message : Type :=
  | fraction_is_incorrect
  | Projected_edges_do_not_match
  | Projection_failed
  | Stitch_sides_do_not_matched
  | Invalid_dart_position
  | Solving_dart_was_unsuccessful
  | No_extreme_points
  | not_in_list.

Inductive error : Type :=
  | RuntimeError (m : message)
  | ValueError (m : message)
  | IndexError
  | TypeError
  | ZeroDivisionError
  | AssertionError
  | NoSuchObject
  | LoopBudget.

Inductive outcome (A : Type) : Type :=
  | Ok (a : A)
  | Raise (e : error).
Arguments Ok {A} a.
Arguments Raise {A} e.

Definition is_raise {A} (o : outcome A) : bool :=
  match o with Ok _ => false | Raise _ => true end.

(** Sequencing of computations that can raise and touch no heap. *)
Definition obind {A B} (o : outcome A) (k : A -> outcome B) : outcome B :=
  match o with
  | Ok a => k a
  | Raise e => Raise e
  end.

(** ** Floats that may be [nan] *)

(** The value of a numpy expression that may be [nan]: a real, or [NaN]. *)
Inductive npfloat : Type :=
  | Fin (x : R)
  | NaN.

(** [np.sqrt]: [nan] (and a warning, not an exception) below zero. *)
Definition np_sqrt (x : R) : npfloat :=
  if Rltb x 0 then NaN else Fin (sqrt x).

Definition np_neg (a : npfloat) : npfloat :=
  match a with
  | Fin x => Fin (- x)
  | NaN => NaN
  end.

(** ** Vertices *)

Definition vertex : Type := (R * R)%type.
Definition vec3 : Type := (R * R * R)%type.

Definition vsub (a b : vertex) : vertex := (fst a - fst b, snd a - snd b).
Definition vadd (a b : vertex) : vertex := (fst a + fst b, snd a + snd b).
Definition vscale (k : R) (a : vertex) : vertex := (k * fst a, k * snd a).

(** [numpy.linalg.norm] on 2-vectors and on 3-vectors. *)
Definition norm (v : vertex) : R := sqrt (fst v * fst v + snd v * snd v).

Definition sub3 (a b : vec3) : vec3 :=
  let '(ax, ay, az) := a in let '(bx, by_, bz) := b in (ax - bx, ay - by_, az - bz).

Definition norm3 (v : vec3) : R :=
  let '(x, y, z) := v in sqrt (x * x + y * y + z * z).

(** Python's [sum] on a list of floats. *)
Fixpoint Rsum (l : list R) : R :=
  match l with
  | [] => 0
  | x :: l' => x + Rsum l'
  end.

(** ** Edges  ([pypattern/edge.py], imported by both modules) *)

(** An edge over vertices of type [V]: [control_points] is empty for a
    straight [Edge] and holds the relative control points of a [CurveEdge]. *)
Record Edge (V : Type) : Type := mkEdge {
  start : V;
  end_ : V;
  control_points : list V;
  geometric_id : nat
}.
Arguments mkEdge {V} _ _ _ _.
Arguments start {V} _.
Arguments end_ {V} _.
Arguments control_points {V} _.
Arguments geometric_id {V} _.

Definition EdgeSequence (V : Type) : Type := list (Edge V).

(** What the two modules import from [generic_utils]: [close_enough(f1,
    f2=0, tol=1e-4)].  It is taken with the two properties that every
    reading of "equal within [tol]" has; nothing is assumed when the
    distance is exactly [tol]. *)
Class generic_utils : Type := {
  close_enough : R -> R -> R -> bool;
  close_enough_near :
    forall f1 f2 tol, Rabs (f1 - f2) < tol -> close_enough f1 f2 tol = true;
  close_enough_far :
    forall f1 f2 tol, tol < Rabs (f1 - f2) -> close_enough f1 f2 tol = false
}.

(** What is taken from the [edge] module besides the record itself: the
    identifier a freshly constructed edge carries; the length of a curved
    edge (given by its end points and relative control points), which is
    not negative; and the test of the assertion of [Edge.__init__], which
    refuses an edge whose two vertices do not differ ([AssertionError:
    Start and end of an edge should differ]).  Of that test it is only
    taken that a vertex does not differ from itself. *)
Class edge_module : Type := {
  new_geometric_id : nat;
  curve_length : vertex -> vertex -> list vertex -> R;
  curve_length_nonneg : forall s e cps, 0 <= curve_length s e cps;
  same_vertex : vertex -> vertex -> bool;
  same_vertex_refl : forall v, same_vertex v v = true
}.

(** The straight edge from [s] to [e], as [Edge.__init__] leaves it when
    its assertion has passed. *)
Definition Edge_new `{edge_module} {V} (s e : V) : Edge V :=
  mkEdge s e [] new_geometric_id.

(** [Edge(start, end)]: the constructor asserts that the two vertices
    differ; [same] is the test of that assertion on vertices of the type
    [V]. *)
Definition Edge_init `{edge_module} {V} (same : V -> V -> bool) (s e : V)
  : outcome (Edge V) :=
  if same s e then Raise AssertionError else Ok (Edge_new s e).

(** The test on vertices whose coordinates may be [nan]: no number is
    close to [nan], so a vertex with such a coordinate differs from every
    vertex. *)
Definition np_same_vertex `{edge_module} (a b : npfloat * npfloat) : bool :=
  match a, b with
  | (Fin ax, Fin ay), (Fin bx, Fin by_) => same_vertex (ax, ay) (bx, by_)
  | _, _ => false
  end.

(** [CurveEdge(start, end, control_points, relative=True)] *)
Definition CurveEdge_new `{edge_module} {V} (s e : V) (cps : list V) : Edge V :=
  mkEdge s e cps new_geometric_id.

(** [Edge.length()]: the Euclidean distance for a straight edge, the arc
    length for a curved one. *)
Definition Edge_length `{edge_module} (e : Edge vertex) : R :=
  match control_points e with
  | [] => norm (vsub (end_ e) (start e))
  | cps => curve_length (start e) (end_ e) cps
  end.

(** [EdgeSequence.lengths()] *)
Definition lengths `{edge_module} (s : EdgeSequence vertex) : list R :=
  map Edge_length s.

(** Consecutive edges share their end point: what [isChained] checks. *)
Fixpoint chained {V} (s : EdgeSequence V) : Prop :=
  match s with
  | e1 :: ((e2 :: _) as s') => end_ e1 = start e2 /\ chained s'
  | _ => True
  end.

(** ** Panels and interfaces *)

(** A panel as the stitching code uses it: its name, its boundary
    ([panel.edges]) and its placement, given as the map [point_to_3D] from
    the panel's plane into the scene. *)
Module Panel.
Record t : Type := mk {
  name : string;
  edges : EdgeSequence vertex;
  point_to_3D : vertex -> vec3
}.
End Panel.

(** An interface: its edges and, per edge, a reference to the panel that
    owns it ([inter.panel[i]] is an index into the heap's panels). *)
Module Interface.
Record t : Type := mk {
  edges : EdgeSequence vertex;
  panel : list nat
}.
End Interface.

(** What is taken from the [interface] module: [projecting_edges()], a
    function of the interface's current state that returns one edge per
    interface edge. *)
Class interface_module : Type := {
  projecting_edges : Interface.t -> EdgeSequence vertex;
  projecting_edges_len :
    forall i, List.length (projecting_edges i) = List.length (Interface.edges i)
}.

(** ** State and exception monad

    The state is returned on a raise too: what was written before an
    exception stays written. *)

Definition ST (S A : Type) : Type := S -> outcome A * S.

Definition ret {S A} (a : A) : ST S A := fun w => (Ok a, w).

Definition raise {S A} (e : error) : ST S A := fun w => (Raise e, w).

Definition bind {S A B} (c : ST S A) (k : A -> ST S B) : ST S B :=
  fun w =>
    match c w with
    | (Ok a, w') => k a w'
    | (Raise e, w') => (Raise e, w')
    end.

Declare Scope monad_scope.
Delimit Scope monad_scope with monad.
Notation "x <- c ;; k" := (bind c (fun x => k))
  (at level 61, c at next level, right associativity) : monad_scope.
Notation "c ;;; k" := (bind c (fun _ => k))
  (at level 61, right associativity) : monad_scope.
Open Scope monad_scope.

Definition lift {S A} (o : outcome A) : ST S A := fun w => (o, w).

Fixpoint mapM {S A B} (f : A -> ST S B) (l : list A) : ST S (list B) :=
  match l with
  | [] => ret []
  | a :: l' => b <- f a ;; bs <- mapM f l' ;; ret (b :: bs)
  end.

(** [l[i]] for a non-negative [i], and [l[-1]]. *)
Definition index {A} (l : list A) (i : nat) : outcome A :=
  match nth_error l i with
  | Some a => Ok a
  | None => Raise IndexError
  end.

Definition index_last {A} (l : list A) : outcome A :=
  index l (List.length l - 1).

Fixpoint list_set {A} (l : list A) (i : nat) (a : A) : list A :=
  match l, i with
  | [], _ => []
  | _ :: l', O => a :: l'
  | x :: l', S i' => x :: list_set l' i' a
  end.

(** [list.insert(i, x)] for [0 <= i]. *)
Definition list_insert {A} (l : list A) (i : nat) (a : A) : list A :=
  firstn i l ++ a :: skipn i l.

(** ** Vertices as Python objects, and what is printed

    The factory functions receive their vertices as Python sequences: a
    list is a mutable object, addressed here by its position in [vheap]; a
    tuple is an immutable value.  [stdout] collects what is printed. *)

Inductive pyvertex : Type :=
  | pylist (l : nat)
  | pytuple (v : vertex).

Inductive printed : Type :=
  | print_out
  | print_Optimization_not_successful.

Record Mem : Type := mkMem {
  vheap : list vertex;
  stdout : list printed
}.

Definition F (A : Type) : Type := ST Mem A.

(** [np.asarray(a)] for a list or a tuple: a fresh array with its value. *)
Definition deref (a : pyvertex) : F vertex :=
  fun m =>
    match a with
    | pytuple v => (Ok v, m)
    | pylist l =>
        match nth_error (vheap m) l with
        | Some v => (Ok v, m)
        | None => (Raise NoSuchObject, m)
        end
    end.

(** [v.tolist()]: a new list object. *)
Definition alloc (v : vertex) : F pyvertex :=
  fun m => (Ok (pylist (List.length (vheap m))), mkMem (vheap m ++ [v]) (stdout m)).

(** [a[:] = v]: writes into a list, fails on a tuple. *)
Definition assign_slice (a : pyvertex) (v : vertex) : F unit :=
  fun m =>
    match a with
    | pytuple _ => (Raise TypeError, m)
    | pylist l => (Ok tt, mkMem (list_set (vheap m) l v) (stdout m))
    end.

Definition print (x : printed) : F unit :=
  fun m => (Ok tt, mkMem (vheap m) (stdout m ++ [x])).

(** The memory as it is at this point of the run. *)
Definition get_mem : F Mem := fun m => (Ok m, m).

(** The test of [Edge.__init__] on vertices that are Python objects: on
    the coordinates that they hold when the edge is constructed. *)
Definition py_same_vertex `{edge_module} (m : Mem) (a b : pyvertex) : bool :=
  match fst (deref a m), fst (deref b m) with
  | Ok x, Ok y => same_vertex x y
  | _, _ => false
  end.

(** The methods of [Edge] and [EdgeSequence] of the edge module (and
    [vector_angle] of [generic_utils]) that the dart constructors call.
    They move vertices in place, so they act on the heap; a method of a
    single edge returns the edge as it is after the call.  Nothing is
    assumed about them. *)
Class edge_methods : Type := {
  vector_angle : vertex -> vertex -> R;
  reflect : EdgeSequence pyvertex -> pyvertex -> pyvertex -> F (EdgeSequence pyvertex);
  translate_by : EdgeSequence pyvertex -> vertex -> F (EdgeSequence pyvertex);
  rotate : EdgeSequence pyvertex -> R -> F (EdgeSequence pyvertex);
  reverse : EdgeSequence pyvertex -> F (EdgeSequence pyvertex);
  Edge_reverse : Edge pyvertex -> F (Edge pyvertex);
  Edge_rotate : Edge pyvertex -> R -> F (Edge pyvertex)
}.

(** [scipy.optimize.minimize(fun, x0, args)]: the solver is outside the
    repository; it is any function from an objective and a first guess to
    a result with the fields [x], [fun] and [success].  An exception of
    the objective comes out of the solver. *)
Record OptimizeResult (X : Type) : Type := mkOptimizeResult {
  res_x : X;
  res_fun : R;
  res_success : bool
}.
Arguments mkOptimizeResult {X} _ _ _.
Arguments res_x {X} _.
Arguments res_fun {X} _.
Arguments res_success {X} _.

Class scipy_optimize : Type := {
  minimize : forall X : Type, (X -> outcome R) -> X -> outcome (OptimizeResult X)
}.
Arguments minimize {_} {X} _ _.

(** What the dart constructors return: the full sequence, the dart edges
    [dart_shape[1:-1]], the non-dart edges (with the panel when one is
    given, as [Interface(panel, ...)]) and the suggested dart stitch. *)
Record dart_result : Type := mkDart {
  full_shape : EdgeSequence pyvertex;
  dart_edges : EdgeSequence pyvertex;
  out_interface : option nat * EdgeSequence pyvertex;
  dart_stitch : option ((nat * Edge pyvertex) * (nat * Edge pyvertex))
}.

(** ** EdgeSeqFactory *)

Module EdgeSeqFactory.

Section Constructors.
Context `{GU : generic_utils} `{EM : edge_module}.

(** The loop of [from_verts]: every appended edge starts at the vertex the
    sequence currently ends at ([seq[-1].end]); the first edge that
    [Edge.__init__] refuses ends the run. *)
Fixpoint chain_from {V} (same : V -> V -> bool) (prev : V) (verts : list V)
  : outcome (EdgeSequence V) :=
  match verts with
  | [] => Ok []
  | v :: verts' =>
      obind (Edge_init same prev v) (fun e =>
      obind (chain_from same v verts') (fun seq =>
      Ok (e :: seq)))
  end.

(** [from_verts(verts..., loop=False)], with the test [same] of the edge
    constructor on the vertices it is given.  Fewer than two vertices make
    [verts[1]] fail.  The result of the closing call [seq.isChained()] is
    discarded by the source; the sequence is chained by construction
    (lemma [from_verts_chained]). *)
Definition from_verts {V} (same : V -> V -> bool) (verts : list V) (loop : bool)
  : outcome (EdgeSequence V) :=
  match verts with
  | v0 :: v1 :: rest =>
      obind (chain_from same v0 (v1 :: rest)) (fun seq =>
      if loop then
        obind (Edge_init same (List.last (v1 :: rest) v1) v0) (fun e =>
        Ok (seq ++ [e]))
      else Ok seq)
  | _ => Raise IndexError
  end.

(** The loop of [from_fractions] that gathers the inner vertices: one per
    fraction, each offset from the previous vertex ([verts[-1]]). *)
Fixpoint inner_verts (prev vec : vertex) (frac : list R) : list vertex :=
  match frac with
  | [] => []
  | f :: frac' =>
      let v := (fst prev + f * fst vec, snd prev + f * snd vec) in
      v :: inner_verts v vec frac'
  end.

(** [from_fractions(start, end, frac=[1])] *)
Definition from_fractions (start_ end' : vertex) (frac : list R)
  : outcome (EdgeSequence vertex) :=
  let frac := map Rabs frac in
  let fsum := Rsum frac in
  if negb (close_enough fsum 1 (1 / 10000)) then
    Raise (RuntimeError fraction_is_incorrect)
  else
    let vec := vsub end' start_ in
    let verts := start_ :: inner_verts start_ vec (removelast frac) in
    let verts := verts ++ [end'] in
    from_verts same_vertex verts false.

(** [side_with_cut(start, end, start_cut, end_cut)] *)
Definition side_with_cut (start_ end' : vertex) (start_cut end_cut : R)
  : outcome (EdgeSequence vertex) :=
  let verts := [start_] in
  let verts :=
    if Rltb 0 start_cut
    then verts ++ [vadd start_ (vscale start_cut (vsub end' start_))] else verts in
  let verts :=
    if Rltb 0 end_cut
    then verts ++ [vsub end' (vscale end_cut (vsub end' start_))] else verts in
  let verts := verts ++ [end'] in
  from_verts same_vertex verts false.

(** [dart_shape(width, depth)]: the apex ordinate is [-depth_perp], which
    is [nan] when the radicand is negative; the function itself checks
    nothing. *)
Definition dart_shape (width depth : R) : outcome (EdgeSequence (npfloat * npfloat)) :=
  let depth_perp := np_sqrt (depth ^ 2 - (width / 2) ^ 2) in
  from_verts np_same_vertex
    [ (Fin 0, Fin 0); (Fin (width / 2), np_neg depth_perp); (Fin width, Fin 0) ]
    false.

End Constructors.

(** *** Helpers of the module ([# Utils]) *)

Definition dot (a b : vertex) : R := fst a * fst b + snd a * snd b.

(** [np.cross] of two plane vectors. *)
Definition cross (a b : vertex) : R := fst a * snd b - snd a * fst b.

(** [np.sign] *)
Definition sign (x : R) : R :=
  if Rltb x 0 then -1 else if Rltb 0 x then 1 else 0.

Definition deg2rad (a : R) : R := a * PI / 180.

(** [_rel_to_abs_coords(start, end, vrel)] *)
Definition _rel_to_abs_coords (start_ end' vrel : vertex) : vertex :=
  let vec := vsub end' start_ in
  let vec := vscale (/ norm vec) vec in
  let vec_perp := (- snd vec, fst vec) in
  let new_start := vadd start_ (vscale (fst vrel) vec) in
  vadd new_start (vscale (snd vrel) vec_perp).

(** [_abs_to_rel_2d(start, end, point)] *)
Definition _abs_to_rel_2d (start_ end' point : vertex) : vertex :=
  let edge := vsub end' start_ in
  let edge_len := norm edge in
  let point_vec := vsub point start_ in
  let projected_len := dot edge point_vec / edge_len in
  let converted0 := projected_len / edge_len in
  let control_projected := vscale converted0 edge in
  let vert_comp := vsub point_vec control_projected in
  let converted1 := norm vert_comp / edge_len in
  let converted1 := converted1 * - sign (cross point_vec edge) in
  (converted0, converted1).

(** [_softsign(x)] *)
Definition _softsign (x : R) : R := x / (Rabs x + 1).

(** [_fit_dart(coords, v0, v1, d0, d1, depth, theta=90)] *)
Definition _fit_dart (coords : vertex * vertex * vertex) (v0 v1 : vertex)
    (d0 d1 depth theta : R) : R :=
  let '(p0, p_tip, p1) := coords in
  let error_d0 := (norm (vsub p0 v0) - d0) ^ 2 in
  let error_d1 := (norm (vsub p1 v1) - d1) ^ 2 in
  let error_depth0 := (norm (vsub p0 p_tip) - depth) ^ 2 in
  let error_depth1 := (norm (vsub p1 p_tip) - depth) ^ 2 in
  let theta := deg2rad theta in
  let error_angle0 :=
    (dot (vsub p_tip p0) (vsub v0 p0) - cos theta * d0 * depth) ^ 2 in
  let error_angle1 :=
    (dot (vsub p_tip p1) (vsub v1 p1) + cos theta * d1 * depth) ^ 2 in
  let error_side :=
    (_softsign (cross (vsub v1 v0) (vsub p1 v0))
     - _softsign (cross (vsub v1 v0) (vsub p0 v0))) ^ 2 / 4 in
  Rsum [error_d0; error_d1; error_depth0; error_depth1;
        error_angle0; error_angle1; error_side].

(** The point of a quadratic Bezier curve ([curve.point(t)]). *)
Definition bezier_point (p0 p1 p2 : vertex) (t : R) : vertex :=
  vadd (vadd (vscale ((1 - t) ^ 2) p0) (vscale (2 * (1 - t) * t) p1))
       (vscale (t ^ 2) p2).

(** [_extreme_points(curve)] with its defaults [on_x=False, on_y=True] for
    a quadratic curve: the derivative of the ordinate is linear, and its
    root counts when it lies strictly between 0 and 1. *)
Definition _extreme_points (p0 p1 p2 : vertex) : list vertex :=
  let a := snd p0 - 2 * snd p1 + snd p2 in
  if Req_dec_T a 0 then []
  else
    let r := (snd p0 - snd p1) / a in
    if Rltb 0 r && Rltb r 1 then [bezier_point p0 p1 p2 r] else [].

(** [_fit_y_extremum(cp_y, target_location)] *)
Definition _fit_y_extremum (cp_y : R) (target_location : vertex) : outcome R :=
  let extremum := _extreme_points (0, 0) (fst target_location, cp_y) (1, 0) in
  match extremum with
  | [] => Raise (RuntimeError No_extreme_points)
  | _ =>
      let diff :=
        sqrt (Rsum (map (fun p => fst (vsub p target_location) ^ 2
                                  + snd (vsub p target_location) ^ 2) extremum)) in
      Ok (diff ^ 2)
  end.

Section Solves.
Context `{GU : generic_utils} `{EM : edge_module} `{MT : edge_methods}
        `{SO : scipy_optimize}.

(** The tail shared by the two dart constructors: the suggested dart
    stitch [(Interface(panel, dart_shape[1]), Interface(panel,
    dart_shape[2]))] when a panel is given, the non-dart edges
    [EdgeSequence(dart_shape[0], dart_shape[-1])], and the four results. *)
Definition finish_dart (dart_shape : EdgeSequence pyvertex) (panel : option nat)
  : outcome dart_result :=
  let dart_stitch :=
    match panel with
    | None => Ok None
    | Some p =>
        match index dart_shape 1, index dart_shape 2 with
        | Ok e1, Ok e2 => Ok (Some ((p, e1), (p, e2)))
        | _, _ => Raise IndexError
        end
    end in
  match dart_stitch, index dart_shape 0, index_last dart_shape with
  | Ok st, Ok e0, Ok el =>
      Ok (mkDart dart_shape (removelast (tl dart_shape)) (panel, [e0; el]) st)
  | _, _, _ => Raise IndexError
  end.

(** [dart_shape.insert(0, Edge(start, dart_shape[0].start))] and
    [dart_shape.append(Edge(dart_shape[-1].end, end))] *)
Definition add_sides (same : pyvertex -> pyvertex -> bool)
    (dart_shape : EdgeSequence pyvertex) (start_ end' : pyvertex)
  : outcome (EdgeSequence pyvertex) :=
  obind (index dart_shape 0) (fun e0 =>
  obind (Edge_init same start_ (start e0)) (fun first =>
  let dart_shape := list_insert dart_shape 0 first in
  obind (index_last dart_shape) (fun el =>
  obind (Edge_init same (end_ el) end') (fun last =>
  Ok (dart_shape ++ [last]))))).

(** [seq[0].method(...)] and [seq[-1].method(...)] for a method that
    changes the edge in place. *)
Definition on_edge (seq : EdgeSequence pyvertex) (last : bool)
    (method : Edge pyvertex -> F (Edge pyvertex)) : F (EdgeSequence pyvertex) :=
  let k := if last then (List.length seq - 1)%nat else 0%nat in
  e <- lift (index seq k) ;;
  e' <- method e ;;
  ret (list_set seq k e').

(** [side_with_dart_by_width(start, end, width, depth, dart_position,
    opening_angle, right, modify, panel)].  The reals stand for the floats
    where these are finite: for a dart with [0 < width < 2 * depth] at a
    position from 0 to the length of a side with [start <> end]; what is
    stated about the points the function computes is stated on this
    domain.  The two checks that come before the dart is built (the
    position, and that [end] can be written) do not depend on it. *)
Definition side_with_dart_by_width (start_ end' : pyvertex)
    (width depth dart_position opening_angle : R) (right : bool)
    (modify : string) (panel : option nat) : F dart_result :=
  v0 <- deref start_ ;;
  v1 <- deref end' ;;
  let L := norm (vsub v1 v0) in
  let d0 := dart_position in
  let d1 := L - dart_position in
  let depth_perp := sqrt (depth ^ 2 - (width / 2) ^ 2) in
  let dart_side := depth in
  if Rltb d1 0 then raise (ValueError Invalid_dart_position)
  else
    let delta_l := dart_side * width / (2 * depth_perp) in
    let side0 := d0 + delta_l in
    let side1 := d1 + delta_l in
    let alpha := Rabs (atan (width / 2 / depth_perp)) in
    let top_angle := PI - 2 * alpha in
    let long_side :=
      sqrt (side0 ^ 2 + side1 ^ 2 - 2 * side0 * side1 * cos top_angle) in
    let sin0 := side1 * sin top_angle / long_side in
    let sin1 := side0 * sin top_angle / long_side in
    let angle0 := asin sin0 in
    let angle1 := asin sin1 in
    let p1 := _rel_to_abs_coords v0 v1 (d0 * cos angle0, d0 * sin0) in
    let p2 := _rel_to_abs_coords v0 v1 (long_side - d1 * cos angle1, d1 * sin1) in
    let p_vec := vsub p2 p1 in
    let p_perp := (- snd p_vec, fst p_vec) in
    let p_perp := vscale depth_perp (vscale (/ norm p_perp) p_perp) in
    let p_tip := vsub (vadd p1 (vscale (/ 2) p_vec)) p_perp in
    let new_end := _rel_to_abs_coords v0 v1 (long_side, 0) in
    let shift := vsub new_end v1 in
    assign_slice end' (_rel_to_abs_coords v0 v1 (long_side, 0)) ;;;
    a1 <- alloc p1 ;;
    a_tip <- alloc p_tip ;;
    a2 <- alloc p2 ;;
    mem <- get_mem ;;
    dart_shape <- lift (from_verts (py_same_vertex mem) [a1; a_tip; a2] false) ;;
    dart_shape <- (if negb right then reflect dart_shape start_ end'
                   else ret dart_shape) ;;
    mem <- get_mem ;;
    dart_shape <- lift (add_sides (py_same_vertex mem) dart_shape start_ end') ;;
    let angle_diff := if right then deg2rad (180 - opening_angle) * 1 else -1 in
    dart_shape <-
      (if String.eqb modify "both" then
         dart_shape <- translate_by dart_shape (vscale (- / 2) shift) ;;
         dart_shape <- on_edge dart_shape false
                         (fun e => e <- Edge_reverse e ;;
                                   e <- Edge_rotate e (- angle_diff / 2) ;;
                                   Edge_reverse e) ;;
         on_edge dart_shape true (fun e => Edge_rotate e (angle_diff / 2))
       else if String.eqb modify "end" then
         dart_shape <- rotate dart_shape (vector_angle (vsub p1 v0) (vsub v1 v0)) ;;
         on_edge dart_shape true (fun e => Edge_rotate e angle_diff)
       else if String.eqb modify "start" then
         dart_shape <- translate_by dart_shape (vscale (-1) shift) ;;
         dart_shape <- reverse dart_shape ;;
         dart_shape <- rotate dart_shape
                         (vector_angle (vsub p2 new_end) (vscale (-1) (vsub v1 v0))) ;;
         dart_shape <- on_edge dart_shape true
                         (fun e => Edge_rotate e (- angle_diff)) ;;
         reverse dart_shape
       else ret dart_shape) ;;
    lift (finish_dart dart_shape panel).

(** [d0 / (d0 + d1)] on Python numbers. *)
Definition py_div (a b : R) : outcome R :=
  if Req_dec_T b 0 then Raise ZeroDivisionError else Ok (a / b).

(** [side_with_dart_by_len(start, end, target_len, depth, dart_position,
    dart_angle, right, panel, tol)].  The reals stand for the floats on a
    side with [start <> end]. *)
Definition side_with_dart_by_len (start_ end' : pyvertex)
    (target_len depth dart_position dart_angle : R) (right : bool)
    (panel : option nat) (tol : R) : F dart_result :=
  v0 <- deref start_ ;;
  v1 <- deref end' ;;
  let L := norm (vsub v0 v1) in
  let d0 := dart_position in
  let d1 := target_len - dart_position in
  if negb (Rltb (d0 + d1) L) then raise (ValueError Invalid_dart_position)
  else
    let v := vscale (/ L) (vsub v1 v0) in
    q <- lift (py_div d0 (d0 + d1)) ;;
    let p0 := vadd v0 (vscale q (vscale L v)) in
    let p1 := p0 in
    let vperp := (snd v, - fst v) in
    let p_tip := vadd p0 (vscale depth vperp) in
    let guess := (p0, p_tip, p1) in
    out <- lift (minimize
                   (fun coords => Ok (_fit_dart coords v0 v1 d0 d1 depth dart_angle))
                   guess) ;;
    if negb (close_enough (res_fun out) 0 tol) then
      print print_out ;;;
      raise (ValueError Solving_dart_was_unsuccessful)
    else
      let '(p0, p_tip, p1) := res_x out in
      a0 <- alloc p0 ;;
      a_tip <- alloc p_tip ;;
      a1 <- alloc p1 ;;
      mem <- get_mem ;;
      dart_shape <- lift (from_verts (py_same_vertex mem) [a0; a_tip; a1] false) ;;
      let right_position := Rltb (cross (vsub v1 v0) (vsub p_tip v0)) 0 in
      dart_shape <- (if (negb right && right_position) || (right && negb right_position)
                     then reflect dart_shape start_ end'
                     else ret dart_shape) ;;
      mem <- get_mem ;;
      dart_shape <- lift (add_sides (py_same_vertex mem) dart_shape start_ end') ;;
      lift (finish_dart dart_shape panel).

(** [curve_from_extreme(start, end, target_extreme)]; [VERBOSE] is
    [flags.VERBOSE]. *)
Definition curve_from_extreme (VERBOSE : bool) (start_ end' target_extreme : vertex)
  : F (Edge vertex) :=
  let rel_target := _abs_to_rel_2d start_ end' target_extreme in
  out <- lift (minimize (fun cp_y => _fit_y_extremum cp_y rel_target)
                 (snd rel_target)) ;;
  (if negb (res_success out) then
     print print_Optimization_not_successful ;;;
     (if VERBOSE then print print_out else ret tt)
   else ret tt) ;;;
  let cp := (fst rel_target, res_x out) in
  ret (CurveEdge_new start_ end' [cp]).

End Solves.

End EdgeSeqFactory.

(** ** The heap of panels and interfaces *)

(** The mutable objects: panels and interfaces, addressed by position.
    Edges and vertices are never written to by the stitching code, so they
    are kept as values inside the sequences that refer to them. *)
Record World : Type := mkWorld {
  panels : list Panel.t;
  interfaces : list Interface.t
}.


Definition M (A : Type) : Type := ST World A.

(** Following a reference.  A reference to an object that is not in the
    heap does not exist in Python; the model reports it as [NoSuchObject]. *)
Definition get_interface (i : nat) : M Interface.t :=
  fun w =>
    match nth_error (interfaces w) i with
    | Some x => (Ok x, w)
    | None => (Raise NoSuchObject, w)
    end.

Definition get_panel (p : nat) : M Panel.t :=
  fun w =>
    match nth_error (panels w) p with
    | Some x => (Ok x, w)
    | None => (Raise NoSuchObject, w)
    end.

Definition put_interface (i : nat) (x : Interface.t) : M unit :=
  fun w => (Ok tt, mkWorld (panels w) (list_set (interfaces w) i x)).

Definition put_panel (p : nat) (x : Panel.t) : M unit :=
  fun w => (Ok tt, mkWorld (list_set (panels w) p x) (interfaces w)).

(** *** [EdgeSequence.substitute] *)

Definition vertex_eq_dec (a b : vertex) : {a = b} + {a <> b}.
Proof. decide equality; apply Req_dec_T. Defined.

Definition Edge_eq_dec (a b : Edge vertex) : {a = b} + {a <> b}.
Proof.
  decide equality; [apply Nat.eq_dec | apply list_eq_dec | | ]; apply vertex_eq_dec.
Defined.

(** A descendant edge carries the identifier of the edge it replaces. *)
Definition inherit (orig e : Edge vertex) : Edge vertex :=
  mkEdge (start e) (end_ e) (control_points e) (geometric_id orig).

(** Modelled from the spec: [EdgeSequence.substitute(orig, new)] of the
    edge module.  It replaces [orig], the
    first element of the sequence that is this edge, by the chain [new] in
    place, keeps the order of the rest and hands [orig]'s [geometric_id] on
    to the descendants.  An edge that is not in the sequence cannot be
    located ([list.index] raises [ValueError]).  The chain is required to
    run from [orig.start] to [orig.end]; the stitching code only passes
    chains built by [from_fractions] between these two vertices. *)
Fixpoint substitute (seq : EdgeSequence vertex) (orig : Edge vertex)
    (new : EdgeSequence vertex) : outcome (EdgeSequence vertex) :=
  match seq with
  | [] => Raise (ValueError not_in_list)
  | e :: seq' =>
      if Edge_eq_dec e orig then Ok (map (inherit orig) new ++ seq')
      else
        match substitute seq' orig new with
        | Ok r => Ok (e :: r)
        | Raise x => Raise x
        end
  end.

(** ** connector.py *)

(** One side of a stitch record: [{'panel': ..., 'edge': ...}]. *)
Record stitch_side : Type := mkSide {
  side_panel : string;
  side_edge : nat
}.

Definition stitch : Type := (stitch_side * stitch_side)%type.

(** A rule holds references to its two interfaces. *)
Record StitchingRule : Type := mkRule {
  int1 : nat;
  int2 : nat
}.

(** The local variables of the loop of [_match_side_count]. *)
Record cursor : Type := mkCursor {
  add_id : nat;
  in_id : nat;
  covered_init : R;
  covered_added : R
}.

Section Connector.
Context `{GU : generic_utils} `{EM : edge_module} `{IM : interface_module}.

(** [isMatching] *)
Definition isMatching (self : StitchingRule) : M bool :=
  i1 <- get_interface (int1 self) ;;
  i2 <- get_interface (int2 self) ;;
  ret (List.length (Interface.edges i1) =? List.length (Interface.edges i2))%nat.

(** [inter.panel[i].point_to_3D(inter.edges[i].start)] and the like: the
    panel is looked up first, then the vertex of the edge. *)
Definition corner_3D (p : outcome nat) (e : outcome (Edge vertex))
    (corner : Edge vertex -> vertex) : M vec3 :=
  r <- lift p ;;
  pan <- get_panel r ;;
  x <- lift e ;;
  ret (Panel.point_to_3D pan (corner x)).

(** [isTraversalMatching] *)
Definition isTraversalMatching (self : StitchingRule) : M bool :=
  i1 <- get_interface (int1 self) ;;
  i2 <- get_interface (int2 self) ;;
  if (1 <? List.length (Interface.edges i1))%nat then
    start_1 <- corner_3D (index (Interface.panel i1) 0) (index (Interface.edges i1) 0) start ;;
    start_2 <- corner_3D (index (Interface.panel i2) 0) (index (Interface.edges i2) 0) start ;;
    end_1 <- corner_3D (index_last (Interface.panel i1)) (index_last (Interface.edges i1)) end_ ;;
    end_2 <- corner_3D (index_last (Interface.panel i2)) (index_last (Interface.edges i2)) end_ ;;
    let stitch_dist_straight := norm3 (sub3 start_2 start_1) + norm3 (sub3 end_2 end_1) in
    let stitch_dist_reverse := norm3 (sub3 start_2 end_1) + norm3 (sub3 end_2 start_1) in
    if Rltb stitch_dist_reverse stitch_dist_straight then ret false else ret true
  else ret true.

(** [inter.panel[in_id].edges.substitute(base_edge, subdiv)] *)
Definition substitute_in_panel (p : nat) (base_edge : Edge vertex)
    (subdiv : EdgeSequence vertex) : M unit :=
  pan <- get_panel p ;;
  es <- lift (substitute (Panel.edges pan) base_edge subdiv) ;;
  put_panel p (Panel.mk (Panel.name pan) es (Panel.point_to_3D pan)).

(** [inter.edges.substitute(base_edge, subdiv)] *)
Definition substitute_in_interface (inter : nat) (base_edge : Edge vertex)
    (subdiv : EdgeSequence vertex) : M unit :=
  i <- get_interface inter ;;
  es <- lift (substitute (Interface.edges i) base_edge subdiv) ;;
  put_interface inter (Interface.mk es (Interface.panel i)).

(** [inter.panel.insert(in_id, inter.panel[in_id])] *)
Definition insert_panel_ref (inter : nat) (at_ : nat) : M unit :=
  i <- get_interface inter ;;
  p <- lift (index (Interface.panel i) at_) ;;
  put_interface inter (Interface.mk (Interface.edges i) (list_insert (Interface.panel i) at_ p)).

(** The quotient [new_v_loc / projected_edge.length()].  A zero length
    makes the numpy quotient [inf] or [nan], on which [from_fractions]
    raises its fraction error. *)
Definition quotient (a b : R) : outcome R :=
  if Req_dec_T b 0 then Raise (RuntimeError fraction_is_incorrect) else Ok (a / b).

(** One turn of the [while] loop of [_match_side_count]. *)
Definition match_side_body (inter : nat) (to_add : list R) (tol : R) (c : cursor)
  : M cursor :=
  i <- get_interface inter ;;
  pe <- lift (index (projecting_edges i) (in_id c)) ;;
  let next_init := covered_init c + Edge_length pe in
  a <- lift (index to_add (add_id c)) ;;
  let next_added := covered_added c + a in
  if close_enough next_init next_added tol then
    ret (mkCursor (S (add_id c)) (S (in_id c)) next_init next_added)
  else if Rltb next_init next_added then
    ret (mkCursor (add_id c) (S (in_id c)) next_init (covered_added c))
  else
    projected_edge <- lift (index (projecting_edges i) (in_id c)) ;;
    let new_v_loc := Edge_length projected_edge - (next_init - next_added) in
    frac <- lift (quotient new_v_loc (Edge_length projected_edge)) ;;
    base_edge <- lift (index (Interface.edges i) (in_id c)) ;;
    subdiv <- lift (EdgeSeqFactory.from_fractions
                      (start base_edge) (end_ base_edge) [frac; 1 - frac]) ;;
    p <- lift (index (Interface.panel i) (in_id c)) ;;
    substitute_in_panel p base_edge subdiv ;;;
    substitute_in_interface inter base_edge subdiv ;;;
    insert_panel_ref inter (in_id c) ;;;
    sd0 <- lift (index subdiv 0) ;;
    ret (mkCursor (S (add_id c)) (S (in_id c))
           (covered_init c + Edge_length sd0) next_added).

(** The [while] loop.  [budget] bounds the number of turns; the loop
    condition is tested first, so a budget that is large enough is never
    noticed (see [match_side_loop_budget]). *)
Fixpoint match_side_loop (budget : nat) (inter : nat) (to_add : list R) (tol : R)
    (c : cursor) : M cursor :=
  i <- get_interface inter ;;
  if ((in_id c <? List.length (Interface.edges i))
      && (add_id c <? List.length to_add))%nat then
    match budget with
    | O => raise LoopBudget
    | S budget' =>
        c' <- match_side_body inter to_add tol c ;;
        match_side_loop budget' inter to_add tol c'
    end
  else ret c.

(** [_match_side_count(inter, to_add, tol)].  Every turn of the loop
    either moves [in_id] one step closer to the end of the interface or
    [add_id] one step closer to the end of [to_add], so the number of edges
    on entry plus [len(to_add)] bounds the number of turns. *)
Definition _match_side_count (inter : nat) (to_add : list R) (tol : R) : M unit :=
  i <- get_interface inter ;;
  let budget := (List.length (Interface.edges i) + List.length to_add)%nat in
  c <- match_side_loop budget inter to_add tol (mkCursor 0 0 0 0) ;;
  if negb (add_id c =? List.length to_add)%nat then
    raise (RuntimeError Projection_failed)
  else ret tt.

(** [match_edge_count(tol=0.1)] *)
Definition match_edge_count (self : StitchingRule) (tol : R) : M unit :=
  i1 <- get_interface (int1 self) ;;
  let lengths1 := lengths (projecting_edges i1) in
  tm <- isTraversalMatching self ;;
  let lengths1 := if negb tm then rev lengths1 else lengths1 in
  i2 <- get_interface (int2 self) ;;
  let lengths2 := lengths (projecting_edges i2) in
  tm <- isTraversalMatching self ;;
  let lengths2 := if negb tm then rev lengths2 else lengths2 in
  if negb (close_enough (Rsum lengths1) (Rsum lengths2) tol) then
    raise (RuntimeError Projected_edges_do_not_match)
  else
    _match_side_count (int1 self) lengths2 tol ;;;
    _match_side_count (int2 self) lengths1 tol.

Definition default_tol : R := 1 / 10.

(** [StitchingRule.__init__(int1, int2)] *)
Definition StitchingRule_init (i1 i2 : nat) : M StitchingRule :=
  let self := mkRule i1 i2 in
  m <- isMatching self ;;
  if negb m then match_edge_count self default_tol ;;; ret self
  else ret self.

(** The body of the [for] loop of [assembly]: the record for the pair of
    indices [(i, j)]. *)
Definition stitch_record (self : StitchingRule) (ij : nat * nat) : M stitch :=
  let '(i, j) := ij in
  i1 <- get_interface (int1 self) ;;
  p1 <- lift (index (Interface.panel i1) i) ;;
  pan1 <- get_panel p1 ;;
  e1 <- lift (index (Interface.edges i1) i) ;;
  i2 <- get_interface (int2 self) ;;
  p2 <- lift (index (Interface.panel i2) j) ;;
  pan2 <- get_panel p2 ;;
  e2 <- lift (index (Interface.edges i2) j) ;;
  ret (mkSide (Panel.name pan1) (geometric_id e1),
       mkSide (Panel.name pan2) (geometric_id e2)).

(** [assembly] *)
Definition assembly (self : StitchingRule) : M (list stitch) :=
  m <- isMatching self ;;
  if negb m then raise (RuntimeError Stitch_sides_do_not_matched)
  else
    tm <- isTraversalMatching self ;;
    let swap := negb tm in
    i1 <- get_interface (int1 self) ;;
    i2 <- get_interface (int2 self) ;;
    let n1 := List.length (Interface.edges i1) in
    let n2 := List.length (Interface.edges i2) in
    let js := if swap then rev (seq 0 n2) else seq 0 n2 in
    mapM (stitch_record self) (combine (seq 0 n1) js).

(** [Stitches]: the list [self.rules]. *)
Definition Stitches : Type := list StitchingRule.

(** [Stitches.__init__(rules...)] *)
Definition Stitches_init (rules : list (nat * nat)) : M Stitches :=
  mapM (fun r => StitchingRule_init (fst r) (snd r)) rules.

(** [Stitches.append(pair)] *)
Definition Stitches_append (self : Stitches) (pair : nat * nat) : M Stitches :=
  r <- StitchingRule_init (fst pair) (snd pair) ;;
  ret (self ++ [r]).

(** [Stitches.assembly] *)
Definition Stitches_assembly (self : Stitches) : M (list stitch) :=
  ss <- mapM assembly self ;;
  ret (List.concat ss).

End Connector.

(** ** Implementations of the imported parts, used for concrete runs *)

(** [close_enough] as the strict comparison [abs(f1 - f2) < tol]. *)
#[export] Program Instance strict_close : generic_utils :=
  {| close_enough f1 f2 tol := Rltb (Rabs (f1 - f2)) tol |}.
Next Obligation.
  unfold Rltb. destruct (Rlt_dec (Rabs (f1 - f2)) tol); [reflexivity | contradiction].
Qed.
Next Obligation.
  unfold Rltb. destruct (Rlt_dec (Rabs (f1 - f2)) tol); [lra | reflexivity].
Qed.

(** The point of the quadratic Bezier curve from [s] to [e] at parameter
    1/2; the control point is given relative to the chord, as a fraction
    along it and a perpendicular offset in units of its length. *)
Definition bezier_mid (s e cp : vertex) : vertex :=
  let d := vsub e s in
  let c := (fst s + fst cp * fst d - snd cp * snd d,
            snd s + fst cp * snd d + snd cp * fst d) in
  ((fst s + 2 * fst c + fst e) / 4, (snd s + 2 * snd c + snd e) / 4).

(** Modelled from the spec: the length of a curved edge
    ([CurveEdge.length()] of the edge module), an arc length approximated
    by chords.  Here: the polygon of the two chords through the point at
    parameter 1/2 of a curve with one control point; every finer polygon
    of chords, and the arc itself, is at least as long.  With no or
    several control points: the chord. *)
Definition two_chord_length (s e : vertex) (cps : list vertex) : R :=
  match cps with
  | [cp] => norm (vsub (bezier_mid s e cp) s) + norm (vsub e (bezier_mid s e cp))
  | _ => norm (vsub e s)
  end.

(** A test for the edge constructor: two vertices do not differ when they
    agree in both coordinates to within 1e-4, the default tolerance of
    [close_enough]. *)
Definition coincide (a b : vertex) : bool :=
  Rltb (Rabs (fst a - fst b)) (1 / 10000) && Rltb (Rabs (snd a - snd b)) (1 / 10000).

#[export] Program Instance sampled_edges : edge_module :=
  {| new_geometric_id := 0; curve_length := two_chord_length;
     same_vertex := coincide |}.
Next Obligation.
  unfold two_chord_length.
  destruct cps as [|cp [|cp' cps]]; try apply sqrt_pos.
  apply Rplus_le_le_0_compat; apply sqrt_pos.
Qed.
Next Obligation.
  unfold coincide, Rltb.
  replace (fst v - fst v) with 0 by ring. replace (snd v - snd v) with 0 by ring.
  rewrite Rabs_R0. destruct (Rlt_dec 0 (1 / 10000)); [reflexivity | lra].
Qed.

(** Modelled from the spec: [Interface.projecting_edges()] of the interface
    module.  Each edge of the interface is projected onto the straight
    chord from the interface's first start vertex to its last end vertex. *)
Definition chord_project (s0 d p : vertex) : vertex :=
  let t := ((fst p - fst s0) * fst d + (snd p - snd s0) * snd d)
           / (fst d * fst d + snd d * snd d) in
  (fst s0 + t * fst d, snd s0 + t * snd d).

Definition chord_projecting_edges (i : Interface.t) : EdgeSequence vertex :=
  match Interface.edges i with
  | [] => []
  | e0 :: _ =>
      let s0 := start e0 in
      let d := vsub (end_ (List.last (Interface.edges i) e0)) s0 in
      map (fun e => mkEdge (chord_project s0 d (start e)) (chord_project s0 d (end_ e))
                      [] (geometric_id e))
          (Interface.edges i)
  end.

#[export] Program Instance chord_projection : interface_module :=
  {| projecting_edges := chord_projecting_edges |}.
Next Obligation.
  unfold chord_projecting_edges.
  destruct (Interface.edges i); [reflexivity | apply length_map].
Qed.

(** ** Notions used to state the properties *)

(** An interface as the constructors of the library leave it: it has at
    least one edge, one panel reference per edge, and every reference
    points at a panel of the heap. *)
Definition valid_interface (w : World) (i : Interface.t) : Prop :=
  Interface.edges i <> []
  /\ List.length (Interface.panel i) = List.length (Interface.edges i)
  /\ Forall (fun p => (p < List.length (panels w))%nat) (Interface.panel i).

(** The rule [self] binds the interfaces [i1] and [i2] of the heap [w]. *)
Definition binds (w : World) (self : StitchingRule) (i1 i2 : Interface.t) : Prop :=
  nth_error (interfaces w) (int1 self) = Some i1
  /\ nth_error (interfaces w) (int2 self) = Some i2
  /\ valid_interface w i1
  /\ valid_interface w i2.

(** The corner points of an interface in the scene: the start of its first
    edge and the end of its last edge, each mapped by the placement of the
    panel that owns the edge. *)
Definition corners (w : World) (i : Interface.t) : option (vec3 * vec3) :=
  match Interface.edges i, Interface.panel i with
  | e0 :: _, p0 :: _ =>
      match nth_error (panels w) p0,
            nth_error (panels w) (List.last (Interface.panel i) p0) with
      | Some pan0, Some panl =>
          Some (Panel.point_to_3D pan0 (start e0),
                Panel.point_to_3D panl (end_ (List.last (Interface.edges i) e0)))
      | _, _ => None
      end
  | _, _ => None
  end.

(** The total corner-to-corner distance of the declared pairing (start
    with start, end with end) and of the reversed pairing. *)
Definition straight_distance (c1 c2 : vec3 * vec3) : R :=
  norm3 (sub3 (fst c2) (fst c1)) + norm3 (sub3 (snd c2) (snd c1)).

Definition reverse_distance (c1 c2 : vec3 * vec3) : R :=
  norm3 (sub3 (fst c2) (snd c1)) + norm3 (sub3 (snd c2) (fst c1)).


(** What one turn of the loop of [_match_side_count] can do: raise and
    leave the heap alone, move on without writing, or split the current
    edge of the interface in the interface and in the panel that owns it. *)
Inductive body_result `{generic_utils} `{edge_module} `{interface_module}
    (inter : nat) (c : cursor) (w : World) : outcome cursor -> World -> Prop :=
  | body_raises (e : error) :
      e <> LoopBudget ->
      body_result inter c w (Raise e) w
  | body_moves (c' : cursor) :
      in_id c' = S (in_id c) ->
      add_id c' = add_id c \/ add_id c' = S (add_id c) ->
      body_result inter c w (Ok c') w
  | body_splits (i : Interface.t) (base_edge : Edge vertex)
      (subdiv es_p es_i : EdgeSequence vertex) (p : nat) (pan : Panel.t)
      (frac : R) (c' : cursor) :
      nth_error (interfaces w) inter = Some i ->
      nth_error (Interface.edges i) (in_id c) = Some base_edge ->
      frac <= 1 ->
      EdgeSeqFactory.from_fractions (start base_edge) (end_ base_edge) [frac; 1 - frac]
      = Ok subdiv ->
      nth_error (Interface.panel i) (in_id c) = Some p ->
      nth_error (panels w) p = Some pan ->
      substitute (Panel.edges pan) base_edge subdiv = Ok es_p ->
      substitute (Interface.edges i) base_edge subdiv = Ok es_i ->
      in_id c' = S (in_id c) ->
      add_id c' = S (add_id c) ->
      body_result inter c w (Ok c')
        (mkWorld
           (list_set (panels w) p
              (Panel.mk (Panel.name pan) es_p (Panel.point_to_3D pan)))
           (list_set (interfaces w) inter
              (Interface.mk es_i (list_insert (Interface.panel i) (in_id c) p)))).

(** The straight edges through the vertices [prev :: verts], one from
    each vertex to the next. *)
Fixpoint chain `{edge_module} {V} (prev : V) (verts : list V) : EdgeSequence V :=
  match verts with
  | [] => []
  | v :: verts' => Edge_new prev v :: chain v verts'
  end.

(** Every vertex of the list differs from the next one, for the test
    [same] of the edge constructor. *)
Fixpoint steps_differ {V} (same : V -> V -> bool) (verts : list V) : bool :=
  match verts with
  | a :: ((b :: _) as verts') => negb (same a b) && steps_differ same verts'
  | _ => true
  end.

(** The vertices through which [side_with_cut] lays its edges. *)
Definition cut_verts (s e : vertex) (start_cut end_cut : R) : list vertex :=
  [s]
  ++ (if Rltb 0 start_cut then [vadd s (vscale start_cut (vsub e s))] else [])
  ++ (if Rltb 0 end_cut then [vsub e (vscale end_cut (vsub e s))] else [])
  ++ [e].

(** Every edge of the sequence is a straight [Edge]. *)
Definition straight (s : EdgeSequence vertex) : Prop :=
  Forall (fun e => control_points e = []) s.


(** The heap [w'] has, for every interface of [w] made of straight edges,
    an interface of straight edges of the same total length at the same
    place. *)
Definition lengths_kept `{edge_module} (w w' : World) : Prop :=
  forall k ik,
    nth_error (interfaces w) k = Some ik ->
    straight (Interface.edges ik) ->
    exists ik',
      nth_error (interfaces w') k = Some ik'
      /\ straight (Interface.edges ik')
      /\ Rsum (lengths (Interface.edges ik')) = Rsum (lengths (Interface.edges ik)).

(** The vertices of [l] and of [to_add] lie within [tol] of each other:
    the lengths covered after [j] edges differ by less than [tol]. *)
Definition aligned (tol : R) (l to_add : list R) : Prop :=
  List.length l = List.length to_add
  /\ forall j, (j <= List.length l)%nat ->
               Rabs (Rsum (firstn j l) - Rsum (firstn j to_add)) < tol.


(** A computation that leaves the state as it found it. *)
Definition readonly {S A} (c : ST S A) : Prop :=
  forall w o w', c w = (o, w') -> w' = w.


(** The stitch side that edge [k] of an interface gives: the name of the
    panel that owns the edge and the identifier of the edge. *)
Definition side_at (w : World) (i : Interface.t) (k : nat) : option stitch_side :=
  match nth_error (Interface.panel i) k, nth_error (Interface.edges i) k with
  | Some p, Some e =>
      match nth_error (panels w) p with
      | Some pan => Some (mkSide (Panel.name pan) (geometric_id e))
      | None => None
      end
  | _, _ => None
  end.


(** ** Example heaps *)

(** Placement of a panel in the plane at height [z]. *)
Definition flat (z : R) (v : vertex) : vec3 := (fst v, snd v, z).

(** A straight edge on the abscissa axis. *)
Definition hedge (x0 x1 : R) (g : nat) : Edge vertex := mkEdge (x0, 0) (x1, 0) [] g.

(** The three sides that close a box of height 5 over the segment from 0
    to [x1]; [g] is the identifier of the first of them. *)
Definition box (x1 : R) (g : nat) : EdgeSequence vertex :=
  [ mkEdge (x1, 0) (x1, 5) [] g;
    mkEdge (x1, 5) (0, 5) [] (S g);
    mkEdge (0, 5) (0, 0) [] (S (S g)) ].

(** A T-stitch: panel A offers one edge from 0 to [x1] (curved when [cps]
    holds control points), panel B offers the two edges from 0 to [a] and
    from [a] to [x1]. *)
Definition T_edge_A (x1 : R) (cps : list vertex) : Edge vertex :=
  mkEdge (0, 0) (x1, 0) cps 0.

Definition T_panel_A (x1 : R) (cps : list vertex) : Panel.t :=
  Panel.mk "A" (T_edge_A x1 cps :: box x1 1) (flat 0).

Definition T_panel_B (x1 a : R) : Panel.t :=
  Panel.mk "B" (hedge 0 a 0 :: hedge a x1 1 :: box x1 2) (flat 1).

Definition T_interface_A (x1 : R) (cps : list vertex) : Interface.t :=
  Interface.mk [T_edge_A x1 cps] [0%nat].

Definition T_interface_B (x1 a : R) : Interface.t :=
  Interface.mk [hedge 0 a 0; hedge a x1 1] [1%nat; 1%nat].

Definition T_world (x1 a : R) (cps : list vertex) : World :=
  mkWorld [T_panel_A x1 cps; T_panel_B x1 a]
          [T_interface_A x1 cps; T_interface_B x1 a].

(** The same heap after the edge of A has been cut at [a]. *)
Definition T_interface_A_split (x1 a : R) : Interface.t :=
  Interface.mk [hedge 0 a 0; hedge a x1 0] [0%nat; 0%nat].

Definition T_world_split (x1 a : R) : World :=
  mkWorld [Panel.mk "A" (hedge 0 a 0 :: hedge a x1 0 :: box x1 1) (flat 0);
           T_panel_B x1 a]
          [T_interface_A_split x1 a; T_interface_B x1 a].

Definition T_rule : StitchingRule := mkRule 0 1.


(** Two interfaces of unequal total length: one edge from 0 to 10 on panel
    A, the edges from 0 to 5 and from 5 to 15 on panel B. *)
Definition M_world : World :=
  mkWorld [T_panel_A 10 []; T_panel_B 15 5]
          [T_interface_A 10 []; T_interface_B 15 5].

(** Two single-edge interfaces declared in opposite directions: the edge
    from (0,0) to (3,0) of panel A, and the edge from (3,0) back to (0,0)
    of panel B, which lies 4 above A. *)
Definition X_edge_B : Edge vertex := mkEdge (3, 0) (0, 0) [] 0.

Definition X_world : World :=
  mkWorld
    [ Panel.mk "A" (hedge 0 3 0 :: box 3 1) (flat 0);
      Panel.mk "B" [ X_edge_B; mkEdge (0, 0) (0, 5) [] 1;
                     mkEdge (0, 5) (3, 5) [] 2; mkEdge (3, 5) (3, 0) [] 3 ] (flat 4) ]
    [ Interface.mk [hedge 0 3 0] [0%nat]; Interface.mk [X_edge_B] [1%nat] ].


(** Two interfaces with two edges each and equal total length whose inner
    vertices differ: the edges 0-4 and 4-10 on panel A, the edges 0-5 and
    5-10 on panel B. *)
Definition U_interface_A : Interface.t :=
  Interface.mk [hedge 0 4 0; hedge 4 10 1] [0%nat; 0%nat].

Definition U_interface_B : Interface.t :=
  Interface.mk [hedge 0 5 0; hedge 5 10 1] [1%nat; 1%nat].

Definition U_panel_A : Panel.t :=
  Panel.mk "A" (hedge 0 4 0 :: hedge 4 10 1 :: box 10 2) (flat 0).

Definition U_panel_B : Panel.t :=
  Panel.mk "B" (hedge 0 5 0 :: hedge 5 10 1 :: box 10 2) (flat 1).

Definition U_world : World :=
  mkWorld [U_panel_A; U_panel_B] [U_interface_A; U_interface_B].

(** The same heap after side A has received the vertex at 5 ... *)
Definition U_interface_A_split : Interface.t :=
  Interface.mk [hedge 0 4 0; hedge 4 5 1; hedge 5 10 1] [0%nat; 0%nat; 0%nat].

Definition U_panel_A_split : Panel.t :=
  Panel.mk "A" (hedge 0 4 0 :: hedge 4 5 1 :: hedge 5 10 1 :: box 10 2) (flat 0).

Definition U_world_1 : World :=
  mkWorld [U_panel_A_split; U_panel_B] [U_interface_A_split; U_interface_B].

(** ... and after side B has received the vertex at 4. *)
Definition U_interface_B_split : Interface.t :=
  Interface.mk [hedge 0 4 0; hedge 4 5 0; hedge 5 10 1] [1%nat; 1%nat; 1%nat].

Definition U_panel_B_split : Panel.t :=
  Panel.mk "B" (hedge 0 4 0 :: hedge 4 5 0 :: hedge 5 10 1 :: box 10 2) (flat 1).

Definition U_world_2 : World :=
  mkWorld [U_panel_A_split; U_panel_B_split] [U_interface_A_split; U_interface_B_split].


(** ** Notions and stand-ins for the dart and curve constructors *)



(** Stand-ins for the edge methods that leave every vertex where it is.
    The runs below never call them; they only close the terms. *)
#[export] Instance still_methods : edge_methods :=
  {| vector_angle := fun _ _ => 0;
     reflect := fun s _ _ => ret s;
     translate_by := fun s _ => ret s;
     rotate := fun s _ => ret s;
     reverse := fun s => ret s;
     Edge_reverse := fun e => ret e;
     Edge_rotate := fun e _ => ret e |}.

(** A solver that gives up at once: it returns its first guess, reports
    the objective value 1 and no success. *)
#[export] Instance spent_solver : scipy_optimize :=
  {| minimize := fun X _ x0 => Ok (mkOptimizeResult x0 1 false) |}.

(** The first guess that [side_with_dart_by_len] hands to the solver:
    both dart points at the dart position on the side, the tip [depth]
    to the right of it. *)
Definition dart_guess (v0 v1 : vertex) (target_len depth dart_position : R)
  : vertex * vertex * vertex :=
  let L := norm (vsub v0 v1) in
  let d0 := dart_position in
  let d1 := target_len - dart_position in
  let v := vscale (/ L) (vsub v1 v0) in
  let p0 := vadd v0 (vscale (d0 / (d0 + d1)) (vscale L v)) in
  let p1 := p0 in
  let vperp := (snd v, - fst v) in
  let p_tip := vadd p0 (vscale depth vperp) in
  (p0, p_tip, p1).

(** A heap with the two list vertices [0, 0] and [10, 0]. *)
Definition two_vertices : Mem := mkMem [(0, 0); (10, 0)] [].

(** ** The garment programs that call the factory

    [assets/garment_programs/skirt_paneled.py] builds its panels with
    [from_verts], [side_with_cut] and [Edge].  The part of a panel's
    [__init__] that is embedded is the one that builds the edges and picks
    the edges of the interfaces.  The methods that place the panel
    ([set_pivot], [top_center_pivot], [center_x]) belong to the panel base
    class, which is not part of these modules; they move the vertices of
    the panel in place, all by the same vector.  [set_pivot], which
    [ThinSkirtPanel.__init__] calls before it builds its interfaces, is
    taken as such a move by a vector that is left open.  The two calls that
    end [SkirtPanel.__init__] come after everything that is embedded of
    it: its record holds the edges as they are before these calls, and
    what is stated about them is what such a move keeps: which edges there
    are, that they chain, and their lengths. *)

(** The sequence after every vertex of it has been moved by [d].  The
    control points of a curve are relative to its ends and stay. *)
Definition move_by (d : vertex) (s : EdgeSequence vertex) : EdgeSequence vertex :=
  map (fun e => mkEdge (vadd (start e) d) (vadd (end_ e) d) (control_points e)
                  (geometric_id e)) s.

(** A sequence that is a closed loop: consecutive edges share a vertex and
    the last edge ends where the first one starts. *)
Definition closed_loop {V} (s : EdgeSequence V) : Prop :=
  chained s
  /\ match s with
     | [] => True
     | e0 :: _ => end_ (List.last s e0) = start e0
     end.

Module SkirtPaneled.

Section Panels.
Context `{GU : generic_utils} `{EM : edge_module}.

(** [Panel.set_pivot(point)] moves every vertex of the panel by the
    vector [pivot_shift point]. *)
Variable pivot_shift : vertex -> vertex.

(** What [ThinSkirtPanel.__init__] leaves on the panel: [self.flare],
    [self.edges] and, for each entry [Interface(self, edge)] of
    [self.interfaces], the edge that is handed to [Interface]. *)
Record ThinSkirtPanel : Type := mkThinSkirtPanel {
  thin_name : string;
  thin_flare : R;
  thin_edges : EdgeSequence vertex;
  thin_right : Edge vertex;
  thin_top : Edge vertex;
  thin_left : Edge vertex
}.

(** [ThinSkirtPanel.__init__(name, top_width=10, bottom_width=20,
    length=70)]: the edge loop, the move of [set_pivot(self.edges[0].end)]
    and the edges of the interfaces, which are taken from the sequence
    after the move. *)
Definition ThinSkirtPanel_init (name : string) (top_width bottom_width length : R)
  : outcome ThinSkirtPanel :=
  let flare := (bottom_width - top_width) / 2 in
  obind (EdgeSeqFactory.from_verts same_vertex
           [ (0, 0); (flare, length); (flare + top_width, length);
             (flare * 2 + top_width, 0) ] true) (fun edges =>
  obind (index edges 0) (fun e0 =>
  let edges := move_by (pivot_shift (end_ e0)) edges in
  obind (index edges 0) (fun right =>
  obind (index edges 1) (fun top =>
  obind (index edges 2) (fun left =>
  Ok (mkThinSkirtPanel name flare edges right top left)))))).

(** What [SkirtPanel.__init__] leaves on the panel.  [self.edges =
    self.right] makes the two attributes one sequence object, to which the
    waist, the left side and the bottom are then appended: when [__init__]
    returns, [self.right] is the whole boundary.  The interfaces were built
    before that; each is kept as the edge that is handed to [Interface]
    (what [Interface] and its [reverse] make of it belongs to the interface
    module). *)
Record SkirtPanel : Type := mkSkirtPanel {
  right : EdgeSequence vertex;
  waist : Edge vertex;
  left : EdgeSequence vertex;
  bottom : Edge vertex;
  edges : EdgeSequence vertex;
  interface_right : Edge vertex;
  interface_top : Edge vertex;
  interface_left : Edge vertex;
  interface_bottom : Edge vertex
}.

(** [SkirtPanel.__init__(name, waist_length=70, length=70, ruffles=1,
    bottom_cut=0, flare=0)]: the edge loop and the edges of the
    interfaces.  [bottom_cut] is tested for truth (it is false when it is
    zero) and [bottom_cut / length] is a quotient of Python numbers.
    [EdgeSequence.append] takes an edge or a sequence and adds its edges at
    the end. *)
Definition SkirtPanel_init (waist_length length ruffles bottom_cut flare : R)
  : outcome SkirtPanel :=
  let base_width := waist_length / 2 in
  let top_width := base_width * ruffles in
  let low_width := top_width + 2 * flare in
  let x_shift_top := (low_width - top_width) / 2 in
  obind (if Req_dec_T bottom_cut 0
         then obind (Edge_init same_vertex (0, 0) (x_shift_top, length)) (fun e =>
              Ok [e])
         else obind (EdgeSeqFactory.py_div bottom_cut length) (fun start_cut =>
              EdgeSeqFactory.side_with_cut (0, 0) (x_shift_top, length) start_cut 0))
        (fun right =>
  obind (index_last right) (fun right_last =>
  obind (Edge_init same_vertex (end_ right_last) (x_shift_top + top_width, length))
        (fun waist =>
  obind (if Req_dec_T bottom_cut 0
         then obind (Edge_init same_vertex (end_ waist) (low_width, 0)) (fun e =>
              Ok [e])
         else obind (EdgeSeqFactory.py_div bottom_cut length) (fun end_cut =>
              EdgeSeqFactory.side_with_cut (end_ waist) (low_width, 0) 0 end_cut))
        (fun left =>
  obind (index_last left) (fun left_last =>
  obind (index right 0) (fun right_first =>
  obind (Edge_init same_vertex (end_ left_last) (start right_first)) (fun bottom =>
  obind (index_last right) (fun i_right =>
  obind (index left 0) (fun i_left =>
  let edges := right ++ [waist] ++ left ++ [bottom] in
  Ok (mkSkirtPanel edges waist left bottom edges i_right waist i_left bottom)))))))))).

End Panels.

End SkirtPaneled.

(** ** Dictionaries of measurements

    [body_params.py] and [base_classes.py] read body measurements from a
    dictionary keyed by strings and write derived values back.  Reading a
    key that is not there raises [KeyError]. *)

Module Dict.

Definition t : Type := list (string * R).

(** [d[k]], when [k] is a key of [d]. *)
Fixpoint get (d : t) (k : string) : option R :=
  match d with
  | [] => None
  | (k', v) :: d' => if String.eqb k' k then Some v else get d' k
  end.

(** [d[k] = v]: the entry of [k] is overwritten, a new key goes last. *)
Fixpoint set (d : t) (k : string) (v : R) : t :=
  match d with
  | [] => [(k, v)]
  | (k', v') :: d' =>
      if String.eqb k' k then (k', v) :: d' else (k', v') :: set d' k v
  end.

End Dict.

(** The exceptions of the dictionary code: a missing key, a missing
    attribute, or whatever the base class raises. *)
Inductive exc : Type :=
  | KeyError (key : string)
  | AttributeError (attr : string)
  | BaseError (e : error).

Inductive res (A : Type) : Type :=
  | Returns (a : A)
  | Throws (x : exc).
Arguments Returns {A} a.
Arguments Throws {A} x.

(** Computations on an object of state [S]; as for [ST], what was written
    before an exception stays written. *)
Definition DS (S A : Type) : Type := S -> res A * S.

Definition dret {S A} (a : A) : DS S A := fun s => (Returns a, s).

Definition dbind {S A B} (c : DS S A) (k : A -> DS S B) : DS S B :=
  fun s =>
    match c s with
    | (Returns a, s') => k a s'
    | (Throws x, s') => (Throws x, s')
    end.

Declare Scope dict_scope.
Delimit Scope dict_scope with dict.
Notation "x <- c ;; k" := (dbind c (fun x => k))
  (at level 61, c at next level, right associativity) : dict_scope.
Notation "c ;;; k" := (dbind c (fun _ => k))
  (at level 61, right associativity) : dict_scope.

(** Python's [max(a, b)]: the first argument unless the second is greater. *)
Definition py_max (a b : R) : R := if Rltb a b then b else a.

(** *** assets/body_measurments/body_params.py *)

Module BodyParameters.

Local Open Scope string_scope.

(** [self.params[k]] and [self.params[k] = v] *)
Definition getitem (k : string) : DS Dict.t R :=
  fun d =>
    match Dict.get d k with
    | Some v => (Returns v, d)
    | None => (Throws (KeyError k), d)
    end.

Definition setitem (k : string) (v : R) : DS Dict.t unit :=
  fun d => (Returns tt, Dict.set d k v).

(** [key in [...]] for a [key] that is a string or [None]. *)
Definition key_in (key : option string) (keys : list (option string)) : bool :=
  existsb (fun k =>
             match key, k with
             | Some a, Some b => String.eqb a b
             | None, None => true
             | _, _ => false
             end) keys.

Section Eval.

(** [super().eval_dependencies(key)]: the method of the base class
    [BodyParametrizationBase], about which nothing is assumed. *)
Variable super_eval_dependencies : option string -> DS Dict.t unit.

(** [BodyParameters.eval_dependencies(key=None)] *)
Definition eval_dependencies (key : option string) : DS Dict.t unit :=
  (super_eval_dependencies key ;;;
   (if key_in key [Some "height"; Some "head_l"; Some "waist_line";
                     Some "hips_line"; None]
    then
      height <- getitem "height" ;;
      head_l <- getitem "head_l" ;;
      waist_line <- getitem "waist_line" ;;
      setitem "_waist_level" (height - head_l - waist_line) ;;;
      waist_level <- getitem "_waist_level" ;;
      hips_line <- getitem "hips_line" ;;
      setitem "_leg_length" (waist_level - hips_line)
    else dret tt) ;;;
   (if key_in key [Some "sholder_w"; None]
    then
      sholder_w <- getitem "sholder_w" ;;
      setitem "_base_sleeve_balance" (sholder_w - 4) ;;;
      back_width <- getitem "back_width" ;;
      base_sleeve_balance <- getitem "_base_sleeve_balance" ;;
      setitem "_base_armhole_incline"
        (py_max 1 ((back_width - base_sleeve_balance) / 2))
    else dret tt))%dict.

End Eval.

End BodyParameters.

(** *** assets/garment_programs/base_classes.py *)

Module BaseBottoms.

(** The attributes of a [BaseBottoms] object that [eval_rise] reads and
    writes: the body measurements and the two adjusted values, which do
    not exist before the first call. *)
Record t : Type := mk {
  body : Dict.t;
  adj_hips_depth : option R;
  adj_waist : option R
}.

(** [self.body[k]] *)
Definition body_item (k : string) : DS t R :=
  fun self =>
    match Dict.get (body self) k with
    | Some v => (Returns v, self)
    | None => (Throws (KeyError k), self)
    end.

(** Reading an attribute that may not have been set. *)
Definition getattr (name : string) (field : t -> option R) : DS t R :=
  fun self =>
    match field self with
    | Some v => (Returns v, self)
    | None => (Throws (AttributeError name), self)
    end.

(** [get_rise()] *)
Definition get_rise : R := 1.

Section Rise.

(** [pyp.utils.lin_interpolation(val1, val2, factor)] of the library: a
    function that returns a number or raises (as it does for a factor
    outside [0, 1]). *)
Variable lin_interpolation : R -> R -> R -> res R.

(** The result of a call that touches no attribute. *)
Definition call {A} (r : res A) : DS t A := fun self => (r, self).

(** [eval_rise(rise)].  The third value is held in the local variable
    [self_adj_back_waist]; it is returned and not stored. *)
Definition eval_rise (rise : R) : DS t (R * R * R) :=
  (waist <- body_item "waist" ;;
   hips <- body_item "hips" ;;
   hips_level <- body_item "hips_line" ;;
   (fun self => (Returns tt, mk (body self) (Some (rise * hips_level)) (adj_waist self))) ;;;
   new_waist <- call (lin_interpolation hips waist rise) ;;
   (fun self => (Returns tt, mk (body self) (adj_hips_depth self) (Some new_waist))) ;;;
   hip_back_width <- body_item "hip_back_width" ;;
   waist_back_width <- body_item "waist_back_width" ;;
   self_adj_back_waist <- call (lin_interpolation hip_back_width waist_back_width rise) ;;
   a <- getattr "adj_waist" adj_waist ;;
   b <- getattr "adj_hips_depth" adj_hips_depth ;;
   dret (a, b, self_adj_back_waist))%dict.

End Rise.

End BaseBottoms.

(** A vertex of numpy floats, as a vertex of reals when both are finite. *)
Definition finite_vertex (v : npfloat * npfloat) : option vertex :=
  match v with
  | (Fin x, Fin y) => Some (x, y)
  | _ => None
  end.

(** The heap [w'] differs from the heap [w] at most in the interfaces
    selected by [touched] and in the boundaries of the panels: it has the
    same number of interfaces and panels, every other interface is as it
    was, and every panel has kept its name and its placement and has lost
    no edge. *)
Definition framed (touched : nat -> Prop) (w w' : World) : Prop :=
  List.length (interfaces w') = List.length (interfaces w)
  /\ List.length (panels w') = List.length (panels w)
  /\ (forall k, ~ touched k -> nth_error (interfaces w') k = nth_error (interfaces w) k)
  /\ (forall p pan,
        nth_error (panels w) p = Some pan ->
        exists pan',
          nth_error (panels w') p = Some pan'
          /\ Panel.name pan' = Panel.name pan
          /\ Panel.point_to_3D pan' = Panel.point_to_3D pan
          /\ (List.length (Panel.edges pan) <= List.length (Panel.edges pan'))%nat).

(** Every panel of [w] whose boundary is a closed loop has a closed loop
    as its boundary in [w'], and every interface of [w] whose edges are
    chained has chained edges in [w']. *)
Definition loops_kept (w w' : World) : Prop :=
  (forall p pan,
      nth_error (panels w) p = Some pan ->
      closed_loop (Panel.edges pan) ->
      exists pan',
        nth_error (panels w') p = Some pan' /\ closed_loop (Panel.edges pan'))
  /\ (forall k i,
         nth_error (interfaces w) k = Some i ->
         chained (Interface.edges i) ->
         exists i',
           nth_error (interfaces w') k = Some i' /\ chained (Interface.edges i')).

(** A computation whose result is never the exhaustion of the budget of
    turns that the model gives to the [while] loop: the loop has ended by
    itself. *)
Definition within_budget {S A} (c : ST S A) : Prop :=
  forall w, fst (c w) <> Raise LoopBudget.

(** * Properties *)

(** ** Reals and lists *)

Lemma Rltb_true (x y : R) : x < y -> Rltb x y = true.
Proof. intro H. unfold Rltb. destruct (Rlt_dec x y); [reflexivity | contradiction]. Qed.

Lemma Rltb_false (x y : R) : ~ x < y -> Rltb x y = false.
Proof. intro H. unfold Rltb. destruct (Rlt_dec x y); [contradiction | reflexivity]. Qed.

Lemma Rltb_spec (x y : R) : Rltb x y = true <-> x < y.
Proof.
  unfold Rltb. destruct (Rlt_dec x y); split; intro H; auto; discriminate.
Qed.

Lemma Rltb_spec_false (x y : R) : Rltb x y = false <-> y <= x.
Proof.
  unfold Rltb. destruct (Rlt_dec x y); split; intro H; auto; try discriminate; lra.
Qed.

Lemma norm_nonneg (v : vertex) : 0 <= norm v.
Proof. apply sqrt_pos. Qed.

Lemma norm_scale (k : R) (v : vertex) : norm (vscale k v) = Rabs k * norm v.
Proof.
  unfold norm, vscale; simpl.
  replace (k * fst v * (k * fst v) + k * snd v * (k * snd v))
    with (Rsqr k * (fst v * fst v + snd v * snd v)) by (unfold Rsqr; ring).
  rewrite sqrt_mult.
  - now rewrite sqrt_Rsqr_abs.
  - apply Rle_0_sqr.
  - nra.
Qed.

Lemma sqrt_eq (x a : R) : 0 <= a -> x = a * a -> sqrt x = a.
Proof. intros Ha ->. now apply sqrt_square. Qed.

Lemma Rsum_app (l1 l2 : list R) : Rsum (l1 ++ l2) = Rsum l1 + Rsum l2.
Proof. induction l1 as [|x l1 IH]; simpl; [ring | rewrite IH; ring]. Qed.

Lemma Rsum_rev (l : list R) : Rsum (rev l) = Rsum l.
Proof.
  induction l as [|x l IH]; simpl; [reflexivity|].
  rewrite Rsum_app, IH. simpl. ring.
Qed.

Lemma Rsum_map_scale (k : R) (l : list R) :
  Rsum (map (fun f => f * k) l) = Rsum l * k.
Proof. induction l as [|x l IH]; simpl; [ring | rewrite IH; ring]. Qed.

Lemma Rsum_abs_nonneg (l : list R) : 0 <= Rsum (map Rabs l).
Proof.
  induction l as [|x l IH]; simpl; [lra|].
  pose proof (Rabs_pos x). lra.
Qed.

Lemma removelast_map {A B} (f : A -> B) (l : list A) :
  removelast (map f l) = map f (removelast l).
Proof.
  induction l as [|x l IH]; [reflexivity|].
  destruct l as [|y l]; [reflexivity|].
  change (f x :: removelast (map f (y :: l)) = f x :: map f (removelast (y :: l))).
  now rewrite IH.
Qed.

Lemma removelast_length {A} (l : list A) :
  l <> [] -> S (List.length (removelast l)) = List.length l.
Proof.
  intro H. destruct (exists_last H) as (l' & a & ->).
  rewrite removelast_last, length_app. simpl. lia.
Qed.

Lemma Rsum_removelast_le (l : list R) :
  Rsum (map Rabs (removelast l)) <= Rsum (map Rabs l).
Proof.
  destruct l as [|x l]; [simpl; lra|].
  destruct (@exists_last _ (x :: l)) as (l' & a & E); [discriminate|].
  rewrite E, removelast_last, map_app, Rsum_app. simpl.
  pose proof (Rabs_pos a). lra.
Qed.

(** ** The factory: [from_verts], [from_fractions], [dart_shape] *)

Section FactoryFacts.
Context `{GU : generic_utils} `{EM : edge_module}.

Lemma Edge_length_new (a b : vertex) : Edge_length (Edge_new a b) = norm (vsub b a).
Proof. reflexivity. Qed.

Lemma Edge_length_nonneg (e : Edge vertex) : 0 <= Edge_length e.
Proof.
  unfold Edge_length. destruct (control_points e).
  - apply norm_nonneg.
  - apply curve_length_nonneg.
Qed.

Lemma chain_length {V} (prev : V) (verts : list V) :
  List.length (chain prev verts) = List.length verts.
Proof.
  revert prev. induction verts as [|v verts IH]; intro prev; simpl; [reflexivity|].
  now rewrite IH.
Qed.

Lemma chain_chained {V} (prev : V) (verts : list V) : chained (chain prev verts).
Proof.
  revert prev. induction verts as [|v verts IH]; intro prev; simpl; [exact I|].
  specialize (IH v). destruct verts as [|v' verts]; simpl in *; [exact I|].
  split; [reflexivity | exact IH].
Qed.

Lemma chain_straight {V} (prev : V) (verts : list V) :
  Forall (fun e => control_points e = []) (chain prev verts).
Proof.
  revert prev. induction verts as [|v verts IH]; intro prev; simpl; constructor.
  - reflexivity.
  - apply IH.
Qed.

Lemma chain_last {V} (prev : V) (verts : list V) (v : V) (d : Edge V) :
  end_ (List.last (chain prev (verts ++ [v])) d) = v.
Proof.
  revert prev. induction verts as [|x verts IH]; intro prev; [reflexivity|].
  specialize (IH x). simpl app. simpl chain.
  destruct (chain x (verts ++ [v])) eqn:E.
  - destruct verts; discriminate.
  - exact IH.
Qed.

(** What the loop of [from_verts] comes to: the chain through the
    vertices when each of them differs from the next, and the
    [AssertionError] of the edge constructor when one does not. *)
Lemma chain_from_eq {V} (same : V -> V -> bool) (prev : V) (verts : list V) :
  EdgeSeqFactory.chain_from same prev verts
  = if steps_differ same (prev :: verts) then Ok (chain prev verts)
    else Raise AssertionError.
Proof.
  revert prev. induction verts as [|v verts IH]; intro prev; [reflexivity|].
  change (steps_differ same (prev :: v :: verts))
    with (negb (same prev v) && steps_differ same (v :: verts)).
  cbn [EdgeSeqFactory.chain_from chain]. unfold Edge_init.
  destruct (same prev v); [reflexivity|]. cbn [obind negb andb].
  rewrite IH. destruct (steps_differ same (v :: verts)); reflexivity.
Qed.

Lemma from_verts_cons {V} (same : V -> V -> bool) (v0 : V) (verts : list V) :
  verts <> [] ->
  EdgeSeqFactory.from_verts same (v0 :: verts) false
  = if steps_differ same (v0 :: verts) then Ok (chain v0 verts)
    else Raise AssertionError.
Proof.
  destruct verts as [|v1 rest]; [congruence|]. intros _.
  unfold EdgeSeqFactory.from_verts. rewrite chain_from_eq.
  destruct (steps_differ same (v0 :: v1 :: rest)); reflexivity.
Qed.

(** The sequence that [from_verts] builds is chained, whatever the
    vertices: what the discarded call of [isChained] would look at. *)
Lemma from_verts_chained {V} (same : V -> V -> bool) (verts : list V)
    (seq : EdgeSequence V) :
  EdgeSeqFactory.from_verts same verts false = Ok seq -> chained seq.
Proof.
  destruct verts as [|v0 [|v1 rest]]; try discriminate.
  rewrite from_verts_cons by discriminate.
  destruct (steps_differ same (v0 :: v1 :: rest)); [|discriminate].
  intro H. injection H as <-. apply (chain_chained v0 (v1 :: rest)).
Qed.

(** A vertex that is followed by itself is refused. *)
Lemma steps_differ_stay (v : vertex) (verts : list vertex) :
  steps_differ same_vertex (v :: v :: verts) = false.
Proof. cbn [steps_differ]. now rewrite same_vertex_refl. Qed.

Lemma steps_differ_tail {V} (same : V -> V -> bool) (v : V) (verts : list V) :
  steps_differ same verts = false -> steps_differ same (v :: verts) = false.
Proof.
  intro H. destruct verts as [|v' verts]; [discriminate|].
  cbn [steps_differ] in *. rewrite H. apply andb_false_r.
Qed.

Lemma inner_verts_length (prev vec : vertex) (frac : list R) :
  List.length (EdgeSeqFactory.inner_verts prev vec frac) = List.length frac.
Proof.
  revert prev. induction frac as [|f frac IH]; intro prev; simpl; [reflexivity|].
  now rewrite IH.
Qed.

(** A fraction of zero puts an inner vertex on the one before it. *)
Lemma inner_verts_zero (prev vec : vertex) (frac : list R) (tail : list vertex) :
  In 0 frac ->
  steps_differ same_vertex (prev :: EdgeSeqFactory.inner_verts prev vec frac ++ tail)
  = false.
Proof.
  revert prev. induction frac as [|f frac IH]; intros prev Hin; [contradiction|].
  cbn [EdgeSeqFactory.inner_verts app]. destruct Hin as [->|Hin].
  - replace (fst prev + 0 * fst vec, snd prev + 0 * snd vec) with prev.
    + apply steps_differ_stay.
    + destruct prev as (x, y). cbn [fst snd]. f_equal; ring.
  - apply steps_differ_tail. now apply IH.
Qed.

(** The lengths of the chain through the inner vertices: one edge per
    fraction, then the edge that closes the chain at [e]. *)
Lemma lengths_inner_chain (vec e : vertex) (frac : list R) (prev : vertex) :
  Forall (fun f => 0 <= f) frac ->
  lengths (chain prev (EdgeSeqFactory.inner_verts prev vec frac ++ [e]))
  = map (fun f => f * norm vec) frac
    ++ [norm (vsub e (vadd prev (vscale (Rsum frac) vec)))].
Proof.
  intro Hpos. revert prev.
  induction Hpos as [|f frac Hf Hpos IH]; intro prev.
  - simpl. rewrite Edge_length_new.
    replace (vadd prev (vscale 0 vec)) with prev; [reflexivity|].
    unfold vadd, vscale; destruct prev; simpl; f_equal; ring.
  - simpl. rewrite Edge_length_new. f_equal.
    + replace (vsub (fst prev + f * fst vec, snd prev + f * snd vec) prev)
        with (vscale f vec)
        by (unfold vsub, vscale; simpl; f_equal; ring).
      rewrite norm_scale, Rabs_pos_eq by exact Hf. reflexivity.
    + fold (lengths (chain
                (fst prev + f * fst vec, snd prev + f * snd vec)
                (EdgeSeqFactory.inner_verts
                   (fst prev + f * fst vec, snd prev + f * snd vec) vec frac ++ [e]))).
      rewrite IH.
      replace (vadd (fst prev + f * fst vec, snd prev + f * snd vec)
                 (vscale (Rsum frac) vec))
        with (vadd prev (vscale (f + Rsum frac) vec)); [reflexivity|].
      unfold vadd, vscale; simpl; f_equal; ring.
Qed.

End FactoryFacts.

(** Two vertices that are at least 1e-4 apart in one coordinate do not
    coincide. *)
Lemma coincide_apart (a b : vertex) :
  1 / 10000 <= Rabs (fst a - fst b) \/ 1 / 10000 <= Rabs (snd a - snd b) ->
  coincide a b = false.
Proof.
  intros [H|H]; unfold coincide.
  - rewrite (Rltb_false (Rabs (fst a - fst b))) by lra. reflexivity.
  - rewrite (Rltb_false (Rabs (snd a - snd b))) by lra. apply andb_false_r.
Qed.

(** Closes a goal [same_vertex a b = false] on concrete vertices. *)
Ltac apart :=
  change (@same_vertex sampled_edges) with coincide;
  apply coincide_apart; unfold vadd, vsub, vscale; cbn [fst snd]; unfold Rabs;
  (left; destruct Rcase_abs; lra) || (right; destruct Rcase_abs; lra).

Section FactoryClaims.
Context `{GU : generic_utils} `{EM : edge_module}.

(** When the sum check passes, the result is the chain through the inner
    vertices, or the [AssertionError] of an edge that would end where it
    starts. *)
Lemma from_fractions_ok (start_ end' : vertex) (frac : list R) :
  close_enough (Rsum (map Rabs frac)) 1 (1 / 10000) = true ->
  EdgeSeqFactory.from_fractions start_ end' frac
  = if steps_differ same_vertex
         (start_ :: EdgeSeqFactory.inner_verts start_ (vsub end' start_)
                      (removelast (map Rabs frac)) ++ [end'])
    then Ok (chain start_
               (EdgeSeqFactory.inner_verts start_ (vsub end' start_)
                  (removelast (map Rabs frac)) ++ [end']))
    else Raise AssertionError.
Proof.
  intro H. unfold EdgeSeqFactory.from_fractions. rewrite H. simpl negb. cbv iota.
  rewrite <- app_comm_cons. apply from_verts_cons.
  intro E. apply app_eq_nil in E. destruct E; discriminate.
Qed.

Lemma from_fractions_raise (start_ end' : vertex) (frac : list R) :
  close_enough (Rsum (map Rabs frac)) 1 (1 / 10000) = false ->
  EdgeSeqFactory.from_fractions start_ end' frac
  = Raise (RuntimeError fraction_is_incorrect).
Proof. intro H. unfold EdgeSeqFactory.from_fractions. now rewrite H. Qed.

Lemma removelast_abs_nonneg (frac : list R) :
  Forall (fun f => 0 <= f) (removelast (map Rabs frac)).
Proof.
  rewrite removelast_map. apply Forall_forall. intros f Hf.
  apply in_map_iff in Hf. destruct Hf as (x & <- & _). apply Rabs_pos.
Qed.

(** The lengths of the edges that [from_fractions] returns. *)
Lemma from_fractions_lengths (start_ end' : vertex) (frac : list R) :
  lengths (chain start_
             (EdgeSeqFactory.inner_verts start_ (vsub end' start_)
                (removelast (map Rabs frac)) ++ [end']))
  = map (fun f => f * norm (vsub end' start_)) (removelast (map Rabs frac))
    ++ [Rabs (1 - Rsum (removelast (map Rabs frac))) * norm (vsub end' start_)].
Proof.
  rewrite lengths_inner_chain by apply removelast_abs_nonneg.
  do 2 f_equal. rewrite <- norm_scale. f_equal.
  unfold vsub, vadd, vscale; simpl; f_equal; ring.
Qed.

(** C4, as the code has it: [from_fractions] raises its fraction error
    exactly when the sum of the absolute values of the fractions is not
    close enough to 1 (tolerance 1e-4) -- in particular whenever that sum is
    farther than 1e-4 from 1 -- and no fraction is tested for lying in
    (0, 1].  When the sum is within 1e-4 of 1, the vertices of the chain
    are computed, and the edge constructor raises [AssertionError] if one
    of them does not differ from the next: this is so when [start] is
    [end], and when a fraction other than the last is zero.  When every
    vertex differs from the next, the result is a chain of [len(frac)]
    straight edges from [start] to [end]; every edge but the last has
    length [abs(frac[i]) * |end - start|], the last one closes the chain at
    [end]; the lengths add up to [|end - start|] exactly when the fractions
    before the last sum to at most 1, and always to within twice the error
    of the sum, relative to [|end - start|]. *)
Theorem from_fractions_spec (start_ end' : vertex) (frac : list R) :
  let fsum := Rsum (map Rabs frac) in
  let L := norm (vsub end' start_) in
  let heads := removelast (map Rabs frac) in
  let verts :=
    start_ :: EdgeSeqFactory.inner_verts start_ (vsub end' start_) heads ++ [end'] in
  (EdgeSeqFactory.from_fractions start_ end' frac
   = Raise (RuntimeError fraction_is_incorrect)
   <-> close_enough fsum 1 (1 / 10000) = false)
  /\ (1 / 10000 < Rabs (fsum - 1) ->
      EdgeSeqFactory.from_fractions start_ end' frac
      = Raise (RuntimeError fraction_is_incorrect))
  /\ (Rabs (fsum - 1) < 1 / 10000 ->
      (steps_differ same_vertex verts = false ->
       EdgeSeqFactory.from_fractions start_ end' frac = Raise AssertionError)
      /\ (start_ = end' -> steps_differ same_vertex verts = false)
      /\ (In 0 (removelast frac) -> steps_differ same_vertex verts = false)
      /\ (steps_differ same_vertex verts = true ->
          exists e0 rest,
            EdgeSeqFactory.from_fractions start_ end' frac = Ok (e0 :: rest)
            /\ List.length (e0 :: rest) = List.length frac
            /\ chained (e0 :: rest)
            /\ Forall (fun e => control_points e = []) (e0 :: rest)
            /\ start e0 = start_
            /\ end_ (List.last (e0 :: rest) e0) = end'
            /\ lengths (e0 :: rest)
               = map (fun f => f * L) heads ++ [Rabs (1 - Rsum heads) * L]
            /\ (Rsum heads <= 1 -> Rsum (lengths (e0 :: rest)) = L)
            /\ Rabs (Rsum (lengths (e0 :: rest)) - L) <= 2 * Rabs (fsum - 1) * L)).
Proof.
  intros fsum L heads verts. split; [|split].
  - destruct (close_enough fsum 1 (1 / 10000)) eqn:E.
    + unfold fsum in E. rewrite (from_fractions_ok _ _ _ E).
      split; [|discriminate].
      destruct (steps_differ same_vertex _); discriminate.
    + unfold fsum in E. rewrite (from_fractions_raise _ _ _ E). now split.
  - intro H. apply from_fractions_raise. now apply close_enough_far.
  - intro H.
    assert (Hne : frac <> []).
    { intros ->. unfold fsum in H. simpl in H.
      replace (0 - 1) with (- (1)) in H by ring.
      rewrite Rabs_Ropp, Rabs_R1 in H. lra. }
    pose proof (close_enough_near _ _ _ H) as Hc. unfold fsum in Hc.
    pose proof (from_fractions_ok start_ end' frac Hc) as Hok.
    fold heads in Hok. fold verts in Hok.
    split; [|split; [|split]].
    + intro Hd. now rewrite Hd in Hok.
    + intros <-. unfold verts.
      destruct heads as [|f heads']; cbn [EdgeSeqFactory.inner_verts app].
      * apply steps_differ_stay.
      * replace (fst start_ + f * fst (vsub start_ start_),
                 snd start_ + f * snd (vsub start_ start_)) with start_.
        -- apply steps_differ_stay.
        -- destruct start_ as (x, y). unfold vsub. cbn [fst snd]. f_equal; ring.
    + intro Hin. unfold verts. apply inner_verts_zero.
      unfold heads. rewrite removelast_map. apply in_map_iff.
      exists 0. split; [apply Rabs_R0 | exact Hin].
    + intro Hd. rewrite Hd in Hok.
      pose proof (from_fractions_lengths start_ end' frac) as Hlen.
      fold heads in Hlen.
      set (tail := EdgeSeqFactory.inner_verts start_ (vsub end' start_) heads
                   ++ [end']) in *.
      assert (Hchain : chained (chain start_ tail)) by apply chain_chained.
      assert (Hstr : Forall (fun e => control_points e = []) (chain start_ tail))
        by apply chain_straight.
      assert (Hn : List.length (chain start_ tail) = List.length frac).
      { rewrite chain_length. unfold tail, heads.
        rewrite length_app, inner_verts_length, removelast_map, length_map. simpl.
        rewrite Nat.add_1_r. now apply removelast_length. }
      assert (Hlast : forall d, end_ (List.last (chain start_ tail) d) = end')
        by (intro d; apply chain_last).
      assert (Hstart : exists e0 rest,
                 chain start_ tail = e0 :: rest /\ start e0 = start_).
      { unfold tail.
        destruct (EdgeSeqFactory.inner_verts start_ (vsub end' start_) heads);
          simpl; eauto. }
      destruct Hstart as (e0 & rest & Eseq & Hs).
      rewrite Eseq in *.
      fold L in Hlen.
      assert (Htot : Rsum (lengths (e0 :: rest))
                     = (Rsum heads + Rabs (1 - Rsum heads)) * L).
      { rewrite Hlen, Rsum_app, Rsum_map_scale. simpl. ring. }
      assert (HL : 0 <= L) by apply norm_nonneg.
      assert (Hh0 : 0 <= Rsum heads).
      { unfold heads. rewrite removelast_map. apply Rsum_abs_nonneg. }
      assert (Hh1 : Rsum heads <= fsum).
      { unfold heads, fsum. rewrite removelast_map. apply Rsum_removelast_le. }
      exists e0, rest. repeat split; auto.
      * intro Hle. rewrite Htot, Rabs_pos_eq by lra. ring.
      * rewrite Htot.
        replace ((Rsum heads + Rabs (1 - Rsum heads)) * L - L)
          with ((Rsum heads + Rabs (1 - Rsum heads) - 1) * L) by ring.
        rewrite Rabs_mult, (Rabs_pos_eq L) by exact HL.
        apply Rmult_le_compat_r; [exact HL|].
        revert H. unfold Rabs.
        repeat destruct Rcase_abs; intros; lra.
Qed.

(** C3, as the code has it: [dart_shape] has no check of its own.  Its
    vertices are (0,0), the apex and (width,0); the apex lies at abscissa
    [width/2], at ordinate [-sqrt(depth^2 - (width/2)^2)] when
    [0 <= width/2 <= depth], and at ordinate [nan] when
    [0 <= depth < width/2].  It returns the two edges through these
    vertices unless the edge constructor finds that the apex does not
    differ from one of the other two, in which case [AssertionError] is
    raised, as for [dart_shape(0, 0)]; no other error is raised.  With a
    [nan] apex the shape is returned. *)
Theorem dart_shape_apex (width depth : R) :
  exists apex_y : npfloat,
    let apex := (Fin (width / 2), apex_y) in
    (0 <= width / 2 <= depth ->
     apex_y = Fin (- sqrt (depth ^ 2 - (width / 2) ^ 2)))
    /\ (0 <= depth < width / 2 -> apex_y = NaN)
    /\ EdgeSeqFactory.dart_shape width depth
       = (if np_same_vertex (Fin 0, Fin 0) apex || np_same_vertex apex (Fin width, Fin 0)
          then Raise AssertionError
          else Ok [ Edge_new (Fin 0, Fin 0) apex; Edge_new apex (Fin width, Fin 0) ])
    /\ (0 <= depth < width / 2 ->
        EdgeSeqFactory.dart_shape width depth
        = Ok [ Edge_new (Fin 0, Fin 0) apex; Edge_new apex (Fin width, Fin 0) ])
    /\ (width = 0 -> depth = 0 ->
        EdgeSeqFactory.dart_shape width depth = Raise AssertionError).
Proof.
  exists (np_neg (np_sqrt (depth ^ 2 - (width / 2) ^ 2))). cbv zeta.
  assert (Hrun : EdgeSeqFactory.dart_shape width depth
                 = (if np_same_vertex (Fin 0, Fin 0)
                         (Fin (width / 2), np_neg (np_sqrt (depth ^ 2 - (width / 2) ^ 2)))
                       || np_same_vertex
                            (Fin (width / 2), np_neg (np_sqrt (depth ^ 2 - (width / 2) ^ 2)))
                            (Fin width, Fin 0)
                    then Raise AssertionError
                    else Ok [ Edge_new (Fin 0, Fin 0)
                                (Fin (width / 2),
                                 np_neg (np_sqrt (depth ^ 2 - (width / 2) ^ 2)));
                              Edge_new
                                (Fin (width / 2),
                                 np_neg (np_sqrt (depth ^ 2 - (width / 2) ^ 2)))
                                (Fin width, Fin 0) ])).
  { unfold EdgeSeqFactory.dart_shape. cbv zeta.
    rewrite from_verts_cons by discriminate. cbn [steps_differ chain].
    destruct (np_same_vertex (Fin 0, Fin 0) _); [reflexivity|].
    destruct (np_same_vertex _ (Fin width, Fin 0)); reflexivity. }
  split; [|split; [|split; [|split]]].
  - intro H. unfold np_sqrt. rewrite Rltb_false by nra. reflexivity.
  - intro H. unfold np_sqrt. rewrite Rltb_true by nra. reflexivity.
  - exact Hrun.
  - intro H. rewrite Hrun. unfold np_sqrt. rewrite Rltb_true by nra. reflexivity.
  - intros -> ->. rewrite Hrun. unfold np_sqrt.
    rewrite Rltb_false by lra.
    replace (0 ^ 2 - (0 / 2) ^ 2) with 0 by lra. rewrite sqrt_0.
    replace (0 / 2) with 0 by lra. cbn [np_neg].
    replace (- 0) with 0 by ring.
    cbn [np_same_vertex]. now rewrite same_vertex_refl.
Qed.

End FactoryClaims.

(** C3 at [width = 6], [depth = 5]: the apex is (3, -4) and the shape is
    returned. *)
Lemma dart_shape_apex_6_5 :
  exists apex_y : npfloat,
    6 / 2 = 3 /\ apex_y = Fin (- 4)
    /\ EdgeSeqFactory.dart_shape 6 5
       = Ok [ Edge_new (Fin 0, Fin 0) (Fin (6 / 2), apex_y);
              Edge_new (Fin (6 / 2), apex_y) (Fin 6, Fin 0) ].
Proof.
  destruct (dart_shape_apex 6 5) as (y & Hy & _ & Hshape & _).
  cbv zeta in Hshape.
  exists y. split; [lra|].
  assert (E : y = Fin (- 4)).
  { rewrite Hy by lra.
    replace (sqrt (5 ^ 2 - (6 / 2) ^ 2)) with 4 by (symmetry; apply sqrt_eq; lra).
    reflexivity. }
  split; [exact E|]. rewrite Hshape. rewrite E. cbn [np_same_vertex].
  replace (same_vertex (0, 0) (6 / 2, - 4)) with false by (symmetry; apart).
  replace (same_vertex (6 / 2, - 4) (6, 0)) with false by (symmetry; apart).
  reflexivity.
Defined.

(** C3 fails as stated: [dart_shape(10, 3)] has [depth < width/2] and
    returns a shape (with a [nan] apex) instead of raising. *)
Lemma dart_shape_10_3_returns :
  3 < 10 / 2
  /\ EdgeSeqFactory.dart_shape 10 3
     = Ok [ Edge_new (Fin 0, Fin 0) (Fin (10 / 2), NaN);
            Edge_new (Fin (10 / 2), NaN) (Fin 10, Fin 0) ]
  /\ is_raise (EdgeSeqFactory.dart_shape 10 3) = false.
Proof.
  split; [lra|].
  assert (E : np_sqrt (3 ^ 2 - (10 / 2) ^ 2) = NaN)
    by (unfold np_sqrt; rewrite Rltb_true by lra; reflexivity).
  unfold EdgeSeqFactory.dart_shape. rewrite E. split; reflexivity.
Qed.

(** C4 fails as stated: the fraction -2/5 lies outside (0, 1] (and the
    fractions sum to 1/5), yet [from_fractions] returns the chain with
    sub-edges of lengths 4 and 6. *)
Lemma from_fractions_negative_fraction :
  let frac := [- (2 / 5); 3 / 5] in
  (exists f, In f frac /\ ~ (0 < f <= 1))
  /\ 1 / 10000 < Rabs (Rsum frac - 1)
  /\ EdgeSeqFactory.from_fractions (0, 0) (10, 0) frac
     = Ok [ Edge_new (0, 0) (4, 0); Edge_new (4, 0) (10, 0) ]
  /\ is_raise (EdgeSeqFactory.from_fractions (0, 0) (10, 0) frac) = false.
Proof.
  assert (Hc : close_enough (Rsum (map Rabs [- (2 / 5); 3 / 5])) 1 (1 / 10000) = true).
  { apply close_enough_near. unfold map, Rsum.
    rewrite Rabs_Ropp, (Rabs_pos_eq (2 / 5)), (Rabs_pos_eq (3 / 5)) by lra.
    replace (2 / 5 + (3 / 5 + 0) - 1) with 0 by lra. rewrite Rabs_R0. lra. }
  assert (Hrun : EdgeSeqFactory.from_fractions (0, 0) (10, 0) [- (2 / 5); 3 / 5]
                 = Ok [ Edge_new (0, 0) (4, 0); Edge_new (4, 0) (10, 0) ]).
  { rewrite (from_fractions_ok _ _ _ Hc).
    cbn [map removelast EdgeSeqFactory.inner_verts chain steps_differ
         app vsub fst snd].
    rewrite Rabs_Ropp, (Rabs_pos_eq (2 / 5)) by lra.
    replace (0 + 2 / 5 * (10 - 0)) with 4 by lra.
    replace (0 + 2 / 5 * (0 - 0)) with 0 by lra.
    replace (same_vertex (0, 0) (4, 0)) with false by (symmetry; apart).
    replace (same_vertex (4, 0) (10, 0)) with false by (symmetry; apart).
    reflexivity. }
  cbv zeta. split; [|split; [|split]].
  - exists (- (2 / 5)). split; [now left | lra].
  - unfold Rsum. replace (- (2 / 5) + (3 / 5 + 0) - 1) with (- (4 / 5)) by lra.
    rewrite Rabs_Ropp, Rabs_pos_eq; lra.
  - exact Hrun.
  - rewrite Hrun. reflexivity.
Qed.

(** ** The monad *)

Lemma bind_ok {S A B} (c : ST S A) (k : A -> ST S B) (w w' : S) (a : A) :
  c w = (Ok a, w') -> bind c k w = k a w'.
Proof. intro H. unfold bind. now rewrite H. Qed.

Lemma bind_raise {S A B} (c : ST S A) (k : A -> ST S B) (w w' : S) (e : error) :
  c w = (Raise e, w') -> bind c k w = (Raise e, w').
Proof. intro H. unfold bind. now rewrite H. Qed.

Lemma bind_lift_ok {S A B} (a : A) (k : A -> ST S B) (w : S) :
  bind (lift (Ok a)) k w = k a w.
Proof. reflexivity. Qed.

Lemma bind_ret {S A B} (a : A) (k : A -> ST S B) (w : S) :
  bind (ret a) k w = k a w.
Proof. reflexivity. Qed.

Lemma readonly_ret {S A} (a : A) : readonly (@ret S A a).
Proof. intros w o w' H. now injection H as <- <-. Qed.

Lemma readonly_raise {S A} (e : error) : readonly (@raise S A e).
Proof. intros w o w' H. now injection H as <- <-. Qed.

Lemma readonly_lift {S A} (x : outcome A) : readonly (@lift S A x).
Proof. intros w o w' H. now injection H as <- <-. Qed.

Lemma readonly_bind {S A B} (c : ST S A) (k : A -> ST S B) :
  readonly c -> (forall a, readonly (k a)) -> readonly (bind c k).
Proof.
  intros Hc Hk w o w' H. unfold bind in H.
  destruct (c w) as [[a|e] w1] eqn:E; apply Hc in E; subst w1.
  - eapply Hk; eauto.
  - now injection H as <- <-.
Qed.

Lemma readonly_get_interface (i : nat) : readonly (get_interface i).
Proof.
  intros w o w' H. unfold get_interface in H.
  destruct (nth_error (interfaces w) i); now injection H as <- <-.
Qed.

Lemma readonly_get_panel (p : nat) : readonly (get_panel p).
Proof.
  intros w o w' H. unfold get_panel in H.
  destruct (nth_error (panels w) p); now injection H as <- <-.
Qed.

Lemma get_interface_ok (w : World) (i : nat) (x : Interface.t) :
  nth_error (interfaces w) i = Some x -> get_interface i w = (Ok x, w).
Proof. intro H. unfold get_interface. now rewrite H. Qed.

Lemma get_panel_ok (w : World) (p : nat) (x : Panel.t) :
  nth_error (panels w) p = Some x -> get_panel p w = (Ok x, w).
Proof. intro H. unfold get_panel. now rewrite H. Qed.

Lemma index_last_last {A} (l : list A) (d : A) :
  l <> [] -> index_last l = Ok (List.last l d).
Proof.
  intro H. destruct (exists_last H) as (l' & a & ->).
  unfold index_last, index. rewrite length_app, last_last. simpl.
  replace (List.length l' + 1 - 1)%nat with (List.length l') by lia.
  rewrite nth_error_app2, Nat.sub_diag by lia. reflexivity.
Qed.

Lemma last_in {A} (l : list A) (d : A) : l <> [] -> In (List.last l d) l.
Proof.
  intro H. destruct (exists_last H) as (l' & a & ->).
  rewrite last_last. apply in_or_app. right. now left.
Qed.

(** ** Traversal direction *)

Section TraversalFacts.
Context `{GU : generic_utils} `{EM : edge_module} `{IM : interface_module}.

Lemma valid_interface_corners (w : World) (i : Interface.t) :
  valid_interface w i -> exists c, corners w i = Some c.
Proof.
  intros (Hne & Hlen & Hall). unfold corners.
  destruct (Interface.edges i) as [|e0 es] eqn:Ee; [congruence|].
  destruct (Interface.panel i) as [|p0 ps] eqn:Ep; [discriminate|].
  assert (H0 : (p0 < List.length (panels w))%nat) by now inversion Hall.
  assert (Hl : (List.last (p0 :: ps) p0 < List.length (panels w))%nat).
  { rewrite Forall_forall in Hall. apply Hall. apply last_in. discriminate. }
  apply nth_error_Some in H0. apply nth_error_Some in Hl.
  destruct (nth_error (panels w) p0); [|congruence].
  destruct (nth_error (panels w) (List.last (p0 :: ps) p0)); [|congruence].
  eauto.
Qed.

(** The four look-ups of [isTraversalMatching] on a valid interface. *)
Lemma corner_3D_first (w : World) (i : Interface.t) (c : vec3 * vec3) :
  corners w i = Some c ->
  corner_3D (index (Interface.panel i) 0) (index (Interface.edges i) 0) start w
  = (Ok (fst c), w).
Proof.
  unfold corners, corner_3D.
  destruct (Interface.edges i) as [|e0 es]; [discriminate|].
  destruct (Interface.panel i) as [|p0 ps]; [discriminate|].
  destruct (nth_error (panels w) p0) as [pan0|] eqn:E0; [|discriminate].
  destruct (nth_error (panels w) (List.last (p0 :: ps) p0)); [|discriminate].
  intro H. injection H as <-. cbn [index nth_error].
  rewrite bind_lift_ok, (bind_ok _ _ _ _ _ (get_panel_ok _ _ _ E0)), bind_lift_ok.
  reflexivity.
Qed.

Lemma corner_3D_last (w : World) (i : Interface.t) (c : vec3 * vec3) :
  corners w i = Some c ->
  corner_3D (index_last (Interface.panel i)) (index_last (Interface.edges i)) end_ w
  = (Ok (snd c), w).
Proof.
  unfold corners, corner_3D.
  destruct (Interface.edges i) as [|e0 es] eqn:Ee; [discriminate|].
  destruct (Interface.panel i) as [|p0 ps] eqn:Ep; [discriminate|].
  destruct (nth_error (panels w) p0) as [pan0|]; [|discriminate].
  destruct (nth_error (panels w) (List.last (p0 :: ps) p0)) as [panl|] eqn:El;
    [|discriminate].
  intro H. injection H as <-.
  rewrite (index_last_last (p0 :: ps) p0), (index_last_last (e0 :: es) e0)
    by discriminate.
  rewrite bind_lift_ok, (bind_ok _ _ _ _ _ (get_panel_ok _ _ _ El)), bind_lift_ok.
  reflexivity.
Qed.

(** [isTraversalMatching] in closed form. *)
Lemma isTraversalMatching_eval (w : World) (self : StitchingRule)
    (i1 i2 : Interface.t) (c1 c2 : vec3 * vec3) :
  nth_error (interfaces w) (int1 self) = Some i1 ->
  nth_error (interfaces w) (int2 self) = Some i2 ->
  corners w i1 = Some c1 ->
  corners w i2 = Some c2 ->
  isTraversalMatching self w
  = (Ok (negb ((1 <? List.length (Interface.edges i1))%nat
               && Rltb (reverse_distance c1 c2) (straight_distance c1 c2))), w).
Proof.
  intros H1 H2 Hc1 Hc2. unfold isTraversalMatching.
  rewrite (bind_ok _ _ _ _ _ (get_interface_ok _ _ _ H1)).
  rewrite (bind_ok _ _ _ _ _ (get_interface_ok _ _ _ H2)).
  destruct (1 <? List.length (Interface.edges i1))%nat; [|reflexivity].
  rewrite (bind_ok _ _ _ _ _ (corner_3D_first _ _ _ Hc1)).
  rewrite (bind_ok _ _ _ _ _ (corner_3D_first _ _ _ Hc2)).
  rewrite (bind_ok _ _ _ _ _ (corner_3D_last _ _ _ Hc1)).
  rewrite (bind_ok _ _ _ _ _ (corner_3D_last _ _ _ Hc2)).
  unfold reverse_distance, straight_distance. simpl andb.
  destruct (Rltb _ _); reflexivity.
Qed.

Lemma isTraversalMatching_total (w : World) (self : StitchingRule)
    (i1 i2 : Interface.t) :
  binds w self i1 i2 -> exists b, isTraversalMatching self w = (Ok b, w).
Proof.
  intros (H1 & H2 & V1 & V2).
  destruct (valid_interface_corners _ _ V1) as (c1 & Hc1).
  destruct (valid_interface_corners _ _ V2) as (c2 & Hc2).
  eexists. eapply isTraversalMatching_eval; eauto.
Qed.

(** C6, as the code has it: on two bound interfaces [isTraversalMatching]
    returns false exactly when the first interface has more than one edge
    and the reversed pairing of the corner points is strictly shorter than
    the declared one; with a single edge on the first side it returns true
    whatever the distances.  The heap is left as it was. *)
Theorem isTraversalMatching_spec (w : World) (self : StitchingRule)
    (i1 i2 : Interface.t) :
  binds w self i1 i2 ->
  exists c1 c2 b,
    corners w i1 = Some c1
    /\ corners w i2 = Some c2
    /\ isTraversalMatching self w = (Ok b, w)
    /\ (b = false <->
        (1 < List.length (Interface.edges i1))%nat
        /\ reverse_distance c1 c2 < straight_distance c1 c2).
Proof.
  intros (H1 & H2 & V1 & V2).
  destruct (valid_interface_corners _ _ V1) as (c1 & Hc1).
  destruct (valid_interface_corners _ _ V2) as (c2 & Hc2).
  exists c1, c2. eexists. split; [exact Hc1|]. split; [exact Hc2|].
  split; [eapply isTraversalMatching_eval; eauto|].
  rewrite negb_false_iff, andb_true_iff, Nat.ltb_lt, Rltb_spec. reflexivity.
Qed.

(** C2: when the total projected lengths of the two interfaces differ by
    more than the tolerance, [match_edge_count] raises the error "Projected
    edges do not match" and the heap -- the edge lists of both interfaces
    and the boundaries of all panels -- is exactly as before the call. *)
Theorem match_edge_count_mismatch (w : World) (self : StitchingRule)
    (i1 i2 : Interface.t) (tol : R) :
  binds w self i1 i2 ->
  tol < Rabs (Rsum (lengths (projecting_edges i1))
              - Rsum (lengths (projecting_edges i2))) ->
  match_edge_count self tol w
  = (Raise (RuntimeError Projected_edges_do_not_match), w).
Proof.
  intros Hb Hfar.
  destruct (isTraversalMatching_total _ _ _ _ Hb) as (b & Htm).
  destruct Hb as (H1 & H2 & _).
  unfold match_edge_count.
  rewrite (bind_ok _ _ _ _ _ (get_interface_ok _ _ _ H1)).
  rewrite (bind_ok _ _ _ _ _ Htm).
  rewrite (bind_ok _ _ _ _ _ (get_interface_ok _ _ _ H2)).
  rewrite (bind_ok _ _ _ _ _ Htm).
  assert (E : close_enough
                (Rsum (if negb b then rev (lengths (projecting_edges i1))
                       else lengths (projecting_edges i1)))
                (Rsum (if negb b then rev (lengths (projecting_edges i2))
                       else lengths (projecting_edges i2))) tol = false).
  { apply close_enough_far. destruct (negb b); rewrite ?Rsum_rev; exact Hfar. }
  rewrite E. reflexivity.
Qed.

End TraversalFacts.

(** ** One turn of the loop of [_match_side_count] *)

Lemma index_ok {A} (l : list A) (i : nat) (a : A) :
  nth_error l i = Some a -> index l i = Ok a.
Proof. intro H. unfold index. now rewrite H. Qed.

Lemma nth_error_list_set {A} (l : list A) (n : nat) (x : A) :
  (n < List.length l)%nat -> nth_error (list_set l n x) n = Some x.
Proof.
  revert n. induction l as [|y l IH]; intros n Hn; simpl in Hn; [lia|].
  destruct n; [reflexivity|]. simpl. apply IH. lia.
Qed.

Lemma nth_error_list_set_other {A} (l : list A) (n m : nat) (x : A) :
  n <> m -> nth_error (list_set l n x) m = nth_error l m.
Proof.
  revert n m. induction l as [|y l IH]; intros n m Hn; [reflexivity|].
  destruct n, m; try reflexivity; try congruence.
  simpl. apply IH. congruence.
Qed.

Lemma list_set_set {A} (l : list A) (n : nat) (x y : A) :
  list_set (list_set l n x) n y = list_set l n y.
Proof.
  revert n. induction l as [|z l IH]; intro n; [reflexivity|].
  destruct n; simpl; [reflexivity | now rewrite IH].
Qed.

Lemma list_set_length {A} (l : list A) (n : nat) (x : A) :
  List.length (list_set l n x) = List.length l.
Proof.
  revert n. induction l as [|y l IH]; intro n; [reflexivity|].
  destruct n; simpl; [reflexivity | now rewrite IH].
Qed.

Lemma substitute_in_panel_ok (w : World) (p : nat) (pan : Panel.t)
    (base_edge : Edge vertex) (subdiv es : EdgeSequence vertex) :
  nth_error (panels w) p = Some pan ->
  substitute (Panel.edges pan) base_edge subdiv = Ok es ->
  substitute_in_panel p base_edge subdiv w
  = (Ok tt, mkWorld (list_set (panels w) p
                       (Panel.mk (Panel.name pan) es (Panel.point_to_3D pan)))
              (interfaces w)).
Proof.
  intros Hp Hs. unfold substitute_in_panel.
  rewrite (bind_ok _ _ _ _ _ (get_panel_ok _ _ _ Hp)), Hs, bind_lift_ok.
  reflexivity.
Qed.

Lemma substitute_in_interface_ok (w : World) (inter : nat) (i : Interface.t)
    (base_edge : Edge vertex) (subdiv es : EdgeSequence vertex) :
  nth_error (interfaces w) inter = Some i ->
  substitute (Interface.edges i) base_edge subdiv = Ok es ->
  substitute_in_interface inter base_edge subdiv w
  = (Ok tt, mkWorld (panels w)
              (list_set (interfaces w) inter (Interface.mk es (Interface.panel i)))).
Proof.
  intros Hi Hs. unfold substitute_in_interface.
  rewrite (bind_ok _ _ _ _ _ (get_interface_ok _ _ _ Hi)), Hs, bind_lift_ok.
  reflexivity.
Qed.

Lemma insert_panel_ref_ok (w : World) (inter : nat) (i : Interface.t) (at_ p : nat) :
  nth_error (interfaces w) inter = Some i ->
  nth_error (Interface.panel i) at_ = Some p ->
  insert_panel_ref inter at_ w
  = (Ok tt, mkWorld (panels w)
              (list_set (interfaces w) inter
                 (Interface.mk (Interface.edges i)
                    (list_insert (Interface.panel i) at_ p)))).
Proof.
  intros Hi Hp. unfold insert_panel_ref.
  rewrite (bind_ok _ _ _ _ _ (get_interface_ok _ _ _ Hi)).
  rewrite (index_ok _ _ _ Hp), bind_lift_ok. reflexivity.
Qed.

Section LoopBody.
Context `{GU : generic_utils} `{EM : edge_module} `{IM : interface_module}.

Variables (inter : nat) (to_add : list R) (tol : R) (c : cursor) (w : World).
Variables (i : Interface.t) (pe : Edge vertex) (a : R).
Hypothesis Hi : nth_error (interfaces w) inter = Some i.
Hypothesis Hpe : nth_error (projecting_edges i) (in_id c) = Some pe.
Hypothesis Ha : nth_error to_add (add_id c) = Some a.

(** The vertex is there already: both cursors move on. *)
Lemma body_skip :
  close_enough (covered_init c + Edge_length pe) (covered_added c + a) tol = true ->
  match_side_body inter to_add tol c w
  = (Ok (mkCursor (S (add_id c)) (S (in_id c))
           (covered_init c + Edge_length pe) (covered_added c + a)), w).
Proof.
  intro H. unfold match_side_body.
  rewrite (bind_ok _ _ _ _ _ (get_interface_ok _ _ _ Hi)).
  rewrite (index_ok _ _ _ Hpe), bind_lift_ok, (index_ok _ _ _ Ha), bind_lift_ok.
  now rewrite H.
Qed.

(** The vertex to add lies beyond the current edge: go to the next edge. *)
Lemma body_advance :
  close_enough (covered_init c + Edge_length pe) (covered_added c + a) tol = false ->
  covered_init c + Edge_length pe < covered_added c + a ->
  match_side_body inter to_add tol c w
  = (Ok (mkCursor (add_id c) (S (in_id c))
           (covered_init c + Edge_length pe) (covered_added c)), w).
Proof.
  intros H Hlt. unfold match_side_body.
  rewrite (bind_ok _ _ _ _ _ (get_interface_ok _ _ _ Hi)).
  rewrite (index_ok _ _ _ Hpe), bind_lift_ok, (index_ok _ _ _ Ha), bind_lift_ok.
  now rewrite H, (Rltb_true _ _ Hlt).
Qed.

(** The vertex to add falls inside the current edge: the edge is split in
    the panel and in the interface. *)
Lemma body_split (base_edge sd0 : Edge vertex) (subdiv es_p es_i : EdgeSequence vertex)
    (p : nat) (pan : Panel.t) :
  close_enough (covered_init c + Edge_length pe) (covered_added c + a) tol = false ->
  covered_added c + a <= covered_init c + Edge_length pe ->
  Edge_length pe <> 0 ->
  nth_error (Interface.edges i) (in_id c) = Some base_edge ->
  EdgeSeqFactory.from_fractions (start base_edge) (end_ base_edge)
    [ (Edge_length pe - (covered_init c + Edge_length pe - (covered_added c + a)))
        / Edge_length pe;
      1 - (Edge_length pe - (covered_init c + Edge_length pe - (covered_added c + a)))
            / Edge_length pe ]
  = Ok subdiv ->
  nth_error (Interface.panel i) (in_id c) = Some p ->
  nth_error (panels w) p = Some pan ->
  substitute (Panel.edges pan) base_edge subdiv = Ok es_p ->
  substitute (Interface.edges i) base_edge subdiv = Ok es_i ->
  nth_error subdiv 0 = Some sd0 ->
  match_side_body inter to_add tol c w
  = (Ok (mkCursor (S (add_id c)) (S (in_id c))
           (covered_init c + Edge_length sd0) (covered_added c + a)),
     mkWorld
       (list_set (panels w) p (Panel.mk (Panel.name pan) es_p (Panel.point_to_3D pan)))
       (list_set (interfaces w) inter
          (Interface.mk es_i (list_insert (Interface.panel i) (in_id c) p)))).
Proof.
  intros H Hge Hlen Hbase Hff Hp Hpan Hsp Hsi Hsd.
  unfold match_side_body.
  rewrite (bind_ok _ _ _ _ _ (get_interface_ok _ _ _ Hi)).
  rewrite (index_ok _ _ _ Hpe), bind_lift_ok, (index_ok _ _ _ Ha), bind_lift_ok.
  rewrite H, (Rltb_false _ _ (Rle_not_lt _ _ Hge)), bind_lift_ok.
  unfold quotient. destruct (Req_dec_T (Edge_length pe) 0) as [E|_]; [contradiction|].
  rewrite bind_lift_ok, (index_ok _ _ _ Hbase), bind_lift_ok, Hff, bind_lift_ok.
  rewrite (index_ok _ _ _ Hp), bind_lift_ok.
  rewrite (bind_ok _ _ _ _ _ (substitute_in_panel_ok _ _ _ _ _ _ Hpan Hsp)).
  set (w1 := mkWorld (list_set (panels w) p
                        (Panel.mk (Panel.name pan) es_p (Panel.point_to_3D pan)))
               (interfaces w)).
  rewrite (bind_ok _ _ _ _ _
             (substitute_in_interface_ok w1 inter i _ _ _ Hi Hsi)).
  assert (Hlt : (inter < List.length (interfaces w))%nat)
    by (apply nth_error_Some; congruence).
  set (w2 := mkWorld (panels w1)
               (list_set (interfaces w1) inter (Interface.mk es_i (Interface.panel i)))).
  rewrite (bind_ok _ _ _ _ _
             (insert_panel_ref_ok w2 inter _ (in_id c) p
                (nth_error_list_set _ _ _ Hlt) Hp)).
  rewrite (index_ok _ _ _ Hsd), bind_lift_ok.
  unfold w2, w1. cbn [panels interfaces Interface.edges Interface.panel].
  rewrite list_set_set. reflexivity.
Qed.

End LoopBody.

(** ** Substitution and splitting *)

Section SplitFacts.
Context `{GU : generic_utils} `{EM : edge_module} `{IM : interface_module}.

Lemma substitute_nth (l : EdgeSequence vertex) (n : nat) (e : Edge vertex)
    (new : EdgeSequence vertex) :
  nth_error l n = Some e -> exists r, substitute l e new = Ok r.
Proof.
  revert n. induction l as [|x l IH]; intros n Hn.
  - destruct n; discriminate.
  - simpl. destruct (Edge_eq_dec x e); [eauto|].
    destruct n; [simpl in Hn; congruence|].
    destruct (IH _ Hn) as (r & ->). eauto.
Qed.

Lemma substitute_length (l : EdgeSequence vertex) (e : Edge vertex)
    (new r : EdgeSequence vertex) :
  substitute l e new = Ok r ->
  S (List.length r) = (List.length l + List.length new)%nat.
Proof.
  revert r. induction l as [|x l IH]; intros r H; simpl in H; [discriminate|].
  destruct (Edge_eq_dec x e).
  - injection H as <-. rewrite length_app, length_map. simpl. lia.
  - destruct (substitute l e new) as [r'|]; [|discriminate].
    injection H as <-. simpl. rewrite (IH r' eq_refl). lia.
Qed.

Lemma inherit_length (orig e : Edge vertex) :
  Edge_length (inherit orig e) = Edge_length e.
Proof. reflexivity. Qed.

Lemma lengths_inherit (orig : Edge vertex) (s : EdgeSequence vertex) :
  lengths (map (inherit orig) s) = lengths s.
Proof. unfold lengths. rewrite map_map. reflexivity. Qed.

(** Substituting a chain as long as the edge keeps the total length. *)
Lemma substitute_lengths (l : EdgeSequence vertex) (e : Edge vertex)
    (new r : EdgeSequence vertex) :
  substitute l e new = Ok r ->
  Rsum (lengths new) = Edge_length e ->
  Rsum (lengths r) = Rsum (lengths l).
Proof.
  intros H Hnew. revert r H.
  induction l as [|x l IH]; intros r H; simpl in H; [discriminate|].
  destruct (Edge_eq_dec x e) as [->|_].
  - injection H as <-. unfold lengths at 1.
    rewrite map_app, Rsum_app. fold (lengths (map (inherit e) new)).
    rewrite lengths_inherit, Hnew. reflexivity.
  - destruct (substitute l e new) as [r'|]; [|discriminate].
    injection H as <-. simpl. now rewrite (IH r' eq_refl).
Qed.

Lemma substitute_straight (l : EdgeSequence vertex) (e : Edge vertex)
    (new r : EdgeSequence vertex) :
  substitute l e new = Ok r -> straight l -> straight new -> straight r.
Proof.
  intros H Hl Hnew. revert r H.
  induction Hl as [|x l Hx Hl IH]; intros r H; simpl in H; [discriminate|].
  destruct (Edge_eq_dec x e).
  - injection H as <-. apply Forall_app. split; [|exact Hl].
    apply Forall_map. eapply Forall_impl; [|exact Hnew]. now intros a Ha.
  - destruct (substitute l e new) as [r'|]; [|discriminate].
    injection H as <-. constructor; [exact Hx | now apply IH].
Qed.

(** The vertex at which [from_fractions(start, end, [frac, 1 - frac])]
    cuts the segment. *)
Lemma from_fractions_two (s e : vertex) (f g : R) (subdiv : EdgeSequence vertex) :
  EdgeSeqFactory.from_fractions s e [f; g] = Ok subdiv ->
  close_enough (Rabs f + (Rabs g + 0)) 1 (1 / 10000) = true
  /\ subdiv
     = [ Edge_new s (fst s + Rabs f * (fst e - fst s), snd s + Rabs f * (snd e - snd s));
         Edge_new (fst s + Rabs f * (fst e - fst s), snd s + Rabs f * (snd e - snd s)) e ].
Proof.
  intro H.
  destruct (close_enough (Rsum (map Rabs [f; g])) 1 (1 / 10000)) eqn:E.
  - split; [exact E|].
    rewrite (from_fractions_ok _ _ _ E) in H.
    destruct (steps_differ same_vertex _) in H; [|discriminate].
    injection H as <-. reflexivity.
  - rewrite (from_fractions_raise _ _ _ E) in H. discriminate.
Qed.

(** A split at a fraction that is at most 1 keeps the length of a
    straight edge. *)
Lemma from_fractions_split_length (s e : vertex) (f : R) (subdiv : EdgeSequence vertex) :
  f <= 1 ->
  EdgeSeqFactory.from_fractions s e [f; 1 - f] = Ok subdiv ->
  straight subdiv
  /\ List.length subdiv = 2%nat
  /\ Rsum (lengths subdiv) = norm (vsub e s).
Proof.
  intros Hf H. destruct (from_fractions_two _ _ _ _ _ H) as (Hc & ->).
  split; [repeat constructor|]. split; [reflexivity|].
  assert (Hfar : ~ 1 / 10000 < Rabs (Rabs f + (Rabs (1 - f) + 0) - 1)).
  { intro Hfar. rewrite (close_enough_far _ _ _ Hfar) in Hc. discriminate. }
  assert (Habs : Rabs f <= 1).
  { revert Hfar. unfold Rabs. repeat destruct Rcase_abs; intros; lra. }
  pose proof (Rabs_pos f) as Hpos.
  cbn [lengths map Rsum]. rewrite !Edge_length_new.
  replace (vsub (fst s + Rabs f * (fst e - fst s), snd s + Rabs f * (snd e - snd s)) s)
    with (vscale (Rabs f) (vsub e s))
    by (unfold vsub, vscale; simpl; f_equal; ring).
  replace (vsub e (fst s + Rabs f * (fst e - fst s), snd s + Rabs f * (snd e - snd s)))
    with (vscale (1 - Rabs f) (vsub e s))
    by (unfold vsub, vscale; simpl; f_equal; ring).
  rewrite !norm_scale, Rabs_Rabsolu, (Rabs_pos_eq (1 - Rabs f)) by lra. ring.
Qed.

(** The cases of one turn of the loop. *)
Lemma body_cases (inter : nat) (to_add : list R) (tol : R) (c : cursor) (w w' : World)
    (o : outcome cursor) :
  match_side_body inter to_add tol c w = (o, w') ->
  body_result inter c w o w'.
Proof.
  unfold match_side_body, bind at 1, get_interface at 1.
  destruct (nth_error (interfaces w) inter) as [i|] eqn:Hi.
  2: { intro H; injection H as <- <-. now constructor. }
  destruct (nth_error (projecting_edges i) (in_id c)) as [pe|] eqn:Hpe.
  2: { unfold index at 1. rewrite Hpe. intro H; injection H as <- <-. now constructor. }
  rewrite (index_ok _ _ _ Hpe), bind_lift_ok.
  destruct (nth_error to_add (add_id c)) as [a|] eqn:Ha.
  2: { unfold index at 1. rewrite Ha. intro H; injection H as <- <-. now constructor. }
  rewrite (index_ok _ _ _ Ha), bind_lift_ok.
  destruct (close_enough _ _ tol) eqn:Hce.
  { intro H; injection H as <- <-. constructor; simpl; auto. }
  destruct (Rltb _ _) eqn:Hlt.
  { intro H; injection H as <- <-. constructor; simpl; auto. }
  apply Rltb_spec_false in Hlt.
  rewrite bind_lift_ok. unfold quotient.
  destruct (Req_dec_T (Edge_length pe) 0) as [E|Hne].
  { intro H; injection H as <- <-. now constructor. }
  rewrite bind_lift_ok.
  destruct (nth_error (Interface.edges i) (in_id c)) as [base_edge|] eqn:Hbase.
  2: { unfold index at 1. rewrite Hbase. intro H; injection H as <- <-. now constructor. }
  rewrite (index_ok _ _ _ Hbase), bind_lift_ok.
  match goal with
  | |- context [EdgeSeqFactory.from_fractions ?s ?e [?f; ?g]] => set (frac := f)
  end.
  destruct (EdgeSeqFactory.from_fractions (start base_edge) (end_ base_edge)
              [frac; 1 - frac]) as [subdiv|err] eqn:Hff.
  2: { intro H; injection H as <- <-. constructor.
       unfold EdgeSeqFactory.from_fractions in Hff.
       destruct (negb _) in Hff; [injection Hff as <-; discriminate|].
       cbv zeta in Hff. rewrite <- app_comm_cons, from_verts_cons in Hff.
       - destruct (steps_differ same_vertex _) in Hff; [discriminate|].
         injection Hff as <-. discriminate.
       - intro E. apply app_eq_nil in E. destruct E; discriminate. }
  rewrite bind_lift_ok.
  destruct (nth_error (Interface.panel i) (in_id c)) as [p|] eqn:Hp.
  2: { unfold index at 1. rewrite Hp. intro H; injection H as <- <-. now constructor. }
  rewrite (index_ok _ _ _ Hp), bind_lift_ok.
  destruct (nth_error (panels w) p) as [pan|] eqn:Hpan.
  2: { unfold bind at 1, substitute_in_panel, bind at 1, get_panel. rewrite Hpan.
       intro H; injection H as <- <-. now constructor. }
  destruct (substitute (Panel.edges pan) base_edge subdiv) as [es_p|err] eqn:Hsp.
  2: { unfold bind at 1, substitute_in_panel.
       rewrite (bind_ok _ _ _ _ _ (get_panel_ok _ _ _ Hpan)), Hsp.
       intro H; injection H as <- <-. constructor.
       clear - Hsp. induction (Panel.edges pan) as [|x l IH]; simpl in Hsp.
       - injection Hsp as <-. discriminate.
       - destruct (Edge_eq_dec x base_edge); [discriminate|].
         destruct (substitute l base_edge subdiv); [discriminate|]. auto. }
  destruct (substitute_nth _ _ _ subdiv Hbase) as (es_i & Hsi).
  destruct (from_fractions_two _ _ _ _ _ Hff) as (_ & Esub).
  assert (Hsd : nth_error subdiv 0 = Some (Edge_new (start base_edge)
                  (fst (start base_edge)
                   + Rabs frac * (fst (end_ base_edge) - fst (start base_edge)),
                   snd (start base_edge)
                   + Rabs frac * (snd (end_ base_edge) - snd (start base_edge)))))
    by (rewrite Esub; reflexivity).
  assert (Hge : covered_added c + a <= covered_init c + Edge_length pe) by exact Hlt.
  pose proof (body_split inter to_add tol c w i pe a Hi Hpe Ha _ _ _ _ _ _ _
                Hce Hge Hne Hbase Hff Hp Hpan Hsp Hsi Hsd) as Hrun.
  unfold match_side_body in Hrun.
  rewrite (bind_ok _ _ _ _ _ (get_interface_ok _ _ _ Hi)) in Hrun.
  rewrite (index_ok _ _ _ Hpe), bind_lift_ok, (index_ok _ _ _ Ha), bind_lift_ok in Hrun.
  rewrite Hce, (Rltb_false _ _ (Rle_not_lt _ _ Hge)), bind_lift_ok in Hrun.
  unfold quotient in Hrun.
  destruct (Req_dec_T (Edge_length pe) 0) as [E|_] in Hrun; [contradiction|].
  rewrite bind_lift_ok, (index_ok _ _ _ Hbase), bind_lift_ok in Hrun.
  fold frac in Hrun. rewrite Hff, bind_lift_ok in Hrun.
  rewrite (index_ok _ _ _ Hp), bind_lift_ok in Hrun.
  rewrite Hrun. intro H; injection H as <- <-.
  eapply body_splits with (frac := frac); eauto.
  pose proof (Edge_length_nonneg pe) as Hpos.
  unfold frac. apply Rmult_le_reg_r with (r := Edge_length pe); [lra|].
  unfold Rdiv. rewrite Rmult_assoc, Rinv_l by exact Hne. lra.
Qed.

End SplitFacts.

(** ** The loop of [_match_side_count] *)

Section LoopFacts.
Context `{GU : generic_utils} `{EM : edge_module} `{IM : interface_module}.
Variables (inter : nat) (to_add : list R) (tol : R).

Lemma loop_unroll (b : nat) (c : cursor) (w : World) :
  match_side_loop b inter to_add tol c w
  = match nth_error (interfaces w) inter with
    | None => (Raise NoSuchObject, w)
    | Some i =>
        if ((in_id c <? List.length (Interface.edges i))
            && (add_id c <? List.length to_add))%nat
        then match b with
             | O => (Raise LoopBudget, w)
             | S b' => bind (match_side_body inter to_add tol c)
                         (match_side_loop b' inter to_add tol) w
             end
        else (Ok c, w)
    end.
Proof.
  destruct b; simpl; unfold bind at 1, get_interface;
    destruct (nth_error (interfaces w) inter); try reflexivity;
    destruct (_ && _)%bool; reflexivity.
Qed.

(** Induction over the turns of the loop: [P] holds of the cursor and the
    heap before every turn, [Q] of the heap whenever the loop is left by an
    exception. *)
Lemma loop_ind (P : cursor -> World -> Prop) (Q : World -> Prop) :
  (forall c w, P c w -> Q w) ->
  (forall c w i o w',
      P c w ->
      nth_error (interfaces w) inter = Some i ->
      (in_id c < List.length (Interface.edges i))%nat ->
      (add_id c < List.length to_add)%nat ->
      body_result inter c w o w' ->
      match o with Ok c' => P c' w' | Raise _ => Q w' end) ->
  forall b c w o w',
    P c w ->
    match_side_loop b inter to_add tol c w = (o, w') ->
    match o with
    | Ok c' =>
        P c' w'
        /\ exists i, nth_error (interfaces w') inter = Some i
                     /\ ((in_id c' <? List.length (Interface.edges i))
                         && (add_id c' <? List.length to_add))%nat = false
    | Raise _ => Q w'
    end.
Proof.
  intros HPQ Hstep. induction b as [|b IH]; intros c w o w' HP Hrun;
    rewrite loop_unroll in Hrun;
    (destruct (nth_error (interfaces w) inter) as [i|] eqn:Hi;
     [|injection Hrun as <- <-; now apply (HPQ c)]);
    (destruct ((in_id c <? List.length (Interface.edges i))
               && (add_id c <? List.length to_add))%nat eqn:Hcond;
     [|injection Hrun as <- <-; split; [exact HP | eauto]]).
  - injection Hrun as <- <-. now apply (HPQ c).
  - apply andb_true_iff in Hcond. destruct Hcond as (H1 & H2).
    apply Nat.ltb_lt in H1, H2.
    unfold bind in Hrun.
    destruct (match_side_body inter to_add tol c w) as [o1 w1] eqn:Hbody.
    pose proof (Hstep c w i o1 w1 HP Hi H1 H2 (body_cases _ _ _ _ _ _ _ Hbody)) as Hs.
    destruct o1 as [c1|e1].
    + eapply IH; eauto.
    + injection Hrun as <- <-. exact Hs.
Qed.

(** The budget that [_match_side_count] grants is never used up. *)
Lemma match_side_loop_budget (b : nat) (c : cursor) (w w' : World) (i : Interface.t) :
  nth_error (interfaces w) inter = Some i ->
  ((List.length (Interface.edges i) - in_id c)
   + (List.length to_add - add_id c) <= b)%nat ->
  match_side_loop b inter to_add tol c w <> (Raise LoopBudget, w').
Proof.
  revert c w i. induction b as [|b IH]; intros c w i Hi Hb Hrun;
    rewrite loop_unroll, Hi in Hrun;
    (destruct ((in_id c <? List.length (Interface.edges i))
               && (add_id c <? List.length to_add))%nat eqn:Hcond;
     [|discriminate]);
    apply andb_true_iff in Hcond; destruct Hcond as (H1 & H2);
    apply Nat.ltb_lt in H1, H2; [lia|].
  unfold bind in Hrun.
  destruct (match_side_body inter to_add tol c w) as [o1 w1] eqn:Hbody.
  apply body_cases in Hbody.
  destruct Hbody as [e He | c1 Hin Hadd
                    | i0 base_edge subdiv es_p es_i p pan frac c1
                        Hi0 Hbase Hfrac Hff Hp Hpan Hsp Hsi Hin Hadd].
  - injection Hrun as -> _. congruence.
  - eapply (IH c1 w i); eauto. lia.
  - rewrite Hi in Hi0. injection Hi0 as <-.
    eapply (IH c1 _ (Interface.mk es_i (list_insert (Interface.panel i) (in_id c) p)));
      [| |exact Hrun].
    + cbn [interfaces]. apply nth_error_list_set.
      apply nth_error_Some. congruence.
    + cbn [Interface.edges].
      pose proof (substitute_length _ _ _ _ Hsi) as Hl.
      destruct (from_fractions_split_length _ _ _ _ Hfrac Hff) as (_ & Hl2 & _).
      lia.
Qed.

End LoopFacts.

(** ** What [_match_side_count] and [match_edge_count] keep *)

Section Frame.
Context `{GU : generic_utils} `{EM : edge_module} `{IM : interface_module}.

Lemma lengths_kept_refl (w : World) : lengths_kept w w.
Proof. intros k ik Hk Hs. eauto. Qed.

Lemma lengths_kept_trans (w1 w2 w3 : World) :
  lengths_kept w1 w2 -> lengths_kept w2 w3 -> lengths_kept w1 w3.
Proof.
  intros H12 H23 k ik Hk Hs.
  destruct (H12 k ik Hk Hs) as (ik2 & Hk2 & Hs2 & E2).
  destruct (H23 k ik2 Hk2 Hs2) as (ik3 & Hk3 & Hs3 & E3).
  exists ik3. repeat split; auto. congruence.
Qed.

Lemma body_lengths_kept (inter : nat) (c : cursor) (w w' : World) (o : outcome cursor) :
  body_result inter c w o w' -> lengths_kept w w'.
Proof.
  intros [e He | c1 Hin Hadd
         | i base_edge subdiv es_p es_i p pan frac c1
             Hi Hbase Hfrac Hff Hp Hpan Hsp Hsi Hin Hadd];
    try apply lengths_kept_refl.
  intros k ik Hk Hs. cbn [interfaces].
  destruct (Nat.eq_dec inter k) as [<-|Hne].
  - rewrite Hi in Hk. injection Hk as <-.
    rewrite nth_error_list_set by (apply nth_error_Some; congruence).
    eexists. split; [reflexivity|]. cbn [Interface.edges].
    destruct (from_fractions_split_length _ _ _ _ Hfrac Hff) as (Hstr & _ & Hsum).
    split.
    + eapply substitute_straight; eauto.
    + eapply substitute_lengths; eauto. rewrite Hsum.
      unfold straight in Hs. rewrite Forall_forall in Hs.
      unfold Edge_length. rewrite (Hs base_edge); [reflexivity|].
      eapply nth_error_In; eauto.
  - rewrite nth_error_list_set_other by exact Hne. eauto.
Qed.

Lemma side_count_lengths_kept (inter : nat) (to_add : list R) (tol : R)
    (w w' : World) (o : outcome unit) :
  _match_side_count inter to_add tol w = (o, w') -> lengths_kept w w'.
Proof.
  unfold _match_side_count, bind at 1, get_interface.
  destruct (nth_error (interfaces w) inter) as [i|];
    [|intro H; injection H as <- <-; apply lengths_kept_refl].
  unfold bind at 1.
  destruct (match_side_loop _ inter to_add tol _ w) as [o1 w1] eqn:Hloop.
  pose proof (loop_ind inter to_add tol (fun _ w1 => lengths_kept w w1)
                (lengths_kept w) (fun _ _ H => H)) as Hind.
  assert (Hk : match o1 with Ok _ => lengths_kept w w1 | Raise _ => lengths_kept w w1 end).
  { specialize (Hind (fun c0 w0 i0 o0 w0' HP _ _ _ Hb =>
                       match o0 return
                             match o0 with Ok _ => lengths_kept w w0'
                                      | Raise _ => lengths_kept w w0' end
                       with
                       | Ok _ => lengths_kept_trans _ _ _ HP (body_lengths_kept _ _ _ _ _ Hb)
                       | Raise _ => lengths_kept_trans _ _ _ HP (body_lengths_kept _ _ _ _ _ Hb)
                       end)
                     _ _ _ _ _ (lengths_kept_refl w) Hloop).
    destruct o1; [apply Hind | exact Hind]. }
  destruct o1 as [c1|e1].
  - destruct (negb _); intro H; injection H as <- <-; exact Hk.
  - intro H; injection H as <- <-; exact Hk.
Qed.

(** [isTraversalMatching] and [isMatching] only read. *)
Lemma isTraversalMatching_readonly (self : StitchingRule) :
  readonly (isTraversalMatching self).
Proof.
  unfold isTraversalMatching, corner_3D.
  repeat first
    [ apply readonly_bind; [|intro]
    | apply readonly_get_interface | apply readonly_get_panel
    | apply readonly_lift | apply readonly_ret
    | match goal with |- readonly (if ?b then _ else _) => destruct b end ].
Qed.

Lemma isMatching_readonly (self : StitchingRule) : readonly (isMatching self).
Proof.
  unfold isMatching.
  repeat first
    [ apply readonly_bind; [|intro]
    | apply readonly_get_interface | apply readonly_ret ].
Qed.

Lemma isTraversalMatching_frame (self : StitchingRule) (w w' : World) (o : outcome bool) :
  isTraversalMatching self w = (o, w') -> w' = w.
Proof. apply isTraversalMatching_readonly. Qed.

Lemma isMatching_frame (self : StitchingRule) (w w' : World) (o : outcome bool) :
  isMatching self w = (o, w') -> w' = w.
Proof. apply isMatching_readonly. Qed.

Lemma match_edge_count_lengths_kept (self : StitchingRule) (tol : R)
    (w w' : World) (o : outcome unit) :
  match_edge_count self tol w = (o, w') -> lengths_kept w w'.
Proof.
  unfold match_edge_count, bind at 1, get_interface at 1.
  destruct (nth_error (interfaces w) (int1 self)) as [i1|];
    [|intro H; injection H as <- <-; apply lengths_kept_refl].
  unfold bind at 1.
  destruct (isTraversalMatching self w) as [o1 w1] eqn:Htm.
  apply isTraversalMatching_frame in Htm as ->.
  destruct o1 as [tm|e]; [|intro H; injection H as <- <-; apply lengths_kept_refl].
  unfold bind at 1, get_interface at 1.
  destruct (nth_error (interfaces w) (int2 self)) as [i2|];
    [|intro H; injection H as <- <-; apply lengths_kept_refl].
  unfold bind at 1.
  destruct (isTraversalMatching self w) as [o2 w2] eqn:Htm2.
  apply isTraversalMatching_frame in Htm2 as ->.
  destruct o2 as [tm2|e]; [|intro H; injection H as <- <-; apply lengths_kept_refl].
  destruct (negb (close_enough _ _ tol));
    [intro H; injection H as <- <-; apply lengths_kept_refl|].
  unfold bind at 1.
  destruct (_match_side_count (int1 self) _ tol w) as [o3 w3] eqn:H1.
  apply side_count_lengths_kept in H1.
  destruct o3 as [[]|e]; [|intro H; injection H as <- <-; exact H1].
  intro H2. apply side_count_lengths_kept in H2.
  eapply lengths_kept_trans; eauto.
Qed.

(** C5, as the code has it: whatever [match_edge_count] does to the heap
    (also when it ends in an exception), every interface made of straight
    edges is afterwards made of straight edges of the same total length. *)
Theorem match_edge_count_keeps_straight_lengths (self : StitchingRule) (tol : R)
    (w w' : World) (o : outcome unit) (k : nat) (ik : Interface.t) :
  match_edge_count self tol w = (o, w') ->
  nth_error (interfaces w) k = Some ik ->
  straight (Interface.edges ik) ->
  exists ik',
    nth_error (interfaces w') k = Some ik'
    /\ straight (Interface.edges ik')
    /\ Rsum (lengths (Interface.edges ik')) = Rsum (lengths (Interface.edges ik)).
Proof. intros H. exact (match_edge_count_lengths_kept _ _ _ _ _ H k ik). Qed.

End Frame.

(** ** Induction over a call of [_match_side_count] *)

Section SideCount.
Context `{GU : generic_utils} `{EM : edge_module} `{IM : interface_module}.
Variables (inter : nat) (to_add : list R) (tol : R).

Lemma side_count_ind (P : cursor -> World -> Prop) (Q : World -> Prop) :
  (forall c w, P c w -> Q w) ->
  (forall c w i o w',
      P c w ->
      nth_error (interfaces w) inter = Some i ->
      (in_id c < List.length (Interface.edges i))%nat ->
      (add_id c < List.length to_add)%nat ->
      body_result inter c w o w' ->
      match o with Ok c' => P c' w' | Raise _ => Q w' end) ->
  forall w o w',
    P (mkCursor 0 0 0 0) w ->
    _match_side_count inter to_add tol w = (o, w') ->
    Q w'
    /\ (o = Ok tt ->
        exists c', P c' w' /\ add_id c' = List.length to_add).
Proof.
  intros HPQ Hstep w o w' HP.
  unfold _match_side_count, bind at 1, get_interface.
  destruct (nth_error (interfaces w) inter) as [i|].
  2: { intro H; injection H as <- <-. split; [now apply (HPQ (mkCursor 0 0 0 0))|].
       discriminate. }
  unfold bind at 1.
  destruct (match_side_loop _ inter to_add tol _ w) as [o1 w1] eqn:Hloop.
  pose proof (loop_ind inter to_add tol P Q HPQ Hstep _ _ _ _ _ HP Hloop) as Hind.
  destruct o1 as [c1|e1].
  - destruct Hind as (HP1 & _).
    destruct (add_id c1 =? List.length to_add)%nat eqn:E; simpl negb; cbv iota;
      intro H; injection H as <- <-.
    + split; [now apply (HPQ c1)|]. intros _. exists c1. split; [exact HP1|].
      now apply Nat.eqb_eq.
    + split; [now apply (HPQ c1) | discriminate].
  - intro H; injection H as <- <-. split; [exact Hind | discriminate].
Qed.

(** Only the interface that is passed is written to. *)
Lemma side_count_others (w w' : World) (o : outcome unit) (k : nat) :
  _match_side_count inter to_add tol w = (o, w') ->
  k <> inter ->
  nth_error (interfaces w') k = nth_error (interfaces w) k.
Proof.
  intros Hrun Hk.
  pose (P := fun (_ : cursor) (w1 : World) =>
               nth_error (interfaces w1) k = nth_error (interfaces w) k).
  apply (side_count_ind P (P (mkCursor 0 0 0 0))) in Hrun;
    [apply Hrun | auto | | reflexivity].
  intros c w0 i o0 w0' HP _ _ _ Hb. unfold P in *.
  destruct Hb; try exact HP.
  cbn [interfaces]. rewrite nth_error_list_set_other by congruence. exact HP.
Qed.

(** A call that returns has cut the interface into at least as many edges
    as there are lengths in [to_add]. *)
Lemma side_count_grows (w w' : World) :
  _match_side_count inter to_add tol w = (Ok tt, w') ->
  exists i', nth_error (interfaces w') inter = Some i'
             /\ (List.length to_add <= List.length (Interface.edges i'))%nat.
Proof.
  intro Hrun.
  assert (Hex : exists i', nth_error (interfaces w') inter = Some i').
  { assert (Hi : nth_error (interfaces w) inter <> None).
    { intro E. unfold _match_side_count, bind at 1, get_interface in Hrun.
      rewrite E in Hrun. discriminate. }
    pose (P := fun (_ : cursor) (w1 : World) => nth_error (interfaces w1) inter <> None).
    apply (side_count_ind P (fun _ => True)) in Hrun; [| auto | | exact Hi].
    - destruct Hrun as (_ & Hc). destruct (Hc eq_refl) as (c' & HP & _).
      unfold P in HP. destruct (nth_error (interfaces w') inter); [eauto | congruence].
    - intros c w0 i o0 w0' HP Hi0 _ _ Hb. unfold P.
      destruct Hb; auto. cbn [interfaces].
      rewrite nth_error_list_set by (apply nth_error_Some; congruence). discriminate. }
  destruct Hex as (i' & Hi'). exists i'. split; [exact Hi'|].
  pose (P := fun (c : cursor) (w1 : World) =>
               (add_id c <= in_id c)%nat
               /\ forall i, nth_error (interfaces w1) inter = Some i ->
                            (in_id c <= List.length (Interface.edges i))%nat).
  apply (side_count_ind P (fun _ => True)) in Hrun; [| auto | |].
  - destruct Hrun as (_ & Hc). destruct (Hc eq_refl) as (c' & (H1 & H2) & H3).
    specialize (H2 _ Hi'). lia.
  - intros c w0 i o0 w0' (H1 & H2) Hi0 Hin Hadd Hb. unfold P.
    destruct Hb as [e He | c1 Hin1 Hadd1
                   | i0 base_edge subdiv es_p es_i p pan frac c1
                       Hi1 Hbase Hfrac Hff Hp Hpan Hsp Hsi Hin1 Hadd1]; [exact I | |].
    + split; [lia|]. intros i1 Hi1. rewrite Hi0 in Hi1. injection Hi1 as <-. lia.
    + split; [lia|]. intros i2 Hi2. cbn [interfaces] in Hi2.
      rewrite nth_error_list_set in Hi2 by (apply nth_error_Some; congruence).
      injection Hi2 as <-. cbn [Interface.edges].
      rewrite Hi0 in Hi1. injection Hi1 as <-.
      pose proof (substitute_length _ _ _ _ Hsi) as Hl.
      destruct (from_fractions_split_length _ _ _ _ Hfrac Hff) as (_ & Hl2 & _).
      lia.
  - split; simpl; [lia|]. intros; lia.
Qed.

(** The model's loop budget plays no part in the result. *)
Lemma side_count_budget (w w' : World) :
  _match_side_count inter to_add tol w <> (Raise LoopBudget, w').
Proof.
  unfold _match_side_count, bind at 1, get_interface.
  destruct (nth_error (interfaces w) inter) as [i|] eqn:Hi; [|discriminate].
  unfold bind at 1.
  destruct (match_side_loop _ inter to_add tol _ w) as [o1 w1] eqn:Hloop.
  destruct o1 as [c1|e1].
  - destruct (negb _); discriminate.
  - intro H. injection H as -> ->.
    revert Hloop. eapply match_side_loop_budget; eauto. simpl. lia.
Qed.

End SideCount.

(** ** Interfaces whose vertices are aligned already *)

Lemma Rsum_firstn_S (l : list R) (j : nat) (x : R) :
  nth_error l j = Some x -> Rsum (firstn (S j) l) = Rsum (firstn j l) + x.
Proof.
  revert j. induction l as [|y l IH]; intros j H.
  - destruct j; discriminate.
  - destruct j.
    + injection H as ->. simpl. ring.
    + simpl in H. change (y + Rsum (firstn (S j) l) = y + Rsum (firstn j l) + x).
      rewrite (IH _ H). ring.
Qed.

Lemma mapM_total {S A B} (f : A -> ST S B) (l : list A) (w : S) :
  (forall x, In x l -> exists y, f x w = (Ok y, w)) ->
  exists ys, mapM f l w = (Ok ys, w)
             /\ Forall2 (fun x y => f x w = (Ok y, w)) l ys.
Proof.
  induction l as [|x l IH]; intro H.
  - exists []. split; [reflexivity | constructor].
  - destruct (H x (or_introl eq_refl)) as (y & Hy).
    destruct IH as (ys & Hys & Hall); [intros; apply H; now right|].
    exists (y :: ys). split; [|now constructor].
    simpl. rewrite (bind_ok _ _ _ _ _ Hy), (bind_ok _ _ _ _ _ Hys). reflexivity.
Qed.

Lemma Forall2_nth_error {A B} (P : A -> B -> Prop) (l : list A) (l' : list B)
    (k : nat) (x : A) :
  Forall2 P l l' -> nth_error l k = Some x ->
  exists y, nth_error l' k = Some y /\ P x y.
Proof.
  intro H. revert k. induction H as [|a b l l' Hab H IH]; intros k Hk.
  - destruct k; discriminate.
  - destruct k as [|k]; simpl in Hk.
    + injection Hk as <-. exists b. split; [reflexivity | exact Hab].
    + destruct (IH k Hk) as (y & Hy & HP). exists y. split; assumption.
Qed.

Lemma nth_error_combine {A B} (l : list A) (l' : list B) (k : nat) (a : A) (b : B) :
  nth_error l k = Some a -> nth_error l' k = Some b ->
  nth_error (combine l l') k = Some (a, b).
Proof.
  revert l' k. induction l as [|x l IH]; intros l' k Ha Hb; [destruct k; discriminate|].
  destruct l' as [|y l']; [destruct k; discriminate|].
  destruct k; simpl in *; [congruence | now apply IH].
Qed.

Section Aligned.
Context `{GU : generic_utils} `{EM : edge_module} `{IM : interface_module}.

(** On aligned vertices the loop only ever takes its first branch. *)
Lemma loop_aligned (inter : nat) (to_add : list R) (tol : R) (w : World)
    (i : Interface.t) :
  nth_error (interfaces w) inter = Some i ->
  aligned tol (lengths (projecting_edges i)) to_add ->
  forall b j,
    (j <= List.length to_add)%nat ->
    (List.length to_add - j <= b)%nat ->
    exists c,
      match_side_loop b inter to_add tol
        (mkCursor j j (Rsum (firstn j (lengths (projecting_edges i))))
           (Rsum (firstn j to_add))) w
      = (Ok c, w)
      /\ add_id c = List.length to_add.
Proof.
  intros Hi (Hlen & Hal).
  assert (Hn : List.length (Interface.edges i) = List.length to_add).
  { rewrite <- Hlen. unfold lengths. now rewrite length_map, projecting_edges_len. }
  induction b as [|b IH]; intros j Hj Hb; rewrite loop_unroll, Hi; cbn [in_id add_id].
  - assert (j = List.length to_add) by lia. subst j.
    rewrite Hn, Nat.ltb_irrefl. eexists. split; reflexivity.
  - destruct (Nat.eq_dec j (List.length to_add)) as [->|Hne].
    + rewrite Hn, Nat.ltb_irrefl. eexists. split; reflexivity.
    + assert (Hlt : (j < List.length to_add)%nat) by lia.
      rewrite Hn. pose proof Hlt as Hlt'. apply Nat.ltb_lt in Hlt'. rewrite Hlt'.
      cbn [andb].
      destruct (nth_error (projecting_edges i) j) as [pe|] eqn:Hpe.
      2: { apply nth_error_None in Hpe. rewrite projecting_edges_len in Hpe. lia. }
      destruct (nth_error to_add j) as [a|] eqn:Ha.
      2: { apply nth_error_None in Ha. lia. }
      assert (Hl : nth_error (lengths (projecting_edges i)) j = Some (Edge_length pe)).
      { unfold lengths. rewrite nth_error_map, Hpe. reflexivity. }
      assert (Hc : close_enough
                     (Rsum (firstn j (lengths (projecting_edges i))) + Edge_length pe)
                     (Rsum (firstn j to_add) + a) tol = true).
      { apply close_enough_near.
        rewrite <- (Rsum_firstn_S _ _ _ Hl), <- (Rsum_firstn_S _ _ _ Ha).
        apply Hal. lia. }
      pose proof (body_skip inter to_add tol
                    (mkCursor j j (Rsum (firstn j (lengths (projecting_edges i))))
                       (Rsum (firstn j to_add))) w i pe a Hi Hpe Ha Hc) as Hbody.
      rewrite (bind_ok _ _ _ _ _ Hbody). cbn [in_id add_id covered_init covered_added].
      rewrite <- (Rsum_firstn_S _ _ _ Hl), <- (Rsum_firstn_S _ _ _ Ha).
      apply IH; lia.
Qed.

Lemma side_count_aligned (inter : nat) (to_add : list R) (tol : R) (w : World)
    (i : Interface.t) :
  nth_error (interfaces w) inter = Some i ->
  aligned tol (lengths (projecting_edges i)) to_add ->
  _match_side_count inter to_add tol w = (Ok tt, w).
Proof.
  intros Hi Hal. unfold _match_side_count.
  rewrite (bind_ok _ _ _ _ _ (get_interface_ok _ _ _ Hi)).
  destruct (loop_aligned inter to_add tol w i Hi Hal
              (List.length (Interface.edges i) + List.length to_add) 0)
    as (c & Hc & Hadd); [lia | lia |].
  simpl firstn in Hc. simpl Rsum in Hc.
  rewrite (bind_ok _ _ _ _ _ Hc), Hadd, Nat.eqb_refl. reflexivity.
Qed.

Lemma aligned_total (tol : R) (l to_add : list R) :
  aligned tol l to_add -> Rabs (Rsum l - Rsum to_add) < tol.
Proof.
  intros (Hlen & Hal). specialize (Hal (List.length l) (le_n _)).
  rewrite firstn_all in Hal. rewrite Hlen, firstn_all in Hal. exact Hal.
Qed.

Lemma isMatching_eval (w : World) (self : StitchingRule) (i1 i2 : Interface.t) :
  nth_error (interfaces w) (int1 self) = Some i1 ->
  nth_error (interfaces w) (int2 self) = Some i2 ->
  isMatching self w
  = (Ok (List.length (Interface.edges i1) =? List.length (Interface.edges i2))%nat, w).
Proof.
  intros H1 H2. unfold isMatching.
  rewrite (bind_ok _ _ _ _ _ (get_interface_ok _ _ _ H1)).
  rewrite (bind_ok _ _ _ _ _ (get_interface_ok _ _ _ H2)). reflexivity.
Qed.

(** The record that the loop of [assembly] builds for a pair of indices. *)
Lemma stitch_record_ok (w : World) (self : StitchingRule) (i1 i2 : Interface.t)
    (k j : nat) (s1 s2 : stitch_side) :
  nth_error (interfaces w) (int1 self) = Some i1 ->
  nth_error (interfaces w) (int2 self) = Some i2 ->
  side_at w i1 k = Some s1 ->
  side_at w i2 j = Some s2 ->
  stitch_record self (k, j) w = (Ok (s1, s2), w).
Proof.
  intros H1 H2. unfold side_at, stitch_record.
  destruct (nth_error (Interface.panel i1) k) as [p1|] eqn:Hp1; [|discriminate].
  destruct (nth_error (Interface.edges i1) k) as [e1|] eqn:He1; [|discriminate].
  destruct (nth_error (panels w) p1) as [pan1|] eqn:Hpan1; [|discriminate].
  destruct (nth_error (Interface.panel i2) j) as [p2|] eqn:Hp2; [|discriminate].
  destruct (nth_error (Interface.edges i2) j) as [e2|] eqn:He2; [|discriminate].
  destruct (nth_error (panels w) p2) as [pan2|] eqn:Hpan2; [|discriminate].
  intros E1 E2. injection E1 as <-. injection E2 as <-.
  rewrite (bind_ok _ _ _ _ _ (get_interface_ok _ _ _ H1)).
  rewrite (index_ok _ _ _ Hp1), bind_lift_ok.
  rewrite (bind_ok _ _ _ _ _ (get_panel_ok _ _ _ Hpan1)).
  rewrite (index_ok _ _ _ He1), bind_lift_ok.
  rewrite (bind_ok _ _ _ _ _ (get_interface_ok _ _ _ H2)).
  rewrite (index_ok _ _ _ Hp2), bind_lift_ok.
  rewrite (bind_ok _ _ _ _ _ (get_panel_ok _ _ _ Hpan2)).
  rewrite (index_ok _ _ _ He2), bind_lift_ok.
  reflexivity.
Qed.

Lemma valid_side_at (w : World) (i : Interface.t) (k : nat) :
  valid_interface w i ->
  (k < List.length (Interface.edges i))%nat ->
  exists s, side_at w i k = Some s.
Proof.
  intros (_ & Hlen & Hall) Hk. unfold side_at.
  destruct (nth_error (Interface.panel i) k) as [p|] eqn:Hp.
  2: { apply nth_error_None in Hp. lia. }
  destruct (nth_error (Interface.edges i) k) as [e|] eqn:He.
  2: { apply nth_error_None in He. lia. }
  rewrite Forall_forall in Hall.
  pose proof (Hall p (nth_error_In _ _ Hp)) as Hlt.
  apply nth_error_Some in Hlt.
  destruct (nth_error (panels w) p); [eauto | congruence].
Qed.

(** [assembly] on two interfaces with as many edges: the positional zip,
    read backwards on the second side when the traversal is swapped. *)
Lemma assembly_zip (w : World) (self : StitchingRule) (i1 i2 : Interface.t) (tm : bool) :
  binds w self i1 i2 ->
  isTraversalMatching self w = (Ok tm, w) ->
  List.length (Interface.edges i1) = List.length (Interface.edges i2) ->
  exists recs,
    assembly self w = (Ok recs, w)
    /\ List.length recs = List.length (Interface.edges i1)
    /\ forall k, (k < List.length (Interface.edges i1))%nat ->
         exists s1 s2,
           side_at w i1 k = Some s1
           /\ side_at w i2
                (if tm then k else List.length (Interface.edges i2) - 1 - k)%nat
              = Some s2
           /\ nth_error recs k = Some (s1, s2).
Proof.
  intros (H1 & H2 & V1 & V2) Htm Hlen.
  set (n := List.length (Interface.edges i1)) in *.
  set (js := if negb tm then rev (seq 0 n) else seq 0 n).
  assert (Hjs : List.length js = n).
  { unfold js. destruct (negb tm); rewrite ?length_rev; apply length_seq. }
  assert (Hjk : forall k, (k < n)%nat ->
                  nth_error js k = Some (if tm then k else n - 1 - k)%nat).
  { intros k Hk. unfold js. destruct tm; simpl negb; cbv iota.
    - rewrite nth_error_seq. apply Nat.ltb_lt in Hk. now rewrite Hk.
    - rewrite nth_error_rev, length_seq. apply Nat.ltb_lt in Hk. rewrite Hk.
      rewrite nth_error_seq. apply Nat.ltb_lt in Hk.
      replace (n - S k <? n)%nat with true by (symmetry; apply Nat.ltb_lt; lia).
      f_equal. lia. }
  assert (Hpairs : forall k, (k < n)%nat ->
             nth_error (combine (seq 0 n) js) k
             = Some (k, if tm then k else n - 1 - k)%nat).
  { intros k Hk.
    assert (Hs : nth_error (seq 0 n) k = Some k).
    { rewrite nth_error_seq. apply Nat.ltb_lt in Hk. now rewrite Hk. }
    exact (nth_error_combine _ _ _ _ _ Hs (Hjk k Hk)). }
  assert (Hrec : forall x, In x (combine (seq 0 n) js) ->
             exists y, stitch_record self x w = (Ok y, w)).
  { intros [k j] Hin. pose proof (in_combine_l _ _ _ _ Hin) as Hk.
    pose proof (in_combine_r _ _ _ _ Hin) as Hj.
    apply in_seq in Hk.
    assert (Hj' : (j < n)%nat).
    { unfold js in Hj. destruct (negb tm); [apply in_rev in Hj|];
        apply in_seq in Hj; lia. }
    destruct (valid_side_at w i1 k V1) as (s1 & Hs1); [fold n; lia|].
    destruct (valid_side_at w i2 j V2) as (s2 & Hs2); [rewrite <- Hlen; lia|].
    exists (s1, s2). eapply stitch_record_ok; eauto. }
  destruct (mapM_total _ _ _ Hrec) as (recs & Hrun & Hall).
  exists recs. split; [|split].
  - unfold assembly.
    rewrite (bind_ok _ _ _ _ _ (isMatching_eval _ _ _ _ H1 H2)).
    fold n. rewrite <- Hlen, Nat.eqb_refl. cbn [negb].
    rewrite (bind_ok _ _ _ _ _ Htm).
    rewrite (bind_ok _ _ _ _ _ (get_interface_ok _ _ _ H1)).
    rewrite (bind_ok _ _ _ _ _ (get_interface_ok _ _ _ H2)).
    fold n. rewrite <- Hlen. exact Hrun.
  - rewrite <- (Forall2_length Hall), length_combine, length_seq, Hjs. apply Nat.min_id.
  - intros k Hk.
    destruct (Forall2_nth_error _ _ _ _ _ Hall (Hpairs k Hk)) as ([s1 s2] & Hn & Hr).
    destruct (valid_side_at w i1 k V1) as (t1 & Ht1); [exact Hk|].
    destruct (valid_side_at w i2 (if tm then k else n - 1 - k)%nat V2) as (t2 & Ht2).
    { rewrite <- Hlen. fold n. destruct tm; lia. }
    rewrite (stitch_record_ok _ _ _ _ _ _ _ _ H1 H2 Ht1 Ht2) in Hr.
    injection Hr as <- <-.
    exists t1, t2. rewrite <- Hlen. fold n. auto.
Qed.

End Aligned.

(** ** The rule as a whole *)

Section RuleClaims.
Context `{GU : generic_utils} `{EM : edge_module} `{IM : interface_module}.

Lemma lengths_length (s : EdgeSequence vertex) : List.length (lengths s) = List.length s.
Proof. apply length_map. Qed.

(** C7, as the code has it: when the two interfaces have as many edges and
    their vertices are aligned -- after every edge the projected length
    covered on one side is within [tol] of the length covered on the other
    side, the other side being read backwards when the traversal is
    swapped -- [match_edge_count] returns and leaves the heap as it was,
    and [assembly] returns the positional zip: record [k] pairs edge [k]
    of the first interface with edge [k] of the second, or with edge
    [n - 1 - k] when the traversal is swapped.  Equal counts and equal
    totals are not enough for this. *)
Theorem match_edge_count_aligned (w : World) (self : StitchingRule)
    (i1 i2 : Interface.t) (tol : R) (tm : bool) :
  binds w self i1 i2 ->
  isTraversalMatching self w = (Ok tm, w) ->
  aligned tol (lengths (projecting_edges i1))
    (if tm then lengths (projecting_edges i2) else rev (lengths (projecting_edges i2))) ->
  aligned tol (lengths (projecting_edges i2))
    (if tm then lengths (projecting_edges i1) else rev (lengths (projecting_edges i1))) ->
  match_edge_count self tol w = (Ok tt, w)
  /\ exists recs,
       assembly self w = (Ok recs, w)
       /\ List.length recs = List.length (Interface.edges i1)
       /\ forall k, (k < List.length (Interface.edges i1))%nat ->
            exists s1 s2,
              side_at w i1 k = Some s1
              /\ side_at w i2
                   (if tm then k else List.length (Interface.edges i2) - 1 - k)%nat
                 = Some s2
              /\ nth_error recs k = Some (s1, s2).
Proof.
  intros Hb Htm Hal1 Hal2.
  assert (Hlen : List.length (Interface.edges i1) = List.length (Interface.edges i2)).
  { destruct Hal1 as (Hl & _).
    rewrite <- (projecting_edges_len i1), <- (projecting_edges_len i2).
    rewrite <- !lengths_length, Hl. destruct tm; [reflexivity | apply length_rev]. }
  split; [|eapply assembly_zip; eauto].
  destruct Hb as (H1 & H2 & _).
  unfold match_edge_count.
  rewrite (bind_ok _ _ _ _ _ (get_interface_ok _ _ _ H1)).
  rewrite (bind_ok _ _ _ _ _ Htm).
  rewrite (bind_ok _ _ _ _ _ (get_interface_ok _ _ _ H2)).
  rewrite (bind_ok _ _ _ _ _ Htm).
  assert (E : close_enough
                (Rsum (if negb tm then rev (lengths (projecting_edges i1))
                       else lengths (projecting_edges i1)))
                (Rsum (if negb tm then rev (lengths (projecting_edges i2))
                       else lengths (projecting_edges i2))) tol = true).
  { apply close_enough_near. apply aligned_total in Hal1.
    destruct tm; cbn [negb]; rewrite ?Rsum_rev in *; exact Hal1. }
  rewrite E. cbn [negb].
  assert (S1 : _match_side_count (int1 self)
                 (if negb tm then rev (lengths (projecting_edges i2))
                  else lengths (projecting_edges i2)) tol w = (Ok tt, w)).
  { apply (side_count_aligned _ _ _ _ i1 H1). destruct tm; exact Hal1. }
  assert (S2 : _match_side_count (int2 self)
                 (if negb tm then rev (lengths (projecting_edges i1))
                  else lengths (projecting_edges i1)) tol w = (Ok tt, w)).
  { apply (side_count_aligned _ _ _ _ i2 H2). destruct tm; exact Hal2. }
  rewrite (bind_ok _ _ _ _ _ S1). exact S2.
Qed.

Lemma match_edge_count_grows (self : StitchingRule) (tol : R) (w w' : World)
    (i1 i2 : Interface.t) :
  nth_error (interfaces w) (int1 self) = Some i1 ->
  nth_error (interfaces w) (int2 self) = Some i2 ->
  int1 self <> int2 self ->
  match_edge_count self tol w = (Ok tt, w') ->
  exists i1' i2',
    nth_error (interfaces w') (int1 self) = Some i1'
    /\ nth_error (interfaces w') (int2 self) = Some i2'
    /\ (List.length (Interface.edges i2) <= List.length (Interface.edges i1'))%nat
    /\ (List.length (Interface.edges i1) <= List.length (Interface.edges i2'))%nat.
Proof.
  intros H1 H2 Hne. unfold match_edge_count.
  rewrite (bind_ok _ _ _ _ _ (get_interface_ok _ _ _ H1)).
  unfold bind at 1.
  destruct (isTraversalMatching self w) as [o1 w1] eqn:Htm.
  pose proof (isTraversalMatching_frame _ _ _ _ Htm) as ->.
  destruct o1 as [tm|e]; [|discriminate].
  rewrite (bind_ok _ _ _ _ _ (get_interface_ok _ _ _ H2)).
  rewrite (bind_ok _ _ _ _ _ Htm).
  destruct (negb (close_enough _ _ tol)); [discriminate|].
  unfold bind at 1.
  destruct (_match_side_count (int1 self) _ tol w) as [o3 w3] eqn:S1.
  destruct o3 as [[]|e]; [|discriminate].
  intro S2.
  destruct (side_count_grows _ _ _ _ _ S1) as (i1' & Hi1' & Hl1).
  destruct (side_count_grows _ _ _ _ _ S2) as (i2' & Hi2' & Hl2).
  exists i1', i2'. split; [|split; [exact Hi2'|]].
  - rewrite (side_count_others _ _ _ _ _ _ _ S2) by exact Hne. exact Hi1'.
  - split.
    + etransitivity; [|exact Hl1].
      destruct (negb tm); rewrite ?length_rev, lengths_length, projecting_edges_len;
        apply le_n.
    + etransitivity; [|exact Hl2].
      destruct (negb tm); rewrite ?length_rev, lengths_length, projecting_edges_len;
        apply le_n.
Qed.

(** C10, as the code has it: the constructor of a rule on two interfaces
    with as many edges writes nothing; on interfaces with different edge
    counts it runs [match_edge_count] with the default tolerance, so that
    the heap it leaves is the heap [match_edge_count] leaves, and it raises
    what [match_edge_count] raises.  When it returns, each interface has at
    least as many edges as the other one had: the side with fewer edges
    has been subdivided, the other side need not have changed.
    [Stitches.append] is this constructor followed by an append. *)
Theorem StitchingRule_init_spec (w : World) (n1 n2 : nat) (i1 i2 : Interface.t) :
  nth_error (interfaces w) n1 = Some i1 ->
  nth_error (interfaces w) n2 = Some i2 ->
  (List.length (Interface.edges i1) = List.length (Interface.edges i2) ->
   StitchingRule_init n1 n2 w = (Ok (mkRule n1 n2), w))
  /\ (List.length (Interface.edges i1) <> List.length (Interface.edges i2) ->
      StitchingRule_init n1 n2 w
      = (match fst (match_edge_count (mkRule n1 n2) default_tol w) with
         | Ok _ => Ok (mkRule n1 n2)
         | Raise e => Raise e
         end,
         snd (match_edge_count (mkRule n1 n2) default_tol w))
      /\ forall r w',
           StitchingRule_init n1 n2 w = (Ok r, w') ->
           exists i1' i2',
             nth_error (interfaces w') n1 = Some i1'
             /\ nth_error (interfaces w') n2 = Some i2'
             /\ (List.length (Interface.edges i2)
                 <= List.length (Interface.edges i1'))%nat
             /\ (List.length (Interface.edges i1)
                 <= List.length (Interface.edges i2'))%nat)
  /\ forall rules : Stitches,
       Stitches_append rules (n1, n2) w
       = (match fst (StitchingRule_init n1 n2 w) with
          | Ok r => Ok (rules ++ [r])
          | Raise e => Raise e
          end,
          snd (StitchingRule_init n1 n2 w)).
Proof.
  intros H1 H2.
  assert (Hm : isMatching (mkRule n1 n2) w
               = (Ok (List.length (Interface.edges i1)
                      =? List.length (Interface.edges i2))%nat, w))
    by (apply isMatching_eval; assumption).
  split; [|split].
  - intro Hlen. unfold StitchingRule_init.
    rewrite (bind_ok _ _ _ _ _ Hm), Hlen, Nat.eqb_refl. reflexivity.
  - intro Hlen.
    assert (Hinit : StitchingRule_init n1 n2 w
                    = (match fst (match_edge_count (mkRule n1 n2) default_tol w) with
                       | Ok _ => Ok (mkRule n1 n2)
                       | Raise e => Raise e
                       end,
                       snd (match_edge_count (mkRule n1 n2) default_tol w))).
    { unfold StitchingRule_init. rewrite (bind_ok _ _ _ _ _ Hm).
      apply Nat.eqb_neq in Hlen. rewrite Hlen. cbn [negb]. unfold bind.
      destruct (match_edge_count (mkRule n1 n2) default_tol w) as [[[]|e] w1];
        reflexivity. }
    split; [exact Hinit|].
    intros r w' Hrun. rewrite Hinit in Hrun.
    destruct (match_edge_count (mkRule n1 n2) default_tol w) as [[[]|e] w1] eqn:Hmec;
      cbn [fst snd] in Hrun; [|discriminate].
    injection Hrun as _ <-.
    apply (match_edge_count_grows (mkRule n1 n2) default_tol w w1 i1 i2 H1 H2);
      [|exact Hmec].
    cbn [int1 int2]. intros ->. rewrite H1 in H2. injection H2 as ->. congruence.
  - intro rules. unfold Stitches_append, bind. cbn [fst snd].
    destruct (StitchingRule_init n1 n2 w) as [[r|e] w1]; reflexivity.
Qed.

End RuleClaims.

(** ** Runs on the example heaps *)

Lemma chord_project_on_line (x0 x1 x y : R) :
  x0 <> x1 -> chord_project (x0, y) (vsub (x1, y) (x0, y)) (x, y) = (x, y).
Proof.
  intro H. unfold chord_project, vsub. cbn [fst snd].
  assert (Hd : (x1 - x0) * (x1 - x0) + (y - y) * (y - y) <> 0) by nra.
  f_equal; field; exact Hd.
Qed.

(** The chord projection of an interface whose vertices all lie on one
    horizontal line: the edges themselves, made straight. *)
Lemma chord_projecting_horizontal (i : Interface.t) (e0 : Edge vertex)
    (rest : EdgeSequence vertex) (x0 x1 y : R) :
  Interface.edges i = e0 :: rest ->
  start e0 = (x0, y) ->
  end_ (List.last (e0 :: rest) e0) = (x1, y) ->
  x0 <> x1 ->
  Forall (fun e => snd (start e) = y /\ snd (end_ e) = y) (e0 :: rest) ->
  chord_projecting_edges i
  = map (fun e => mkEdge (start e) (end_ e) [] (geometric_id e)) (e0 :: rest).
Proof.
  intros He Hs Hl Hne Hall. unfold chord_projecting_edges. rewrite He, Hs, Hl.
  apply map_ext_in. intros e Hin. rewrite Forall_forall in Hall.
  destruct (Hall e Hin) as (H1 & H2).
  destruct e as [[sx sy] [ex ey] cps g]. cbn [start end_ geometric_id fst snd] in *.
  subst sy ey. now rewrite !chord_project_on_line.
Qed.

Section Runs.
Context `{GU : generic_utils} `{EM : edge_module}.

Lemma Edge_length_hedge (x0 x1 : R) (g : nat) :
  x0 <= x1 -> Edge_length (hedge x0 x1 g) = x1 - x0.
Proof.
  intro H. unfold Edge_length, hedge, norm, vsub. cbn [control_points start end_ fst snd].
  apply sqrt_eq; [lra | ring].
Qed.

Lemma loop_step `{IM : interface_module}
    (inter : nat) (to_add : list R) (tol : R) (b : nat) (c c' : cursor)
    (w w' : World) (i : Interface.t) :
  nth_error (interfaces w) inter = Some i ->
  (in_id c < List.length (Interface.edges i))%nat ->
  (add_id c < List.length to_add)%nat ->
  match_side_body inter to_add tol c w = (Ok c', w') ->
  match_side_loop (S b) inter to_add tol c w = match_side_loop b inter to_add tol c' w'.
Proof.
  intros Hi H1 H2 Hbody. rewrite loop_unroll, Hi.
  apply Nat.ltb_lt in H1, H2. rewrite H1, H2. cbn [andb].
  now rewrite (bind_ok _ _ _ _ _ Hbody).
Qed.

Lemma loop_done `{IM : interface_module}
    (inter : nat) (to_add : list R) (tol : R) (b : nat) (c : cursor)
    (w : World) (i : Interface.t) :
  nth_error (interfaces w) inter = Some i ->
  ((in_id c <? List.length (Interface.edges i))
   && (add_id c <? List.length to_add))%nat = false ->
  match_side_loop b inter to_add tol c w = (Ok c, w).
Proof. intros Hi Hc. now rewrite loop_unroll, Hi, Hc. Qed.

Lemma substitute_head (e : Edge vertex) (l new : EdgeSequence vertex) :
  substitute (e :: l) e new = Ok (map (inherit e) new ++ l).
Proof. simpl. destruct (Edge_eq_dec e e); [reflexivity | congruence]. Qed.

Lemma substitute_tail (x e : Edge vertex) (l new r : EdgeSequence vertex) :
  x <> e -> substitute l e new = Ok r -> substitute (x :: l) e new = Ok (x :: r).
Proof.
  intros Hne Hr. simpl. destruct (Edge_eq_dec x e); [contradiction|].
  now rewrite Hr.
Qed.

(** Cutting a horizontal segment at the fraction [f], at a point that
    differs from both ends. *)
Lemma from_fractions_hsplit (x0 x1 f m : R) :
  0 <= f <= 1 ->
  m = x0 + f * (x1 - x0) ->
  same_vertex (x0, 0) (m, 0) = false ->
  same_vertex (m, 0) (x1, 0) = false ->
  EdgeSeqFactory.from_fractions (x0, 0) (x1, 0) [f; 1 - f]
  = Ok [Edge_new (x0, 0) (m, 0); Edge_new (m, 0) (x1, 0)].
Proof.
  intros Hf -> H0 H1.
  assert (Hc : close_enough (Rsum (map Rabs [f; 1 - f])) 1 (1 / 10000) = true).
  { apply close_enough_near. cbn [map Rsum].
    rewrite (Rabs_pos_eq f), (Rabs_pos_eq (1 - f)) by lra.
    replace (f + (1 - f + 0) - 1) with 0 by ring. rewrite Rabs_R0. lra. }
  rewrite (from_fractions_ok _ _ _ Hc).
  cbn [map removelast EdgeSeqFactory.inner_verts chain steps_differ
       app vsub fst snd].
  rewrite (Rabs_pos_eq f) by lra.
  replace (0 + f * (0 - 0)) with 0 by ring.
  rewrite H0, H1. reflexivity.
Qed.

Section TStitch.
Variables (x1 a tol : R) (cps : list vertex).
Hypothesis Htol : 0 < tol.
Hypothesis Ha : tol < a.
Hypothesis Hb : tol < x1 - a.
Hypothesis Hcut0 : same_vertex (0, 0) (a, 0) = false.
Hypothesis Hcut1 : same_vertex (a, 0) (x1, 0) = false.

Lemma T_projecting_A :
  projecting_edges (T_interface_A x1 cps) = [hedge 0 x1 0].
Proof.
  change (chord_projecting_edges (T_interface_A x1 cps) = [hedge 0 x1 0]).
  rewrite (chord_projecting_horizontal _ (T_edge_A x1 cps) [] 0 x1 0);
    try reflexivity; [lra | repeat constructor].
Qed.

Lemma T_projecting_A_split :
  projecting_edges (T_interface_A_split x1 a) = [hedge 0 a 0; hedge a x1 0].
Proof.
  change (chord_projecting_edges (T_interface_A_split x1 a)
          = [hedge 0 a 0; hedge a x1 0]).
  rewrite (chord_projecting_horizontal _ (hedge 0 a 0) [hedge a x1 0] 0 x1 0);
    try reflexivity; [lra | repeat constructor].
Qed.

Lemma T_projecting_B :
  projecting_edges (T_interface_B x1 a) = [hedge 0 a 0; hedge a x1 1].
Proof.
  change (chord_projecting_edges (T_interface_B x1 a) = [hedge 0 a 0; hedge a x1 1]).
  rewrite (chord_projecting_horizontal _ (hedge 0 a 0) [hedge a x1 1] 0 x1 0);
    try reflexivity; [lra | repeat constructor].
Qed.

(** First turn on side A: the edge is cut at [a]. *)
Lemma T_step_A1 :
  match_side_body 0 [a; x1 - a] tol (mkCursor 0 0 0 0) (T_world x1 a cps)
  = (Ok (mkCursor 1 1 a a), T_world_split x1 a).
Proof.
  assert (Hlen : Edge_length (hedge 0 x1 0) = x1)
    by (rewrite Edge_length_hedge; lra).
  rewrite (body_split 0 [a; x1 - a] tol (mkCursor 0 0 0 0) (T_world x1 a cps)
             (T_interface_A x1 cps) (hedge 0 x1 0) a eq_refl
             (f_equal (fun l => nth_error l 0) T_projecting_A) eq_refl
             (T_edge_A x1 cps) (Edge_new (0, 0) (a, 0))
             [Edge_new (0, 0) (a, 0); Edge_new (a, 0) (x1, 0)]
             (hedge 0 a 0 :: hedge a x1 0 :: box x1 1)
             [hedge 0 a 0; hedge a x1 0] 0 (T_panel_A x1 cps)).
  - cbn [covered_init covered_added add_id in_id].
    assert (E : Edge_length (Edge_new (0, 0) (a, 0)) = a).
    { change (Edge_length (hedge 0 a new_geometric_id) = a).
      rewrite Edge_length_hedge; lra. }
    rewrite E. replace (0 + a) with a by ring. reflexivity.
  - apply close_enough_far. cbn [covered_init covered_added]. rewrite Hlen.
    replace (0 + x1 - (0 + a)) with (x1 - a) by ring.
    rewrite Rabs_pos_eq; lra.
  - cbn [covered_init covered_added]. rewrite Hlen. lra.
  - rewrite Hlen. lra.
  - reflexivity.
  - cbn [covered_init covered_added T_edge_A start end_]. rewrite Hlen.
    apply from_fractions_hsplit.
    + split.
      * apply Rmult_le_pos; [lra|]. apply Rlt_le, Rinv_0_lt_compat. lra.
      * apply Rmult_le_reg_r with (r := x1); [lra|].
        unfold Rdiv. rewrite Rmult_assoc, Rinv_l by lra. lra.
    + field. lra.
    + exact Hcut0.
    + exact Hcut1.
  - reflexivity.
  - reflexivity.
  - apply substitute_head.
  - apply substitute_head.
  - reflexivity.
Qed.

(** Second turn on side A: the end of the second sub-edge is the end of
    B's second edge. *)
Lemma T_step_A2 :
  exists c,
    match_side_body 0 [a; x1 - a] tol (mkCursor 1 1 a a) (T_world_split x1 a)
    = (Ok c, T_world_split x1 a)
    /\ in_id c = 2%nat /\ add_id c = 2%nat.
Proof.
  eexists. split.
  - apply (body_skip 0 [a; x1 - a] tol (mkCursor 1 1 a a) (T_world_split x1 a)
             (T_interface_A_split x1 a) (hedge a x1 0) (x1 - a) eq_refl
             (f_equal (fun l => nth_error l 1) T_projecting_A_split) eq_refl).
    apply close_enough_near. cbn [covered_init covered_added].
    rewrite Edge_length_hedge by lra.
    replace (a + (x1 - a) - (a + (x1 - a))) with 0 by ring. rewrite Rabs_R0. lra.
  - split; reflexivity.
Qed.

Lemma T_side_A :
  _match_side_count 0 [a; x1 - a] tol (T_world x1 a cps) = (Ok tt, T_world_split x1 a).
Proof.
  unfold _match_side_count.
  rewrite (bind_ok _ _ _ _ _ (get_interface_ok (T_world x1 a cps) 0 _ eq_refl)).
  cbn [T_interface_A Interface.edges List.length Nat.add].
  destruct T_step_A2 as (c & Hc & Hin & Hadd).
  assert (Hloop : match_side_loop 3 0 [a; x1 - a] tol (mkCursor 0 0 0 0)
                    (T_world x1 a cps)
                  = (Ok c, T_world_split x1 a)).
  { erewrite (loop_step 0 _ tol);
      [| reflexivity | cbn; lia | cbn; lia | exact T_step_A1].
    erewrite (loop_step 0 _ tol);
      [| reflexivity | cbn; lia | cbn; lia | exact Hc].
    apply (loop_done 0 _ tol _ c (T_world_split x1 a) (T_interface_A_split x1 a) eq_refl).
    rewrite Hin. reflexivity. }
  rewrite (bind_ok _ _ _ _ _ Hloop), Hadd. reflexivity.
Qed.

(** Side B has the vertex already: nothing is written. *)
Lemma T_side_B :
  _match_side_count 1 [x1] tol (T_world_split x1 a) = (Ok tt, T_world_split x1 a).
Proof.
  assert (S1 : match_side_body 1 [x1] tol (mkCursor 0 0 0 0) (T_world_split x1 a)
               = (Ok (mkCursor 0 1 (0 + Edge_length (hedge 0 a 0)) 0),
                  T_world_split x1 a)).
  { apply (body_advance 1 [x1] tol (mkCursor 0 0 0 0) (T_world_split x1 a)
             (T_interface_B x1 a) (hedge 0 a 0) x1 eq_refl
             (f_equal (fun l => nth_error l 0) T_projecting_B) eq_refl);
      cbn [covered_init covered_added]; rewrite Edge_length_hedge by lra.
    - apply close_enough_far.
      replace (0 + (a - 0) - (0 + x1)) with (- (x1 - a)) by ring.
      rewrite Rabs_Ropp, Rabs_pos_eq; lra.
    - lra. }
  assert (S2 : exists c,
             match_side_body 1 [x1] tol (mkCursor 0 1 (0 + Edge_length (hedge 0 a 0)) 0)
               (T_world_split x1 a)
             = (Ok c, T_world_split x1 a) /\ in_id c = 2%nat /\ add_id c = 1%nat).
  { eexists. split.
    - apply (body_skip 1 [x1] tol
               (mkCursor 0 1 (0 + Edge_length (hedge 0 a 0)) 0) (T_world_split x1 a)
               (T_interface_B x1 a) (hedge a x1 1) x1 eq_refl
               (f_equal (fun l => nth_error l 1) T_projecting_B) eq_refl).
      apply close_enough_near. cbn [covered_init covered_added].
      rewrite !Edge_length_hedge by lra.
      replace (0 + (a - 0) + (x1 - a) - (0 + x1)) with 0 by ring.
      rewrite Rabs_R0. lra.
    - split; reflexivity. }
  destruct S2 as (c & Hc & Hin & Hadd).
  unfold _match_side_count.
  rewrite (bind_ok _ _ _ _ _ (get_interface_ok (T_world_split x1 a) 1 _ eq_refl)).
  cbn [T_interface_B Interface.edges List.length Nat.add].
  assert (Hloop : match_side_loop 3 1 [x1] tol (mkCursor 0 0 0 0) (T_world_split x1 a)
                  = (Ok c, T_world_split x1 a)).
  { erewrite (loop_step 1 _ tol);
      [| reflexivity | cbn; lia | cbn; lia | exact S1].
    erewrite (loop_step 1 _ tol);
      [| reflexivity | cbn; lia | cbn; lia | exact Hc].
    apply (loop_done 1 _ tol _ c (T_world_split x1 a) (T_interface_B x1 a) eq_refl).
    rewrite Hin. reflexivity. }
  rewrite (bind_ok _ _ _ _ _ Hloop), Hadd. reflexivity.
Qed.

(** The whole of [match_edge_count] on the T-stitch. *)
Lemma T_match_edge_count :
  match_edge_count T_rule tol (T_world x1 a cps) = (Ok tt, T_world_split x1 a).
Proof.
  unfold match_edge_count.
  rewrite (bind_ok _ _ _ _ _ (get_interface_ok (T_world x1 a cps) 0 _ eq_refl)).
  assert (Htm : isTraversalMatching T_rule (T_world x1 a cps)
                = (Ok true, T_world x1 a cps)) by reflexivity.
  rewrite (bind_ok _ _ _ _ _ Htm).
  rewrite (bind_ok _ _ _ _ _ (get_interface_ok (T_world x1 a cps) 1 _ eq_refl)).
  rewrite (bind_ok _ _ _ _ _ Htm). cbn [negb].
  rewrite T_projecting_A, T_projecting_B. cbn [lengths map].
  rewrite !Edge_length_hedge by lra.
  replace (a - 0) with a by ring. replace (x1 - 0) with x1 by ring.
  assert (E : close_enough (Rsum [x1]) (Rsum [a; x1 - a]) tol = true).
  { apply close_enough_near. cbn [Rsum].
    replace (x1 + 0 - (a + (x1 - a + 0))) with 0 by ring. rewrite Rabs_R0. lra. }
  rewrite E. cbn [negb].
  rewrite (bind_ok _ _ _ _ _ T_side_A). exact T_side_B.
Qed.

End TStitch.

End Runs.

(** ** The claims on the example heaps *)

Lemma default_tol_pos : 0 < default_tol.
Proof. unfold default_tol. lra. Qed.

Lemma norm3_eq (x y z m : R) : 0 <= m -> x * x + y * y + z * z = m * m -> norm3 (x, y, z) = m.
Proof. intros Hm H. unfold norm3. now apply sqrt_eq. Qed.

Lemma norm3_ge (x y z m : R) :
  0 <= m -> m * m <= x * x + y * y + z * z -> m <= norm3 (x, y, z).
Proof.
  intros Hm H. unfold norm3. rewrite <- (sqrt_square m) by exact Hm.
  now apply sqrt_le_1_alt.
Qed.

Lemma T_split_valid_A (x1 a : R) :
  valid_interface (T_world_split x1 a) (T_interface_A_split x1 a).
Proof.
  split; [discriminate|]. split; [reflexivity|].
  repeat constructor.
Qed.

Lemma T_split_valid_B (x1 a : R) :
  valid_interface (T_world_split x1 a) (T_interface_B x1 a).
Proof.
  split; [discriminate|]. split; [reflexivity|].
  repeat constructor.
Qed.

Lemma T_split_binds (x1 a : R) :
  binds (T_world_split x1 a) T_rule (T_interface_A_split x1 a) (T_interface_B x1 a).
Proof.
  split; [reflexivity|]. split; [reflexivity|].
  split; [apply T_split_valid_A | apply T_split_valid_B].
Qed.

(** Two sides that run in parallel, one above the other: the declared
    pairing is not longer than the reversed one. *)
Lemma parallel_corners (x1 : R) :
  Rltb (reverse_distance ((0, 0, 0), (x1, 0, 0)) ((0, 0, 1), (x1, 0, 1)))
       (straight_distance ((0, 0, 0), (x1, 0, 0)) ((0, 0, 1), (x1, 0, 1))) = false.
Proof.
  apply Rltb_false. apply Rle_not_lt.
  unfold straight_distance, reverse_distance, sub3. cbn [fst snd].
  rewrite (norm3_eq (0 - 0) (0 - 0) (1 - 0) 1) by lra.
  rewrite (norm3_eq (x1 - x1) (0 - 0) (1 - 0) 1) by lra.
  pose proof (norm3_ge (0 - x1) (0 - 0) (1 - 0) 1) as H1.
  pose proof (norm3_ge (x1 - 0) (0 - 0) (1 - 0) 1) as H2.
  assert (1 <= norm3 (0 - x1, 0 - 0, 1 - 0)) by (apply H1; nra).
  assert (1 <= norm3 (x1 - 0, 0 - 0, 1 - 0)) by (apply H2; nra).
  lra.
Qed.

(** After the cut the two sides of the T-stitch run in the same direction. *)
Lemma T_split_traversal (x1 a : R) :
  isTraversalMatching T_rule (T_world_split x1 a) = (Ok true, T_world_split x1 a).
Proof.
  rewrite (isTraversalMatching_eval (T_world_split x1 a) T_rule
             (T_interface_A_split x1 a) (T_interface_B x1 a)
             ((0, 0, 0), (x1, 0, 0)) ((0, 0, 1), (x1, 0, 1)) eq_refl eq_refl
             eq_refl eq_refl).
  now rewrite parallel_corners, andb_false_r.
Qed.



(** C10 fails as stated: the constructor on the T-stitch (1 edge against
    2) subdivides interface A and the boundary of panel A, but interface B
    and the boundary of panel B are after the call what they were before. *)
Lemma T_stitch_leaves_B_alone :
  List.length (Interface.edges (T_interface_A 10 []))
  <> List.length (Interface.edges (T_interface_B 10 4))
  /\ exists w',
       StitchingRule_init 0 1 (T_world 10 4 []) = (Ok T_rule, w')
       /\ nth_error (interfaces w') 0 <> nth_error (interfaces (T_world 10 4 [])) 0
       /\ nth_error (interfaces w') 1 = nth_error (interfaces (T_world 10 4 [])) 1
       /\ nth_error (panels w') 1 = nth_error (panels (T_world 10 4 [])) 1.
Proof.
  split; [discriminate|]. exists (T_world_split 10 4). split; [|split; [|split]].
  - unfold StitchingRule_init.
    rewrite (bind_ok _ _ _ _ _
               (isMatching_eval (T_world 10 4 []) (mkRule 0 1) _ _ eq_refl eq_refl)).
    cbn [T_interface_A T_interface_B Interface.edges List.length Nat.eqb negb].
    fold T_rule.
    rewrite (bind_ok _ _ _ _ _
               (T_match_edge_count 10 4 default_tol [] default_tol_pos
                  ltac:(unfold default_tol; lra) ltac:(unfold default_tol; lra)
                  ltac:(apart) ltac:(apart))).
    reflexivity.
  - change (Some (T_interface_A_split 10 4) <> Some (T_interface_A 10 [])).
    intro E. apply (f_equal (option_map (fun i => List.length (Interface.panel i)))) in E.
    discriminate E.
  - reflexivity.
  - reflexivity.
Qed.

(** Whatever the edge module takes as the length of a curved edge: the
    curved edge from (0,0) to (6,0) is cut into the straight edges from 0
    to 2 and from 2 to 6, so the interface is 6 long after the call, and
    its length has changed by more than the tolerance whenever the curve
    was that much longer than its chord. *)
Lemma curved_edge_cut_to_chord `{GU : generic_utils} `{EM : edge_module}
    (cp : vertex) (cps : list vertex) :
  same_vertex (0, 0) (2, 0) = false ->
  same_vertex (2, 0) (6, 0) = false ->
  match_edge_count T_rule default_tol (T_world 6 2 (cp :: cps))
  = (Ok tt, T_world_split 6 2)
  /\ Rsum (lengths (Interface.edges (T_interface_A 6 (cp :: cps))))
     = curve_length (0, 0) (6, 0) (cp :: cps)
  /\ Rsum (lengths (Interface.edges (T_interface_A_split 6 2))) = 6.
Proof.
  intros H0 H1. split; [|split].
  - apply T_match_edge_count; try assumption; unfold default_tol; lra.
  - cbn [T_interface_A Interface.edges lengths map Rsum].
    unfold Edge_length, T_edge_A. cbn [control_points start end_]. ring.
  - cbn [T_interface_A_split Interface.edges lengths map Rsum].
    rewrite !Edge_length_hedge by lra. lra.
Qed.

(** C5 fails as stated: a curved edge from (0,0) to (6,0) whose arc --
    measured by the inscribed two-chord polygon -- is 10 long is cut by
    [match_edge_count] into the straight edges from 0 to 2 and from 2 to 6:
    the interface is 10 long before the call and 6 long after it. *)
Lemma curved_edge_loses_length :
  let cps := [(1 / 2, 4 / 3)] in
  match_edge_count T_rule default_tol (T_world 6 2 cps) = (Ok tt, T_world_split 6 2)
  /\ nth_error (interfaces (T_world 6 2 cps)) 0 = Some (T_interface_A 6 cps)
  /\ nth_error (interfaces (T_world_split 6 2)) 0 = Some (T_interface_A_split 6 2)
  /\ Rsum (lengths (Interface.edges (T_interface_A 6 cps))) = 10
  /\ Rsum (lengths (Interface.edges (T_interface_A_split 6 2))) = 6
  /\ default_tol < Rabs (10 - 6).
Proof.
  cbv zeta. split; [|split; [|split; [|split; [|split]]]].
  - apply T_match_edge_count; try apart; unfold default_tol; lra.
  - reflexivity.
  - reflexivity.
  - cbn [T_interface_A Interface.edges lengths map Rsum].
    unfold Edge_length, T_edge_A.
    cbn [control_points start end_ curve_length sampled_edges two_chord_length].
    unfold norm, bezier_mid. unfold vsub. cbn [fst snd].
    rewrite (sqrt_eq _ 5), (sqrt_eq _ 5); lra.
  - cbn [T_interface_A_split Interface.edges lengths map Rsum].
    rewrite !Edge_length_hedge by lra. lra.
  - unfold default_tol. rewrite Rabs_pos_eq; lra.
Qed.

(** *** Equal counts, equal totals, different vertices *)

Lemma U_projecting (i : Interface.t) (e0 : Edge vertex) (rest : EdgeSequence vertex) :
  Interface.edges i = e0 :: rest ->
  start e0 = (0, 0) ->
  end_ (List.last (e0 :: rest) e0) = (10, 0) ->
  Forall (fun e => snd (start e) = 0 /\ snd (end_ e) = 0 /\ control_points e = [])
         (e0 :: rest) ->
  projecting_edges i = e0 :: rest.
Proof.
  intros He Hs Hl Hall.
  change (chord_projecting_edges i = e0 :: rest).
  rewrite (chord_projecting_horizontal i e0 rest 0 10 0 He Hs Hl); [|lra|].
  - rewrite <- (map_id (e0 :: rest)) at 2. apply map_ext_in.
    intros e Hin. rewrite Forall_forall in Hall.
    destruct (Hall e Hin) as (_ & _ & Hc). destruct e; simpl in *. now subst.
  - eapply Forall_impl; [|exact Hall]. intros e (H1 & H2 & _). auto.
Qed.

Lemma U_projecting_A : projecting_edges U_interface_A = [hedge 0 4 0; hedge 4 10 1].
Proof. apply U_projecting; try reflexivity. repeat constructor. Qed.

Lemma U_projecting_B : projecting_edges U_interface_B = [hedge 0 5 0; hedge 5 10 1].
Proof. apply U_projecting; try reflexivity. repeat constructor. Qed.

Lemma U_projecting_A_split :
  projecting_edges U_interface_A_split = [hedge 0 4 0; hedge 4 5 1; hedge 5 10 1].
Proof. apply U_projecting; try reflexivity. repeat constructor. Qed.

Lemma U_projecting_B_split :
  projecting_edges U_interface_B_split = [hedge 0 4 0; hedge 4 5 0; hedge 5 10 1].
Proof. apply U_projecting; try reflexivity. repeat constructor. Qed.

Ltac lengths_lra :=
  cbn [covered_init covered_added];
  rewrite ?Edge_length_hedge by lra;
  try lra.

Ltac far_lra :=
  apply close_enough_far; unfold default_tol; lengths_lra;
  unfold Rabs; destruct Rcase_abs; lra.

Ltac near_lra :=
  apply close_enough_near; unfold default_tol; lengths_lra;
  unfold Rabs; destruct Rcase_abs; lra.

(** Side A against the lengths 5 and 5: move on, cut the second edge at 5,
    arrive. *)
Lemma U_step_A1 :
  match_side_body 0 [5; 5] default_tol (mkCursor 0 0 0 0) U_world
  = (Ok (mkCursor 0 1 (0 + Edge_length (hedge 0 4 0)) 0), U_world).
Proof.
  apply (body_advance 0 [5; 5] default_tol (mkCursor 0 0 0 0) U_world
           U_interface_A (hedge 0 4 0) 5 eq_refl
           (f_equal (fun l => nth_error l 0) U_projecting_A) eq_refl).
  - far_lra.
  - lengths_lra.
Qed.

Lemma U_step_A2 :
  match_side_body 0 [5; 5] default_tol
    (mkCursor 0 1 (0 + Edge_length (hedge 0 4 0)) 0) U_world
  = (Ok (mkCursor 1 2 5 5), U_world_1).
Proof.
  rewrite (body_split 0 [5; 5] default_tol
             (mkCursor 0 1 (0 + Edge_length (hedge 0 4 0)) 0) U_world
             U_interface_A (hedge 4 10 1) 5 eq_refl
             (f_equal (fun l => nth_error l 1) U_projecting_A) eq_refl
             (hedge 4 10 1) (Edge_new (4, 0) (5, 0))
             [Edge_new (4, 0) (5, 0); Edge_new (5, 0) (10, 0)]
             (hedge 0 4 0 :: hedge 4 5 1 :: hedge 5 10 1 :: box 10 2)
             [hedge 0 4 0; hedge 4 5 1; hedge 5 10 1] 0 U_panel_A).
  - cbn [covered_init covered_added add_id in_id].
    change (Edge_new (4, 0) (5, 0)) with (hedge 4 5 new_geometric_id).
    rewrite !Edge_length_hedge by lra.
    replace (0 + (4 - 0) + (5 - 4)) with 5 by lra. replace (0 + 5) with 5 by lra.
    reflexivity.
  - far_lra.
  - lengths_lra.
  - lengths_lra.
  - reflexivity.
  - cbn [covered_init covered_added start end_ hedge].
    rewrite !Edge_length_hedge by lra.
    apply from_fractions_hsplit; try apart; lra.
  - reflexivity.
  - reflexivity.
  - apply substitute_tail; [|apply substitute_head].
    intro E. apply (f_equal geometric_id) in E. discriminate E.
  - apply substitute_tail; [|apply substitute_head].
    intro E. apply (f_equal geometric_id) in E. discriminate E.
  - reflexivity.
Qed.

Lemma U_step_A3 :
  exists c,
    match_side_body 0 [5; 5] default_tol (mkCursor 1 2 5 5) U_world_1 = (Ok c, U_world_1)
    /\ in_id c = 3%nat /\ add_id c = 2%nat.
Proof.
  eexists. split.
  - apply (body_skip 0 [5; 5] default_tol (mkCursor 1 2 5 5) U_world_1
             U_interface_A_split (hedge 5 10 1) 5 eq_refl
             (f_equal (fun l => nth_error l 2) U_projecting_A_split) eq_refl).
    near_lra.
  - split; reflexivity.
Qed.

Lemma U_side_A : _match_side_count 0 [5; 5] default_tol U_world = (Ok tt, U_world_1).
Proof.
  destruct U_step_A3 as (c & Hc & Hin & Hadd).
  unfold _match_side_count.
  rewrite (bind_ok _ _ _ _ _ (get_interface_ok U_world 0 _ eq_refl)).
  cbn [U_interface_A Interface.edges List.length Nat.add].
  assert (Hloop : match_side_loop 4 0 [5; 5] default_tol (mkCursor 0 0 0 0) U_world
                  = (Ok c, U_world_1)).
  { erewrite (loop_step 0 _ default_tol);
      [| reflexivity | cbn; lia | cbn; lia | exact U_step_A1].
    erewrite (loop_step 0 _ default_tol);
      [| reflexivity | cbn; lia | cbn; lia | exact U_step_A2].
    erewrite (loop_step 0 _ default_tol);
      [| reflexivity | cbn; lia | cbn; lia | exact Hc].
    apply (loop_done 0 _ default_tol _ c U_world_1 U_interface_A_split eq_refl).
    rewrite Hin. reflexivity. }
  rewrite (bind_ok _ _ _ _ _ Hloop), Hadd. reflexivity.
Qed.

(** Side B against the lengths 4 and 6: cut the first edge at 4, move on,
    arrive. *)
Lemma U_step_B1 :
  match_side_body 1 [4; 6] default_tol (mkCursor 0 0 0 0) U_world_1
  = (Ok (mkCursor 1 1 4 4), U_world_2).
Proof.
  rewrite (body_split 1 [4; 6] default_tol (mkCursor 0 0 0 0) U_world_1
             U_interface_B (hedge 0 5 0) 4 eq_refl
             (f_equal (fun l => nth_error l 0) U_projecting_B) eq_refl
             (hedge 0 5 0) (Edge_new (0, 0) (4, 0))
             [Edge_new (0, 0) (4, 0); Edge_new (4, 0) (5, 0)]
             (hedge 0 4 0 :: hedge 4 5 0 :: hedge 5 10 1 :: box 10 2)
             [hedge 0 4 0; hedge 4 5 0; hedge 5 10 1] 1 U_panel_B).
  - cbn [covered_init covered_added add_id in_id].
    change (Edge_new (0, 0) (4, 0)) with (hedge 0 4 new_geometric_id).
    rewrite !Edge_length_hedge by lra.
    replace (0 + (4 - 0)) with 4 by lra. replace (0 + 4) with 4 by lra.
    reflexivity.
  - far_lra.
  - lengths_lra.
  - lengths_lra.
  - reflexivity.
  - cbn [covered_init covered_added start end_ hedge].
    rewrite !Edge_length_hedge by lra.
    apply from_fractions_hsplit; try apart; lra.
  - reflexivity.
  - reflexivity.
  - apply substitute_head.
  - apply substitute_head.
  - reflexivity.
Qed.

Lemma U_step_B2 :
  match_side_body 1 [4; 6] default_tol (mkCursor 1 1 4 4) U_world_2
  = (Ok (mkCursor 1 2 (4 + Edge_length (hedge 4 5 0)) 4), U_world_2).
Proof.
  apply (body_advance 1 [4; 6] default_tol (mkCursor 1 1 4 4) U_world_2
           U_interface_B_split (hedge 4 5 0) 6 eq_refl
           (f_equal (fun l => nth_error l 1) U_projecting_B_split) eq_refl).
  - far_lra.
  - lengths_lra.
Qed.

Lemma U_step_B3 :
  exists c,
    match_side_body 1 [4; 6] default_tol
      (mkCursor 1 2 (4 + Edge_length (hedge 4 5 0)) 4) U_world_2
    = (Ok c, U_world_2)
    /\ in_id c = 3%nat /\ add_id c = 2%nat.
Proof.
  eexists. split.
  - apply (body_skip 1 [4; 6] default_tol
             (mkCursor 1 2 (4 + Edge_length (hedge 4 5 0)) 4) U_world_2
             U_interface_B_split (hedge 5 10 1) 6 eq_refl
             (f_equal (fun l => nth_error l 2) U_projecting_B_split) eq_refl).
    near_lra.
  - split; reflexivity.
Qed.

Lemma U_side_B : _match_side_count 1 [4; 6] default_tol U_world_1 = (Ok tt, U_world_2).
Proof.
  destruct U_step_B3 as (c & Hc & Hin & Hadd).
  unfold _match_side_count.
  rewrite (bind_ok _ _ _ _ _ (get_interface_ok U_world_1 1 _ eq_refl)).
  cbn [U_interface_B Interface.edges List.length Nat.add].
  assert (Hloop : match_side_loop 4 1 [4; 6] default_tol (mkCursor 0 0 0 0) U_world_1
                  = (Ok c, U_world_2)).
  { erewrite (loop_step 1 _ default_tol);
      [| reflexivity | cbn; lia | cbn; lia | exact U_step_B1].
    erewrite (loop_step 1 _ default_tol);
      [| reflexivity | cbn; lia | cbn; lia | exact U_step_B2].
    erewrite (loop_step 1 _ default_tol);
      [| reflexivity | cbn; lia | cbn; lia | exact Hc].
    apply (loop_done 1 _ default_tol _ c U_world_2 U_interface_B_split eq_refl).
    rewrite Hin. reflexivity. }
  rewrite (bind_ok _ _ _ _ _ Hloop), Hadd. reflexivity.
Qed.

Lemma U_traversal : isTraversalMatching T_rule U_world = (Ok true, U_world).
Proof.
  rewrite (isTraversalMatching_eval U_world T_rule U_interface_A U_interface_B
             ((0, 0, 0), (10, 0, 0)) ((0, 0, 1), (10, 0, 1)) eq_refl eq_refl
             eq_refl eq_refl).
  now rewrite parallel_corners, andb_false_r.
Qed.

(** C7 fails as stated: the two interfaces have two edges each and the
    same total projected length 10, yet [match_edge_count] cuts both of
    them (into three edges each) and both panel boundaries. *)
Lemma equal_counts_still_cut :
  List.length (Interface.edges U_interface_A) = List.length (Interface.edges U_interface_B)
  /\ Rsum (lengths (projecting_edges U_interface_A)) = 10
  /\ Rsum (lengths (projecting_edges U_interface_B)) = 10
  /\ match_edge_count T_rule default_tol U_world = (Ok tt, U_world_2)
  /\ nth_error (interfaces U_world) 0 = Some U_interface_A
  /\ nth_error (interfaces U_world_2) 0 = Some U_interface_A_split
  /\ List.length (Interface.edges U_interface_A_split) = 3%nat
  /\ U_world_2 <> U_world.
Proof.
  assert (L1 : lengths (projecting_edges U_interface_A) = [4; 6]).
  { rewrite U_projecting_A. cbn [lengths map].
    rewrite !Edge_length_hedge by lra. repeat f_equal; lra. }
  assert (L2 : lengths (projecting_edges U_interface_B) = [5; 5]).
  { rewrite U_projecting_B. cbn [lengths map].
    rewrite !Edge_length_hedge by lra. repeat f_equal; lra. }
  split; [reflexivity|]. split; [rewrite L1; cbn [Rsum]; lra|].
  split; [rewrite L2; cbn [Rsum]; lra|].
  split; [|split; [reflexivity|split; [reflexivity|split; [reflexivity|]]]].
  - unfold match_edge_count.
    rewrite (bind_ok _ _ _ _ _ (get_interface_ok U_world 0 _ eq_refl)).
    rewrite (bind_ok _ _ _ _ _ U_traversal).
    rewrite (bind_ok _ _ _ _ _ (get_interface_ok U_world 1 _ eq_refl)).
    rewrite (bind_ok _ _ _ _ _ U_traversal). cbn [negb].
    rewrite L1, L2.
    assert (E : close_enough (Rsum [4; 6]) (Rsum [5; 5]) default_tol = true).
    { apply close_enough_near. unfold default_tol. cbn [Rsum].
      replace (4 + (6 + 0) - (5 + (5 + 0))) with 0 by ring. rewrite Rabs_R0. lra. }
    rewrite E. cbn [negb].
    rewrite (bind_ok _ _ _ _ _ U_side_A). exact U_side_B.
  - intro E.
    apply (f_equal (fun w => option_map (fun i => List.length (Interface.edges i))
                               (nth_error (interfaces w) 0))) in E.
    discriminate E.
Qed.

(** *** A single edge on the first side *)

(** C6 fails as stated: the two interfaces are declared in opposite
    directions, so that the reversed pairing of their corners is shorter
    (8) than the declared one (10); the first interface has a single edge
    and [isTraversalMatching] returns true. *)
Lemma single_edge_never_swaps :
  corners X_world (Interface.mk [hedge 0 3 0] [0%nat]) = Some ((0, 0, 0), (3, 0, 0))
  /\ corners X_world (Interface.mk [X_edge_B] [1%nat]) = Some ((3, 0, 4), (0, 0, 4))
  /\ reverse_distance ((0, 0, 0), (3, 0, 0)) ((3, 0, 4), (0, 0, 4)) = 8
  /\ straight_distance ((0, 0, 0), (3, 0, 0)) ((3, 0, 4), (0, 0, 4)) = 10
  /\ isTraversalMatching T_rule X_world = (Ok true, X_world).
Proof.
  split; [reflexivity|]. split; [reflexivity|]. split; [|split].
  - unfold reverse_distance, sub3. cbn [fst snd].
    rewrite (norm3_eq (3 - 3) (0 - 0) (4 - 0) 4) by lra.
    rewrite (norm3_eq (0 - 0) (0 - 0) (4 - 0) 4) by lra. lra.
  - unfold straight_distance, sub3. cbn [fst snd].
    rewrite (norm3_eq (3 - 0) (0 - 0) (4 - 0) 5) by lra.
    rewrite (norm3_eq (0 - 3) (0 - 0) (4 - 0) 5) by lra. lra.
  - reflexivity.
Qed.

(** *** The theorems at work *)

Lemma aligned_same (tol : R) (l : list R) : 0 < tol -> aligned tol l l.
Proof.
  intro H. split; [reflexivity|]. intros j _.
  replace (Rsum (firstn j l) - Rsum (firstn j l)) with 0 by ring.
  now rewrite Rabs_R0.
Qed.

Lemma M_binds : binds M_world T_rule (T_interface_A 10 []) (T_interface_B 15 5).
Proof.
  split; [reflexivity|]. split; [reflexivity|].
  split; (split; [discriminate|]; split; [reflexivity|]; repeat constructor).
Qed.

(** C2 at work: one edge of length 10 against edges of lengths 5 and 10. *)
Lemma match_edge_count_mismatch_10_15 :
  match_edge_count T_rule default_tol M_world
  = (Raise (RuntimeError Projected_edges_do_not_match), M_world).
Proof.
  apply (match_edge_count_mismatch M_world T_rule
           (T_interface_A 10 []) (T_interface_B 15 5) default_tol M_binds).
  rewrite (T_projecting_A 10 4 default_tol []), (T_projecting_B 15 5 default_tol)
    by (unfold default_tol; lra).
  cbn [lengths map Rsum]. rewrite !Edge_length_hedge by lra.
  unfold default_tol, Rabs. destruct Rcase_abs; lra.
Defined.

(** C4 at work: the fractions 2/5 and 3/5. *)
Lemma from_fractions_spec_2_3 :
  exists e0 rest,
    EdgeSeqFactory.from_fractions (0, 0) (10, 0) [2 / 5; 3 / 5] = Ok (e0 :: rest)
    /\ List.length (e0 :: rest) = 2%nat.
Proof.
  destruct (from_fractions_spec (0, 0) (10, 0) [2 / 5; 3 / 5]) as (_ & _ & H).
  destruct H as (_ & _ & _ & H).
  - cbn [map Rsum]. rewrite (Rabs_pos_eq (2 / 5)), (Rabs_pos_eq (3 / 5)) by lra.
    replace (2 / 5 + (3 / 5 + 0) - 1) with 0 by lra. rewrite Rabs_R0. lra.
  - destruct H as (e0 & rest & Hrun & Hlen & _).
    + cbn [map removelast EdgeSeqFactory.inner_verts steps_differ app vsub fst snd].
      rewrite (Rabs_pos_eq (2 / 5)) by lra.
      replace (same_vertex (0, 0) (0 + 2 / 5 * (10 - 0), 0 + 2 / 5 * (0 - 0)))
        with false by (symmetry; apart).
      replace (same_vertex (0 + 2 / 5 * (10 - 0), 0 + 2 / 5 * (0 - 0)) (10, 0))
        with false by (symmetry; apart).
      reflexivity.
    + exists e0, rest. split; [exact Hrun | exact Hlen].
Defined.

(** C5 at work: the straight edge of the T-stitch keeps its length 10. *)
Lemma T_stitch_keeps_length :
  exists ik',
    nth_error (interfaces (T_world_split 10 4)) 0 = Some ik'
    /\ straight (Interface.edges ik')
    /\ Rsum (lengths (Interface.edges ik'))
       = Rsum (lengths (Interface.edges (T_interface_A 10 []))).
Proof.
  apply (match_edge_count_keeps_straight_lengths T_rule default_tol
           (T_world 10 4 []) (T_world_split 10 4) (Ok tt) 0 (T_interface_A 10 [])).
  - apply T_match_edge_count; try apart; unfold default_tol; lra.
  - reflexivity.
  - repeat constructor.
Defined.

(** C6 at work: the two sides of the T-stitch after the cut. *)
Lemma isTraversalMatching_spec_T :
  exists c1 c2 b,
    corners (T_world_split 10 4) (T_interface_A_split 10 4) = Some c1
    /\ corners (T_world_split 10 4) (T_interface_B 10 4) = Some c2
    /\ isTraversalMatching T_rule (T_world_split 10 4) = (Ok b, T_world_split 10 4)
    /\ (b = false <->
        (1 < List.length (Interface.edges (T_interface_A_split 10 4)))%nat
        /\ reverse_distance c1 c2 < straight_distance c1 c2).
Proof.
  apply (isTraversalMatching_spec (T_world_split 10 4) T_rule
           (T_interface_A_split 10 4) (T_interface_B 10 4)).
  apply T_split_binds.
Defined.

(** C7 at work: the T-stitch after the cut is aligned, and a second
    [match_edge_count] leaves it alone. *)
Lemma match_edge_count_aligned_T :
  match_edge_count T_rule default_tol (T_world_split 10 4) = (Ok tt, T_world_split 10 4)
  /\ exists recs,
       assembly T_rule (T_world_split 10 4) = (Ok recs, T_world_split 10 4)
       /\ List.length recs = 2%nat.
Proof.
  destruct (match_edge_count_aligned (T_world_split 10 4) T_rule
              (T_interface_A_split 10 4) (T_interface_B 10 4) default_tol true
              (T_split_binds 10 4) (T_split_traversal 10 4))
    as (Hrun & recs & Hasm & Hlen & _).
  - rewrite (T_projecting_A_split 10 4 default_tol), (T_projecting_B 10 4 default_tol)
      by (unfold default_tol; lra).
    apply (aligned_same default_tol (lengths [hedge 0 4 0; hedge 4 10 0])
             default_tol_pos).
  - rewrite (T_projecting_A_split 10 4 default_tol), (T_projecting_B 10 4 default_tol)
      by (unfold default_tol; lra).
    apply (aligned_same default_tol (lengths [hedge 0 4 0; hedge 4 10 0])
             default_tol_pos).
  - split; [exact Hrun|]. exists recs. split; [exact Hasm | exact Hlen].
Defined.

(** C10 at work: the constructor on the T-stitch. *)
Lemma StitchingRule_init_spec_T :
  StitchingRule_init 0 1 (T_world 10 4 [])
  = (match fst (match_edge_count (mkRule 0 1) default_tol (T_world 10 4 [])) with
     | Ok _ => Ok (mkRule 0 1)
     | Raise e => Raise e
     end,
     snd (match_edge_count (mkRule 0 1) default_tol (T_world 10 4 []))).
Proof.
  destruct (StitchingRule_init_spec (T_world 10 4 []) 0 1
              (T_interface_A 10 []) (T_interface_B 10 4) eq_refl eq_refl)
    as (_ & H & _).
  destruct H as (Hinit & _); [discriminate | exact Hinit].
Defined.

(** ** The iterative solves *)

Section SolveClaims.
Context `{GU : generic_utils} `{EM : edge_module} `{MT : edge_methods}
        `{SO : scipy_optimize}.

(** C8, as the code has it.  [side_with_dart_by_len]: when the solver's
    final objective value is not close enough to 0 (tolerance [tol]), the
    solver result is printed and a [ValueError] is raised; nothing but the
    print has happened.  [curve_from_extreme]: when the solver reports no
    success, a warning is printed (and the solver result, when [VERBOSE])
    and the curve through the solver's last iterate is returned; no error
    is raised. *)
Theorem solves_without_convergence :
  (forall (start_ end' : pyvertex) (target_len depth dart_position dart_angle : R)
          (right : bool) (panel : option nat) (tol : R) (m : Mem) (v0 v1 : vertex)
          (out : OptimizeResult (vertex * vertex * vertex)),
      deref start_ m = (Ok v0, m) ->
      deref end' m = (Ok v1, m) ->
      target_len < norm (vsub v0 v1) ->
      target_len <> 0 ->
      minimize (fun coords =>
                  Ok (EdgeSeqFactory._fit_dart coords v0 v1 dart_position
                        (target_len - dart_position) depth dart_angle))
               (dart_guess v0 v1 target_len depth dart_position) = Ok out ->
      close_enough (res_fun out) 0 tol = false ->
      EdgeSeqFactory.side_with_dart_by_len start_ end' target_len depth dart_position
        dart_angle right panel tol m
      = (Raise (ValueError Solving_dart_was_unsuccessful),
         mkMem (vheap m) (stdout m ++ [print_out])))
  /\ (forall (VERBOSE : bool) (start_ end' target_extreme : vertex) (m : Mem)
             (out : OptimizeResult R),
         let rel_target := EdgeSeqFactory._abs_to_rel_2d start_ end' target_extreme in
         minimize (fun cp_y => EdgeSeqFactory._fit_y_extremum cp_y rel_target)
                  (snd rel_target) = Ok out ->
         res_success out = false ->
         EdgeSeqFactory.curve_from_extreme VERBOSE start_ end' target_extreme m
         = (Ok (CurveEdge_new start_ end' [(fst rel_target, res_x out)]),
            mkMem (vheap m)
              ((stdout m ++ [print_Optimization_not_successful])
               ++ if VERBOSE then [print_out] else []))).
Proof.
  split.
  - intros start_ end' target_len depth dart_position dart_angle right panel tol m
           v0 v1 out Hs He Hlen Hne Hmin Hfar.
    unfold EdgeSeqFactory.side_with_dart_by_len.
    rewrite (bind_ok _ _ _ _ _ Hs), (bind_ok _ _ _ _ _ He). cbv zeta.
    rewrite Rltb_true by lra. cbn [negb].
    unfold EdgeSeqFactory.py_div.
    destruct (Req_dec_T (dart_position + (target_len - dart_position)) 0) as [E|_];
      [exfalso; lra|].
    rewrite bind_lift_ok.
    unfold dart_guess in Hmin. cbv zeta in Hmin. rewrite Hmin, bind_lift_ok.
    rewrite Hfar. reflexivity.
  - intros VERBOSE start_ end' target_extreme m out rel_target Hmin Hfail.
    unfold EdgeSeqFactory.curve_from_extreme. fold rel_target.
    rewrite Hmin, bind_lift_ok, Hfail. cbn [negb].
    destruct VERBOSE; unfold bind, print, ret; cbn [vheap stdout];
      rewrite ?app_nil_r; reflexivity.
Qed.

End SolveClaims.

(** C8 at work: with a solver that gives up at residual 1, the dart
    constructor raises. *)
Lemma dart_by_len_raises :
  EdgeSeqFactory.side_with_dart_by_len (pylist 0) (pylist 1) 8 3 4 90 true None
    (1 / 10000) two_vertices
  = (Raise (ValueError Solving_dart_was_unsuccessful),
     mkMem (vheap two_vertices) (stdout two_vertices ++ [print_out])).
Proof.
  destruct (@solves_without_convergence _ _ _ _) as (H & _).
  apply (H (pylist 0) (pylist 1) 8 3 4 90 true None (1 / 10000) two_vertices
           (0, 0) (10, 0)
           (mkOptimizeResult (dart_guess (0, 0) (10, 0) 8 3 4) 1 false)).
  - reflexivity.
  - reflexivity.
  - unfold norm, vsub. cbn [fst snd]. rewrite (sqrt_eq _ 10); lra.
  - lra.
  - reflexivity.
  - apply close_enough_far. cbn [res_fun]. unfold Rabs. destruct Rcase_abs; lra.
Defined.

(** C8 fails as stated: handed a solver result that reports no success,
    [curve_from_extreme] prints a warning and returns a curve. *)
Lemma curve_from_extreme_returns :
  let rel_target := EdgeSeqFactory._abs_to_rel_2d (0, 0) (1, 0) (1 / 2, 1 / 2) in
  minimize (fun cp_y => EdgeSeqFactory._fit_y_extremum cp_y rel_target) (snd rel_target)
  = Ok (mkOptimizeResult (snd rel_target) 1 false)
  /\ EdgeSeqFactory.curve_from_extreme false (0, 0) (1, 0) (1 / 2, 1 / 2) two_vertices
     = (Ok (CurveEdge_new (0, 0) (1, 0) [(fst rel_target, snd rel_target)]),
        mkMem (vheap two_vertices) [print_Optimization_not_successful])
  /\ is_raise (fst (EdgeSeqFactory.curve_from_extreme false (0, 0) (1, 0) (1 / 2, 1 / 2)
                      two_vertices)) = false.
Proof.
  cbv zeta. split; [reflexivity|]. split; reflexivity.
Qed.

(** ** The dart by width and the caller's end vertex *)



Section DartByWidth.
Context `{GU : generic_utils} `{EM : edge_module} `{MT : edge_methods}
        `{SO : scipy_optimize}.





End DartByWidth.











(** * Further properties of the code *)

(** ** [from_verts] and [side_with_cut] *)

Section MoreFactory.
Context `{GU : generic_utils} `{EM : edge_module}.

Lemma chain_nth {V} (verts : list V) (prev : V) (k : nat) (a b : V) :
  nth_error (prev :: verts) k = Some a ->
  nth_error (prev :: verts) (S k) = Some b ->
  nth_error (chain prev verts) k = Some (Edge_new a b).
Proof.
  revert prev k. induction verts as [|v verts IH]; intros prev k Ha Hb.
  - destruct k; simpl in Hb; [discriminate | destruct k; discriminate].
  - destruct k as [|k].
    + simpl in Ha, Hb. injection Ha as <-. injection Hb as <-. reflexivity.
    + simpl. apply IH; assumption.
Qed.

Lemma chain_end {V} (verts : list V) (prev : V) (d : Edge V) :
  verts <> [] ->
  end_ (List.last (chain prev verts) d) = List.last verts prev.
Proof.
  intro Hne. destruct (exists_last Hne) as (l & v & ->).
  rewrite chain_last, last_last. reflexivity.
Qed.

Lemma last_default {A} (l : list A) (d d' : A) :
  l <> [] -> List.last l d = List.last l d'.
Proof.
  intro Hne. destruct (exists_last Hne) as (l' & a & ->). now rewrite !last_last.
Qed.

Lemma chained_snoc {V} (s : EdgeSequence V) (e d : Edge V) :
  chained s ->
  (s <> [] -> end_ (List.last s d) = start e) ->
  chained (s ++ [e]).
Proof.
  induction s as [|x s IH]; intros Hc Hl; [exact I|].
  destruct s as [|y s].
  - simpl. split; [|exact I]. apply Hl. discriminate.
  - destruct Hc as (Hxy & Hc). change ((x :: y :: s) ++ [e]) with (x :: (y :: s) ++ [e]).
    simpl. split; [exact Hxy|].
    apply IH; [exact Hc|]. intros _. apply Hl. discriminate.
Qed.

(** The steps of a list with one more vertex at its end. *)
Lemma steps_differ_snoc {V} (same : V -> V -> bool) (l : list V) (x d : V) :
  l <> [] ->
  steps_differ same (l ++ [x])
  = steps_differ same l && negb (same (List.last l d) x).
Proof.
  induction l as [|a l IH]; intro Hne; [congruence|].
  destruct l as [|b l].
  - cbn [app steps_differ List.last]. now rewrite andb_true_r.
  - change (steps_differ same ((a :: b :: l) ++ [x]))
      with (negb (same a b) && steps_differ same ((b :: l) ++ [x])).
    change (steps_differ same (a :: b :: l))
      with (negb (same a b) && steps_differ same (b :: l)).
    change (List.last (a :: b :: l) d) with (List.last (b :: l) d).
    rewrite IH by discriminate. now rewrite andb_assoc.
Qed.

(** X1: [from_verts] raises [IndexError] when it is given fewer than two
    vertices (with or without [loop]).  Given [n >= 2] vertices, it raises
    the [AssertionError] of the edge constructor when a vertex does not
    differ from the next one; when every vertex differs from the next and
    there is no [loop], it returns [n - 1] straight edges, edge [k] running
    from [verts[k]] to [verts[k + 1]]. *)
Theorem from_verts_edges {V} (same : V -> V -> bool) (verts : list V) (loop : bool) :
  ((List.length verts < 2)%nat ->
   EdgeSeqFactory.from_verts same verts loop = Raise IndexError)
  /\ ((2 <= List.length verts)%nat ->
      steps_differ same verts = false ->
      EdgeSeqFactory.from_verts same verts loop = Raise AssertionError)
  /\ ((2 <= List.length verts)%nat ->
      steps_differ same verts = true ->
      exists seq,
        EdgeSeqFactory.from_verts same verts false = Ok seq
        /\ S (List.length seq) = List.length verts
        /\ Forall (fun e => control_points e = []) seq
        /\ forall k a b,
             nth_error verts k = Some a ->
             nth_error verts (S k) = Some b ->
             nth_error seq k = Some (Edge_new a b)).
Proof.
  split; [|split]; intro Hlen.
  - destruct verts as [|v0 [|v1 rest]]; simpl in *; try reflexivity. lia.
  - intro Hd. destruct verts as [|v0 [|v1 rest]]; simpl in Hlen; try lia.
    unfold EdgeSeqFactory.from_verts. now rewrite chain_from_eq, Hd.
  - intro Hd. destruct verts as [|v0 [|v1 rest]]; simpl in Hlen; try lia.
    exists (chain v0 (v1 :: rest)).
    split; [|split; [|split]].
    + rewrite from_verts_cons by discriminate. now rewrite Hd.
    + rewrite chain_length. reflexivity.
    + apply chain_straight.
    + intros k a b Ha Hb. now apply chain_nth.
Qed.

(** X2: given [n >= 2] vertices and [loop=True], [from_verts] goes round
    the vertices and back to the first one.  It raises [AssertionError]
    when a vertex on that round does not differ from the next one;
    otherwise it returns [n] edges that form a closed loop: consecutive
    edges share a vertex, and the last edge ends at the first vertex, where
    the first edge starts. *)
Theorem from_verts_loop_closed {V} (same : V -> V -> bool) (verts : list V) :
  (2 <= List.length verts)%nat ->
  let round := verts ++ firstn 1 verts in
  (steps_differ same round = false ->
   EdgeSeqFactory.from_verts same verts true = Raise AssertionError)
  /\ (steps_differ same round = true ->
      exists seq,
        EdgeSeqFactory.from_verts same verts true = Ok seq
        /\ List.length seq = List.length verts
        /\ closed_loop seq
        /\ option_map start (hd_error seq) = hd_error verts).
Proof.
  intro Hlen. destruct verts as [|v0 [|v1 rest]]; simpl in Hlen; try lia.
  cbv zeta. cbn [firstn].
  rewrite (steps_differ_snoc same (v0 :: v1 :: rest) v0 v1) by discriminate.
  change (List.last (v0 :: v1 :: rest) v1) with (List.last (v1 :: rest) v1).
  unfold EdgeSeqFactory.from_verts. rewrite chain_from_eq. unfold Edge_init.
  destruct (steps_differ same (v0 :: v1 :: rest)); cbn [andb obind];
    [|split; [reflexivity | discriminate]].
  destruct (same (List.last (v1 :: rest) v1) v0); cbn [negb obind];
    split; try reflexivity; try discriminate.
  intros _. eexists. split; [reflexivity|]. split; [|split].
  - rewrite length_app, chain_length. simpl. lia.
  - split.
    + apply (chained_snoc _ _ (Edge_new v0 v0)); [apply chain_chained|].
      intros _. rewrite chain_end by discriminate.
      apply last_default. discriminate.
    + simpl. destruct (chain v1 rest ++ _) eqn:E.
      * destruct (chain v1 rest); discriminate.
      * rewrite <- E, last_last. reflexivity.
  - reflexivity.
Qed.

Lemma vsub_cut_start (s e : vertex) (c : R) :
  vsub (vadd s (vscale c (vsub e s))) s = vscale c (vsub e s).
Proof. unfold vsub, vadd, vscale; simpl; f_equal; ring. Qed.

Lemma vsub_cut_end (s e : vertex) (c : R) :
  vsub e (vsub e (vscale c (vsub e s))) = vscale c (vsub e s).
Proof. unfold vsub, vadd, vscale; simpl; f_equal; ring. Qed.

Lemma vsub_cut_middle (s e : vertex) (c1 c2 : R) :
  vsub (vsub e (vscale c2 (vsub e s))) (vadd s (vscale c1 (vsub e s)))
  = vscale (1 - c1 - c2) (vsub e s).
Proof. unfold vsub, vadd, vscale; simpl; f_equal; ring. Qed.

Lemma vsub_cut_rest_start (s e : vertex) (c : R) :
  vsub e (vadd s (vscale c (vsub e s))) = vscale (1 - c) (vsub e s).
Proof. unfold vsub, vadd, vscale; simpl; f_equal; ring. Qed.

Lemma vsub_cut_rest_end (s e : vertex) (c : R) :
  vsub (vsub e (vscale c (vsub e s))) s = vscale (1 - c) (vsub e s).
Proof. unfold vsub, vadd, vscale; simpl; f_equal; ring. Qed.

(** [side_with_cut] hands its vertices to [from_verts]. *)
Lemma side_with_cut_cases (s e : vertex) (start_cut end_cut : R) :
  EdgeSeqFactory.side_with_cut s e start_cut end_cut
  = if steps_differ same_vertex (cut_verts s e start_cut end_cut)
    then Ok (chain s (tl (cut_verts s e start_cut end_cut)))
    else Raise AssertionError.
Proof.
  unfold EdgeSeqFactory.side_with_cut, cut_verts.
  destruct (Rltb 0 start_cut), (Rltb 0 end_cut); cbn [app tl];
    apply from_verts_cons; discriminate.
Qed.

(** What [side_with_cut] returns, when it returns. *)
Lemma side_with_cut_ok (s e : vertex) (start_cut end_cut : R)
    (seq : EdgeSequence vertex) :
  EdgeSeqFactory.side_with_cut s e start_cut end_cut = Ok seq ->
  seq = match Rltb 0 start_cut, Rltb 0 end_cut with
        | true, true =>
            [ Edge_new s (vadd s (vscale start_cut (vsub e s)));
              Edge_new (vadd s (vscale start_cut (vsub e s)))
                       (vsub e (vscale end_cut (vsub e s)));
              Edge_new (vsub e (vscale end_cut (vsub e s))) e ]
        | true, false =>
            [ Edge_new s (vadd s (vscale start_cut (vsub e s)));
              Edge_new (vadd s (vscale start_cut (vsub e s))) e ]
        | false, true =>
            [ Edge_new s (vsub e (vscale end_cut (vsub e s)));
              Edge_new (vsub e (vscale end_cut (vsub e s))) e ]
        | false, false => [ Edge_new s e ]
        end.
Proof.
  rewrite side_with_cut_cases.
  destruct (steps_differ same_vertex _); [|discriminate].
  intro H. injection H as <-. unfold cut_verts.
  destruct (Rltb 0 start_cut), (Rltb 0 end_cut); reflexivity.
Qed.

(** Cuts that put a vertex on the one before it: those of a side whose
    [start] is its [end], two positive cuts that add up to 1, and a
    [start_cut] of 1 without an [end_cut]. *)
Lemma cut_verts_same (start_ end' : vertex) (start_cut end_cut : R) :
  start_ = end'
  \/ (0 < start_cut /\ 0 < end_cut /\ start_cut + end_cut = 1)
  \/ (start_cut = 1 /\ end_cut <= 0) ->
  steps_differ same_vertex (cut_verts start_ end' start_cut end_cut) = false.
Proof.
  unfold cut_verts. intros [<-|[(Hs & He & Hsum)|(Hs & He)]].
  - destruct (Rltb 0 start_cut).
    * cbn [app].
      replace (vadd start_ (vscale start_cut (vsub start_ start_))) with start_.
      -- apply steps_differ_stay.
      -- destruct start_ as (x, y). unfold vadd, vscale, vsub. cbn [fst snd].
         f_equal; ring.
    * destruct (Rltb 0 end_cut); cbn [app]; [|apply steps_differ_stay].
      replace (vsub start_ (vscale end_cut (vsub start_ start_))) with start_.
      -- apply steps_differ_stay.
      -- destruct start_ as (x, y). unfold vadd, vscale, vsub. cbn [fst snd].
         f_equal; ring.
  - rewrite (Rltb_true 0 start_cut), (Rltb_true 0 end_cut) by lra. cbn [app].
    replace (vsub end' (vscale end_cut (vsub end' start_)))
      with (vadd start_ (vscale start_cut (vsub end' start_))).
    * apply steps_differ_tail, steps_differ_stay.
    * replace end_cut with (1 - start_cut) by lra.
      destruct start_ as (x, y), end' as (x', y').
      unfold vadd, vscale, vsub. cbn [fst snd]. f_equal; ring.
  - rewrite (Rltb_true 0 start_cut), (Rltb_false 0 end_cut) by lra. cbn [app].
    replace (vadd start_ (vscale start_cut (vsub end' start_))) with end'.
    * apply steps_differ_tail, steps_differ_stay.
    * rewrite Hs. destruct start_ as (x, y), end' as (x', y').
      unfold vadd, vscale, vsub. cbn [fst snd]. f_equal; ring.
Qed.

(** X3: [side_with_cut] lays its edges from [start] to [end] through one
    more vertex for a positive [start_cut] and one more for a positive
    [end_cut]; a cut that is zero or negative adds no vertex.  It raises
    the [AssertionError] of the edge constructor when one of these
    vertices does not differ from the next: so it does when [start] is
    [end], when the two positive cuts add up to 1, and when [start_cut] is
    1 and there is no [end_cut].  When every vertex differs from the next,
    it returns a chain of straight edges from [start] to [end], one edge
    fewer than there are vertices. *)
Theorem side_with_cut_chain (start_ end' : vertex) (start_cut end_cut : R) :
  let verts := cut_verts start_ end' start_cut end_cut in
  (steps_differ same_vertex verts = false ->
   EdgeSeqFactory.side_with_cut start_ end' start_cut end_cut = Raise AssertionError)
  /\ (start_ = end'
      \/ (0 < start_cut /\ 0 < end_cut /\ start_cut + end_cut = 1)
      \/ (start_cut = 1 /\ end_cut <= 0) ->
      steps_differ same_vertex verts = false)
  /\ (steps_differ same_vertex verts = true ->
      exists seq,
        EdgeSeqFactory.side_with_cut start_ end' start_cut end_cut = Ok seq
        /\ List.length seq
           = (1 + (if Rltb 0 start_cut then 1 else 0)
                + (if Rltb 0 end_cut then 1 else 0))%nat
        /\ chained seq
        /\ straight seq
        /\ option_map start (hd_error seq) = Some start_
        /\ end_ (List.last seq (Edge_new start_ end')) = end').
Proof.
  cbv zeta. split; [|split].
  - intro Hd. now rewrite side_with_cut_cases, Hd.
  - apply cut_verts_same.
  - intro Hd. eexists. split; [now rewrite side_with_cut_cases, Hd|].
    unfold straight, cut_verts.
    destruct (Rltb 0 start_cut), (Rltb 0 end_cut); simpl;
      repeat split; repeat constructor.
Qed.

(** X4: when [side_with_cut] returns and its positive cuts fit on the side
    (they add up to at most 1), the lengths of the edges add up to the
    distance from [start] to [end]; the first edge then has the fraction
    [start_cut] of that distance and the last edge the fraction [end_cut]. *)
Theorem side_with_cut_lengths (start_ end' : vertex) (start_cut end_cut : R)
    (seq : EdgeSequence vertex) :
  EdgeSeqFactory.side_with_cut start_ end' start_cut end_cut = Ok seq ->
  Rmax 0 start_cut + Rmax 0 end_cut <= 1 ->
  Rsum (lengths seq) = norm (vsub end' start_)
  /\ (0 < start_cut ->
      nth_error (lengths seq) 0 = Some (start_cut * norm (vsub end' start_)))
  /\ (0 < end_cut ->
      List.last (lengths seq) 0 = end_cut * norm (vsub end' start_)).
Proof.
  intros Hrun Hfit. rewrite (side_with_cut_ok _ _ _ _ _ Hrun).
  destruct (Rltb 0 start_cut) eqn:Es, (Rltb 0 end_cut) eqn:Ee;
    try apply Rltb_spec in Es; try apply Rltb_spec in Ee;
    try apply Rltb_spec_false in Es; try apply Rltb_spec_false in Ee;
    unfold lengths; cbn [map Rsum nth_error List.last]; rewrite !Edge_length_new;
    rewrite ?vsub_cut_start, ?vsub_cut_end, ?vsub_cut_middle,
            ?vsub_cut_rest_start, ?vsub_cut_rest_end, ?norm_scale.
  - rewrite (Rmax_right 0 start_cut), (Rmax_right 0 end_cut) in Hfit by lra.
    rewrite (Rabs_pos_eq start_cut), (Rabs_pos_eq end_cut),
            (Rabs_pos_eq (1 - start_cut - end_cut)) by lra.
    split; [ring|]. split; intros _; reflexivity.
  - rewrite (Rmax_right 0 start_cut) in Hfit by lra.
    pose proof (Rmax_l 0 end_cut).
    rewrite (Rabs_pos_eq start_cut), (Rabs_pos_eq (1 - start_cut)) by lra.
    split; [ring|]. split; [intros _; reflexivity | intro; lra].
  - rewrite (Rmax_right 0 end_cut) in Hfit by lra.
    pose proof (Rmax_l 0 start_cut).
    rewrite (Rabs_pos_eq end_cut), (Rabs_pos_eq (1 - end_cut)) by lra.
    split; [ring|]. split; [intro; lra | intros _; reflexivity].
  - split; [ring|]. split; intro; lra.
Qed.

End MoreFactory.

(** X1 at work: three vertices give two edges. *)
Lemma from_verts_edges_3 :
  exists seq,
    EdgeSeqFactory.from_verts same_vertex [(0, 0); (1, 0); (1, 1)] false = Ok seq
    /\ S (List.length seq) = 3%nat
    /\ Forall (fun e => control_points e = []) seq
    /\ forall k a b,
         nth_error [(0, 0); (1, 0); (1, 1)] k = Some a ->
         nth_error [(0, 0); (1, 0); (1, 1)] (S k) = Some b ->
         nth_error seq k = Some (Edge_new a b).
Proof.
  apply (proj2 (proj2 (from_verts_edges same_vertex [(0, 0); (1, 0); (1, 1)] false))).
  - simpl. lia.
  - cbn [steps_differ].
    replace (same_vertex (0, 0) (1, 0)) with false by (symmetry; apart).
    replace (same_vertex (1, 0) (1, 1)) with false by (symmetry; apart).
    reflexivity.
Defined.

(** X2 at work: the loop through four vertices. *)
Lemma from_verts_loop_closed_4 :
  exists seq,
    EdgeSeqFactory.from_verts same_vertex [(0, 0); (5, 70); (15, 70); (20, 0)] true
    = Ok seq
    /\ List.length seq = 4%nat
    /\ closed_loop seq
    /\ option_map start (hd_error seq) = Some (0, 0).
Proof.
  apply (proj2 (from_verts_loop_closed same_vertex
                  [(0, 0); (5, 70); (15, 70); (20, 0)] ltac:(simpl; lia))).
  cbn [app firstn steps_differ].
  replace (same_vertex (0, 0) (5, 70)) with false by (symmetry; apart).
  replace (same_vertex (5, 70) (15, 70)) with false by (symmetry; apart).
  replace (same_vertex (15, 70) (20, 0)) with false by (symmetry; apart).
  replace (same_vertex (20, 0) (0, 0)) with false by (symmetry; apart).
  reflexivity.
Defined.

(** The side from (0,0) to (10,0) with a cut of one fifth at each end. *)
Lemma side_with_cut_fifths :
  EdgeSeqFactory.side_with_cut (0, 0) (10, 0) (1 / 5) (1 / 5)
  = Ok [ Edge_new (0, 0) (2, 0); Edge_new (2, 0) (8, 0); Edge_new (8, 0) (10, 0) ].
Proof.
  rewrite side_with_cut_cases. unfold cut_verts.
  rewrite (Rltb_true 0 (1 / 5)) by lra. cbn [app tl chain steps_differ].
  replace (vadd (0, 0) (vscale (1 / 5) (vsub (10, 0) (0, 0)))) with (2, 0)
    by (unfold vadd, vscale, vsub; cbn [fst snd]; f_equal; lra).
  replace (vsub (10, 0) (vscale (1 / 5) (vsub (10, 0) (0, 0)))) with (8, 0)
    by (unfold vadd, vscale, vsub; cbn [fst snd]; f_equal; lra).
  replace (same_vertex (0, 0) (2, 0)) with false by (symmetry; apart).
  replace (same_vertex (2, 0) (8, 0)) with false by (symmetry; apart).
  replace (same_vertex (8, 0) (10, 0)) with false by (symmetry; apart).
  reflexivity.
Qed.

(** X3 at work: a cut of one fifth at each end gives three edges. *)
Lemma side_with_cut_chain_fifths :
  exists seq,
    EdgeSeqFactory.side_with_cut (0, 0) (10, 0) (1 / 5) (1 / 5) = Ok seq
    /\ List.length seq = 3%nat
    /\ chained seq
    /\ straight seq
    /\ option_map start (hd_error seq) = Some (0, 0)
    /\ end_ (List.last seq (Edge_new (0, 0) (10, 0))) = (10, 0).
Proof.
  destruct (side_with_cut_chain (0, 0) (10, 0) (1 / 5) (1 / 5)) as (_ & _ & H).
  destruct H as (seq & Hrun & Hlen & Hrest).
  - pose proof side_with_cut_fifths as E. rewrite side_with_cut_cases in E.
    destruct (steps_differ same_vertex _); [reflexivity | discriminate].
  - exists seq. split; [exact Hrun|]. split; [|exact Hrest].
    rewrite Hlen, (Rltb_true 0 (1 / 5)) by lra. reflexivity.
Defined.

(** X4 at work: a cut of one fifth at each end. *)
Lemma side_with_cut_lengths_fifths :
  Rsum (lengths [ Edge_new (0, 0) (2, 0); Edge_new (2, 0) (8, 0);
                  Edge_new (8, 0) (10, 0) ])
  = norm (vsub (10, 0) (0, 0))
  /\ (0 < 1 / 5 ->
      nth_error (lengths [ Edge_new (0, 0) (2, 0); Edge_new (2, 0) (8, 0);
                           Edge_new (8, 0) (10, 0) ]) 0
      = Some (1 / 5 * norm (vsub (10, 0) (0, 0))))
  /\ (0 < 1 / 5 ->
      List.last (lengths [ Edge_new (0, 0) (2, 0); Edge_new (2, 0) (8, 0);
                           Edge_new (8, 0) (10, 0) ]) 0
      = 1 / 5 * norm (vsub (10, 0) (0, 0))).
Proof.
  apply (side_with_cut_lengths (0, 0) (10, 0) (1 / 5) (1 / 5)).
  - exact side_with_cut_fifths.
  - rewrite !Rmax_right by lra. lra.
Defined.

(** ** The helpers of the factory: coordinates, [_softsign], objectives *)

Lemma norm_sqr (v : vertex) : norm v * norm v = fst v * fst v + snd v * snd v.
Proof. unfold norm. apply sqrt_sqrt. nra. Qed.

Lemma norm_pos (s e : vertex) : s <> e -> 0 < norm (vsub e s).
Proof.
  intro Hne. destruct (Rle_lt_or_eq_dec _ _ (norm_nonneg (vsub e s))) as [H|H];
    [exact H|].
  exfalso. apply Hne. pose proof (norm_sqr (vsub e s)) as Hs.
  rewrite <- H in Hs. unfold vsub in Hs. cbn [fst snd] in Hs.
  destruct s as (sx, sy), e as (ex, ey). cbn [fst snd] in Hs.
  destruct (Rplus_sqr_eq_0 (ex - sx) (ey - sy)) as (Hx & Hy);
    [unfold Rsqr; lra|].
  f_equal; lra.
Qed.

Lemma sign_neg (x : R) : x < 0 -> EdgeSeqFactory.sign x = -1.
Proof. intro H. unfold EdgeSeqFactory.sign. now rewrite Rltb_true. Qed.

Lemma sign_pos (x : R) : 0 < x -> EdgeSeqFactory.sign x = 1.
Proof.
  intro H. unfold EdgeSeqFactory.sign.
  rewrite Rltb_false by lra. now rewrite Rltb_true.
Qed.

Lemma sign_zero : EdgeSeqFactory.sign 0 = 0.
Proof. unfold EdgeSeqFactory.sign. now rewrite !Rltb_false by lra. Qed.

(** [_rel_to_abs_coords] in coordinates. *)
Lemma rel_to_abs_eq (s e v : vertex) :
  EdgeSeqFactory._rel_to_abs_coords s e v
  = (fst s + (fst v * fst (vsub e s) - snd v * snd (vsub e s)) * / norm (vsub e s),
     snd s + (fst v * snd (vsub e s) + snd v * fst (vsub e s)) * / norm (vsub e s)).
Proof.
  unfold EdgeSeqFactory._rel_to_abs_coords, vadd, vscale. cbn [fst snd].
  f_equal; ring.
Qed.

(** [_abs_to_rel_2d] in coordinates: the fraction of the edge at which
    the point projects, and its signed distance from the line of the edge
    in units of the edge length (positive on the left). *)
Lemma abs_to_rel_eq (s e p : vertex) :
  s <> e ->
  EdgeSeqFactory._abs_to_rel_2d s e p
  = (EdgeSeqFactory.dot (vsub e s) (vsub p s) / (norm (vsub e s) * norm (vsub e s)),
     EdgeSeqFactory.cross (vsub e s) (vsub p s) / (norm (vsub e s) * norm (vsub e s))).
Proof.
  intro Hne. pose proof (norm_pos s e Hne) as HL. pose proof (norm_sqr (vsub e s)) as HLL.
  unfold EdgeSeqFactory._abs_to_rel_2d. cbv zeta.
  set (L := norm (vsub e s)) in *.
  set (d := vsub e s) in *. set (q := vsub p s).
  set (c := EdgeSeqFactory.cross d q).
  assert (Hc0 : EdgeSeqFactory.dot d q / L / L
                = EdgeSeqFactory.dot d q / (fst d * fst d + snd d * snd d)).
  { rewrite <- HLL. field. lra. }
  assert (Hn : norm (vsub q (vscale (EdgeSeqFactory.dot d q / L / L) d)) = Rabs c / L).
  { rewrite Hc0. unfold norm. apply sqrt_eq.
    - apply Rmult_le_pos; [apply Rabs_pos | left; now apply Rinv_0_lt_compat].
    - replace (Rabs c / L * (Rabs c / L)) with (c * c / (L * L)).
      + rewrite HLL. unfold c, EdgeSeqFactory.cross, EdgeSeqFactory.dot, vsub, vscale.
        cbn [fst snd]. field. rewrite <- HLL. nra.
      + replace (c * c) with (Rabs c * Rabs c).
        * field. lra.
        * unfold Rabs. destruct (Rcase_abs c); ring. }
  rewrite Hn. f_equal; [field; lra|].
  replace (EdgeSeqFactory.cross q d) with (- c)
    by (unfold c, EdgeSeqFactory.cross; ring).
  destruct (Rtotal_order c 0) as [Hlt | [Heq | Hgt]].
  - rewrite sign_pos by lra. rewrite Rabs_left by exact Hlt. field. lra.
  - rewrite Heq, Ropp_0, sign_zero, Rabs_R0. field. lra.
  - rewrite sign_neg by lra. rewrite Rabs_right by lra. field. lra.
Qed.

(** X5: for an edge with [start <> end], [_rel_to_abs_coords] undoes
    [_abs_to_rel_2d] once the relative coordinates, which are fractions of
    the edge length, are scaled by that length. *)
Theorem rel_abs_round_trip (start_ end' p : vertex) :
  start_ <> end' ->
  EdgeSeqFactory._rel_to_abs_coords start_ end'
    (vscale (norm (vsub end' start_)) (EdgeSeqFactory._abs_to_rel_2d start_ end' p))
  = p.
Proof.
  intro Hne. pose proof (norm_pos _ _ Hne) as HL.
  pose proof (norm_sqr (vsub end' start_)) as HLL.
  rewrite abs_to_rel_eq by exact Hne. rewrite rel_to_abs_eq.
  unfold vscale. cbn [fst snd]. rewrite HLL.
  set (L := norm (vsub end' start_)) in *.
  destruct start_ as (sx, sy), end' as (ex, ey), p as (px, py).
  unfold EdgeSeqFactory.dot, EdgeSeqFactory.cross, vsub in *. cbn [fst snd] in *.
  f_equal; field; split; try lra; rewrite <- HLL; nra.
Qed.

(** X6: in the other direction, [_abs_to_rel_2d] recovers from the point
    that [_rel_to_abs_coords] builds the coordinates it was built from,
    divided by the edge length. *)
Theorem abs_rel_round_trip (start_ end' v : vertex) :
  start_ <> end' ->
  EdgeSeqFactory._abs_to_rel_2d start_ end'
    (EdgeSeqFactory._rel_to_abs_coords start_ end' v)
  = vscale (/ norm (vsub end' start_)) v.
Proof.
  intro Hne. pose proof (norm_pos _ _ Hne) as HL.
  pose proof (norm_sqr (vsub end' start_)) as HLL.
  rewrite abs_to_rel_eq by exact Hne. rewrite rel_to_abs_eq.
  set (L := norm (vsub end' start_)) in *.
  destruct start_ as (sx, sy), end' as (ex, ey), v as (v0, v1).
  unfold EdgeSeqFactory.dot, EdgeSeqFactory.cross, vsub, vscale in *.
  cbn [fst snd] in *.
  f_equal.
  - replace ((ex - sx) * (sx + (v0 * (ex - sx) - v1 * (ey - sy)) * / L - sx)
             + (ey - sy) * (sy + (v0 * (ey - sy) + v1 * (ex - sx)) * / L - sy))
      with (v0 * ((ex - sx) * (ex - sx) + (ey - sy) * (ey - sy)) * / L)
      by (field; lra).
    rewrite <- HLL. field. lra.
  - replace ((ex - sx) * (sy + (v0 * (ey - sy) + v1 * (ex - sx)) * / L - sy)
             - (ey - sy) * (sx + (v0 * (ex - sx) - v1 * (ey - sy)) * / L - sx))
      with (v1 * ((ex - sx) * (ex - sx) + (ey - sy) * (ey - sy)) * / L)
      by (field; lra).
    rewrite <- HLL. field. lra.
Qed.

(** X7: [_rel_to_abs_coords] keeps distances from the start vertex: the
    point with relative coordinates [v] lies at distance [|v|] from
    [start]; in particular the point [[l, 0]] lies at distance [|l|]. *)
Theorem rel_to_abs_distance (start_ end' v : vertex) :
  start_ <> end' ->
  norm (vsub (EdgeSeqFactory._rel_to_abs_coords start_ end' v) start_) = norm v.
Proof.
  intro Hne. pose proof (norm_pos _ _ Hne) as HL.
  pose proof (norm_sqr (vsub end' start_)) as HLL.
  rewrite rel_to_abs_eq.
  set (L := norm (vsub end' start_)) in *.
  destruct start_ as (sx, sy), end' as (ex, ey), v as (v0, v1).
  unfold norm at 1. unfold vsub in *. cbn [fst snd] in *.
  unfold norm. cbn [fst snd]. f_equal.
  replace ((sx + (v0 * (ex - sx) - v1 * (ey - sy)) * / L - sx)
           * (sx + (v0 * (ex - sx) - v1 * (ey - sy)) * / L - sx)
           + (sy + (v0 * (ey - sy) + v1 * (ex - sx)) * / L - sy)
             * (sy + (v0 * (ey - sy) + v1 * (ex - sx)) * / L - sy))
    with ((v0 * v0 + v1 * v1)
          * ((ex - sx) * (ex - sx) + (ey - sy) * (ey - sy)) * / (L * L))
    by (field; lra).
  rewrite <- HLL. field. lra.
Qed.

Lemma softsign_bounds (x : R) : -1 < EdgeSeqFactory._softsign x < 1.
Proof.
  unfold EdgeSeqFactory._softsign.
  assert (Hx : 0 < Rabs x + 1) by (pose proof (Rabs_pos x); lra).
  split; apply Rmult_lt_reg_r with (Rabs x + 1); try exact Hx;
    replace (x / (Rabs x + 1) * (Rabs x + 1)) with x by (field; lra);
    unfold Rabs; destruct (Rcase_abs x); lra.
Qed.

Lemma softsign_increasing (x y : R) :
  x < y -> EdgeSeqFactory._softsign x < EdgeSeqFactory._softsign y.
Proof.
  intro Hxy. unfold EdgeSeqFactory._softsign.
  assert (Hx : 0 < Rabs x + 1) by (pose proof (Rabs_pos x); lra).
  assert (Hy : 0 < Rabs y + 1) by (pose proof (Rabs_pos y); lra).
  apply Rmult_lt_reg_r with ((Rabs x + 1) * (Rabs y + 1));
    [now apply Rmult_lt_0_compat|].
  replace (x / (Rabs x + 1) * ((Rabs x + 1) * (Rabs y + 1)))
    with (x * (Rabs y + 1)) by (field; lra).
  replace (y / (Rabs y + 1) * ((Rabs x + 1) * (Rabs y + 1)))
    with (y * (Rabs x + 1)) by (field; lra).
  unfold Rabs. destruct (Rcase_abs x), (Rcase_abs y); nra.
Qed.

Lemma softsign_injective (x y : R) :
  EdgeSeqFactory._softsign x = EdgeSeqFactory._softsign y -> x = y.
Proof.
  intro H. destruct (Rtotal_order x y) as [Hlt | [Heq | Hgt]]; [|exact Heq|].
  - pose proof (softsign_increasing x y Hlt). lra.
  - pose proof (softsign_increasing y x Hgt). lra.
Qed.

(** X8: [_softsign] maps the reals strictly increasingly into the open
    interval from -1 to 1. *)
Theorem softsign_bounded_increasing (x y : R) :
  (-1 < EdgeSeqFactory._softsign x < 1)
  /\ (x < y -> EdgeSeqFactory._softsign x < EdgeSeqFactory._softsign y).
Proof.
  split; [apply softsign_bounds | apply softsign_increasing].
Qed.

Lemma sqr_zero (x : R) : x ^ 2 = 0 -> x = 0.
Proof. intro H. nra. Qed.

(** X9: the objective [_fit_dart] is never negative, and it is zero
    exactly when the three points meet every constraint: the two distances
    from the side's ends, the two dart sides of length [depth], the two
    angle conditions, and equal cross products of [p0] and [p1] with the
    side (the two points at the same signed distance from its line). *)
Theorem fit_dart_zero_iff (p0 p_tip p1 v0 v1 : vertex) (d0 d1 depth theta : R) :
  0 <= EdgeSeqFactory._fit_dart (p0, p_tip, p1) v0 v1 d0 d1 depth theta
  /\ (EdgeSeqFactory._fit_dart (p0, p_tip, p1) v0 v1 d0 d1 depth theta = 0
      <-> norm (vsub p0 v0) = d0
          /\ norm (vsub p1 v1) = d1
          /\ norm (vsub p0 p_tip) = depth
          /\ norm (vsub p1 p_tip) = depth
          /\ EdgeSeqFactory.dot (vsub p_tip p0) (vsub v0 p0)
             = cos (EdgeSeqFactory.deg2rad theta) * d0 * depth
          /\ EdgeSeqFactory.dot (vsub p_tip p1) (vsub v1 p1)
             = - (cos (EdgeSeqFactory.deg2rad theta) * d1 * depth)
          /\ EdgeSeqFactory.cross (vsub v1 v0) (vsub p1 v0)
             = EdgeSeqFactory.cross (vsub v1 v0) (vsub p0 v0)).
Proof.
  unfold EdgeSeqFactory._fit_dart. cbv zeta. cbn [Rsum].
  set (a1 := norm (vsub p0 v0) - d0).
  set (a2 := norm (vsub p1 v1) - d1).
  set (a3 := norm (vsub p0 p_tip) - depth).
  set (a4 := norm (vsub p1 p_tip) - depth).
  set (a5 := EdgeSeqFactory.dot (vsub p_tip p0) (vsub v0 p0)
             - cos (EdgeSeqFactory.deg2rad theta) * d0 * depth).
  set (a6 := EdgeSeqFactory.dot (vsub p_tip p1) (vsub v1 p1)
             + cos (EdgeSeqFactory.deg2rad theta) * d1 * depth).
  set (c1 := EdgeSeqFactory.cross (vsub v1 v0) (vsub p1 v0)).
  set (c0 := EdgeSeqFactory.cross (vsub v1 v0) (vsub p0 v0)).
  set (a7 := EdgeSeqFactory._softsign c1 - EdgeSeqFactory._softsign c0).
  assert (H1 : 0 <= a1 ^ 2) by nra. assert (H2 : 0 <= a2 ^ 2) by nra.
  assert (H3 : 0 <= a3 ^ 2) by nra. assert (H4 : 0 <= a4 ^ 2) by nra.
  assert (H5 : 0 <= a5 ^ 2) by nra. assert (H6 : 0 <= a6 ^ 2) by nra.
  assert (H7 : 0 <= a7 ^ 2) by nra.
  split; [lra|]. split.
  - intro H.
    assert (E1 : a1 ^ 2 = 0) by lra. assert (E2 : a2 ^ 2 = 0) by lra.
    assert (E3 : a3 ^ 2 = 0) by lra. assert (E4 : a4 ^ 2 = 0) by lra.
    assert (E5 : a5 ^ 2 = 0) by lra. assert (E6 : a6 ^ 2 = 0) by lra.
    assert (E7 : a7 ^ 2 = 0) by lra.
    apply sqr_zero in E1, E2, E3, E4, E5, E6, E7.
    unfold a1, a2, a3, a4, a5, a6, a7 in *.
    repeat split; try lra.
    apply softsign_injective. lra.
  - intros (E1 & E2 & E3 & E4 & E5 & E6 & E7).
    subst a1 a2 a3 a4 a5 a6 a7 c1 c0. rewrite E1, E2, E3, E4, E5, E6, E7.
    field.
Qed.

(** X10: the objective [_fit_y_extremum] of [curve_from_extreme].  With
    the control ordinate [cp_y = 0] the curve has no extreme point and the
    objective raises [RuntimeError]; otherwise the extreme point is the
    point at parameter 1/2, [(target[0]/2 + 1/4, cp_y/2)], and the
    objective is its squared distance from the target. *)
Theorem fit_y_extremum_value (cp_y : R) (target : vertex) :
  EdgeSeqFactory._fit_y_extremum cp_y target
  = if Req_dec_T cp_y 0
    then Raise (RuntimeError No_extreme_points)
    else Ok ((fst target / 2 + 1 / 4 - fst target) ^ 2 + (cp_y / 2 - snd target) ^ 2).
Proof.
  unfold EdgeSeqFactory._fit_y_extremum, EdgeSeqFactory._extreme_points.
  cbn [fst snd]. destruct (Req_dec_T cp_y 0) as [H|H].
  - destruct (Req_dec_T (0 - 2 * cp_y + 0) 0) as [_|N]; [reflexivity|].
    exfalso. apply N. rewrite H. ring.
  - destruct (Req_dec_T (0 - 2 * cp_y + 0) 0) as [E|_]; [exfalso; lra|].
    replace ((0 - cp_y) / (0 - 2 * cp_y + 0)) with (1 / 2) by (field; lra).
    rewrite !Rltb_true by lra. cbn [andb map Rsum].
    f_equal.
    unfold EdgeSeqFactory.bezier_point, vadd, vscale, vsub. cbn [fst snd].
    rewrite <- Rsqr_pow2, Rsqr_sqrt; [field|].
    apply Rplus_le_le_0_compat; [|lra].
    apply Rplus_le_le_0_compat; apply pow2_ge_0.
Qed.

(** X5 at work: a point beside the edge from (0,0) to (3,4). *)
Lemma rel_abs_round_trip_3_4 :
  EdgeSeqFactory._rel_to_abs_coords (0, 0) (3, 4)
    (vscale (norm (vsub (3, 4) (0, 0)))
       (EdgeSeqFactory._abs_to_rel_2d (0, 0) (3, 4) (1, 2)))
  = (1, 2).
Proof.
  apply (rel_abs_round_trip (0, 0) (3, 4) (1, 2)).
  intro E. injection E as E _. lra.
Defined.

(** X6 at work. *)
Lemma abs_rel_round_trip_3_4 :
  EdgeSeqFactory._abs_to_rel_2d (0, 0) (3, 4)
    (EdgeSeqFactory._rel_to_abs_coords (0, 0) (3, 4) (5, 1))
  = vscale (/ norm (vsub (3, 4) (0, 0))) (5, 1).
Proof.
  apply (abs_rel_round_trip (0, 0) (3, 4) (5, 1)).
  intro E. injection E as E _. lra.
Defined.

(** X7 at work. *)
Lemma rel_to_abs_distance_3_4 :
  norm (vsub (EdgeSeqFactory._rel_to_abs_coords (0, 0) (3, 4) (14, 0)) (0, 0))
  = norm (14, 0).
Proof.
  apply (rel_to_abs_distance (0, 0) (3, 4) (14, 0)).
  intro E. injection E as E _. lra.
Defined.

(** X8 at work. *)
Lemma softsign_bounded_increasing_1_2 :
  EdgeSeqFactory._softsign 1 < EdgeSeqFactory._softsign 2.
Proof.
  apply (proj2 (softsign_bounded_increasing 1 2)). lra.
Defined.

(** ** The dart constructors: what is checked before anything is done *)

Section MoreDarts.
Context `{GU : generic_utils} `{EM : edge_module} `{MT : edge_methods}
        `{SO : scipy_optimize}.

(** X11: [side_with_dart_by_len] raises [ValueError] whenever
    [target_len] is not smaller than the length of the side, whatever
    [dart_position] is: the test [(d0 + d1) >= L] adds [dart_position] to
    [target_len - dart_position].  It does so before the solver is called
    and before anything is printed. *)
Theorem side_with_dart_by_len_long_target
    (start_ end' : pyvertex) (target_len depth dart_position dart_angle : R)
    (right : bool) (panel : option nat) (tol : R) (m : Mem) (v0 v1 : vertex) :
  deref start_ m = (Ok v0, m) ->
  deref end' m = (Ok v1, m) ->
  norm (vsub v0 v1) <= target_len ->
  EdgeSeqFactory.side_with_dart_by_len start_ end' target_len depth dart_position
    dart_angle right panel tol m
  = (Raise (ValueError Invalid_dart_position), m).
Proof.
  intros Hs He Hlen.
  unfold EdgeSeqFactory.side_with_dart_by_len.
  rewrite (bind_ok _ _ _ _ _ Hs), (bind_ok _ _ _ _ _ He). cbv zeta.
  rewrite Rltb_false by lra. reflexivity.
Qed.

(** X12: [side_with_dart_by_width] raises, with nothing written or
    printed, when the dart position lies beyond the end of the side
    ([ValueError]) and, for a position on the side, when [end] is a tuple,
    as its default [(100, 0)] is: the assignment [end[:] = ...] then
    raises [TypeError]. *)
Theorem side_with_dart_by_width_refuses
    (start_ end' : pyvertex) (v0 v1 : vertex)
    (width depth dart_position opening_angle : R) (right : bool) (modify : string)
    (panel : option nat) (m : Mem) :
  deref start_ m = (Ok v0, m) ->
  deref end' m = (Ok v1, m) ->
  norm (vsub v1 v0) < dart_position \/ (exists v, end' = pytuple v) ->
  EdgeSeqFactory.side_with_dart_by_width start_ end' width depth dart_position
    opening_angle right modify panel m
  = (Raise (if Rltb (norm (vsub v1 v0) - dart_position) 0
            then ValueError Invalid_dart_position
            else TypeError), m).
Proof.
  intros Hs He Hcase. unfold EdgeSeqFactory.side_with_dart_by_width.
  rewrite (bind_ok _ _ _ _ _ Hs), (bind_ok _ _ _ _ _ He). cbv zeta.
  destruct (Rltb (norm (vsub v1 v0) - dart_position) 0) eqn:E; [reflexivity|].
  apply Rltb_spec_false in E.
  destruct Hcase as [Hpos | (v & ->)]; [lra | reflexivity].
Qed.

(** X13: for [0 <= width <= 2 * depth], when the edge constructor finds
    that the apex differs from both ends of the opening, the shape that
    [dart_shape] returns is an isosceles triangle without its base: its two
    edges both have the length [depth] (the parameter is the length of a
    dart side, not the height of the dart), and its ends are [width]
    apart. *)
Theorem dart_shape_sides (width depth : R) :
  0 <= width ->
  width / 2 <= depth ->
  same_vertex (0, 0) (width / 2, - sqrt (depth ^ 2 - (width / 2) ^ 2)) = false ->
  same_vertex (width / 2, - sqrt (depth ^ 2 - (width / 2) ^ 2)) (width, 0) = false ->
  exists e1 e2 a b c,
    EdgeSeqFactory.dart_shape width depth = Ok [e1; e2]
    /\ finite_vertex (start e1) = Some a
    /\ finite_vertex (end_ e1) = Some b
    /\ start e2 = end_ e1
    /\ finite_vertex (end_ e2) = Some c
    /\ norm (vsub b a) = depth
    /\ norm (vsub c b) = depth
    /\ norm (vsub c a) = width.
Proof.
  intros Hw Hd H1 H2.
  assert (Hx : 0 <= depth ^ 2 - (width / 2) ^ 2) by nra.
  unfold EdgeSeqFactory.dart_shape, np_sqrt. cbv zeta.
  rewrite Rltb_false by lra. cbn [np_neg].
  rewrite from_verts_cons by discriminate.
  cbn [steps_differ np_same_vertex chain]. rewrite H1, H2. cbn [negb andb].
  do 2 eexists. exists (0, 0), (width / 2, - sqrt (depth ^ 2 - (width / 2) ^ 2)), (width, 0).
  split; [reflexivity|]. cbn [start end_ Edge_new finite_vertex].
  repeat split.
  - unfold norm, vsub. cbn [fst snd]. apply sqrt_eq; [lra|].
    pose proof (sqrt_sqrt _ Hx). nra.
  - unfold norm, vsub. cbn [fst snd]. apply sqrt_eq; [lra|].
    pose proof (sqrt_sqrt _ Hx). nra.
  - unfold norm, vsub. cbn [fst snd]. apply sqrt_eq; [lra | ring].
Qed.

End MoreDarts.

(** X11 at work: a side of length 10 and a target length of 12. *)
Lemma side_with_dart_by_len_long_target_12 :
  EdgeSeqFactory.side_with_dart_by_len (pylist 0) (pylist 1) 12 3 4 90 true None
    (1 / 10000) two_vertices
  = (Raise (ValueError Invalid_dart_position), two_vertices).
Proof.
  apply (side_with_dart_by_len_long_target (pylist 0) (pylist 1) 12 3 4 90 true None
           (1 / 10000) two_vertices (0, 0) (10, 0)).
  - reflexivity.
  - reflexivity.
  - unfold norm, vsub. cbn [fst snd]. rewrite (sqrt_eq _ 10); lra.
Defined.

(** X12 at work: the default arguments [start=(0,0)], [end=(100,0)],
    [width=5], [depth=10], [dart_position=50]. *)
Lemma side_with_dart_by_width_defaults :
  EdgeSeqFactory.side_with_dart_by_width (pytuple (0, 0)) (pytuple (100, 0)) 5 10 50
    180 true "both" None two_vertices
  = (Raise (if Rltb (norm (vsub (100, 0) (0, 0)) - 50) 0
            then ValueError Invalid_dart_position
            else TypeError), two_vertices).
Proof.
  apply (side_with_dart_by_width_refuses (pytuple (0, 0)) (pytuple (100, 0))
           (0, 0) (100, 0)).
  - reflexivity.
  - reflexivity.
  - right. exists (100, 0). reflexivity.
Defined.

(** X13 at work: the dart of width 6 and depth 5. *)
Lemma dart_shape_sides_6_5 :
  exists e1 e2 a b c,
    EdgeSeqFactory.dart_shape 6 5 = Ok [e1; e2]
    /\ finite_vertex (start e1) = Some a
    /\ finite_vertex (end_ e1) = Some b
    /\ start e2 = end_ e1
    /\ finite_vertex (end_ e2) = Some c
    /\ norm (vsub b a) = 5
    /\ norm (vsub c b) = 5
    /\ norm (vsub c a) = 6.
Proof.
  assert (E : sqrt (5 ^ 2 - (6 / 2) ^ 2) = 4) by (apply sqrt_eq; lra).
  apply (dart_shape_sides 6 5); [lra | lra | rewrite E; apart | rewrite E; apart].
Defined.

(** ** More on [_match_side_count] and on the construction of a rule *)

Lemma within_budget_ret {S A} (a : A) : within_budget (@ret S A a).
Proof. intros w. discriminate. Qed.

Lemma within_budget_bind {S A B} (c : ST S A) (k : A -> ST S B) :
  within_budget c -> (forall a, within_budget (k a)) -> within_budget (bind c k).
Proof.
  intros Hc Hk w. unfold bind. specialize (Hc w).
  destruct (c w) as [[a|e] w1]; [apply Hk|].
  simpl in *. intro E. apply Hc. injection E as ->. reflexivity.
Qed.

Lemma within_budget_index {S A} (l : list A) (n : nat) :
  within_budget (@lift S A (index l n)).
Proof. intros w. unfold lift, index. destruct (nth_error l n); discriminate. Qed.

Lemma within_budget_get_interface (i : nat) : within_budget (get_interface i).
Proof.
  intros w. unfold get_interface. destruct (nth_error (interfaces w) i); discriminate.
Qed.

Lemma within_budget_get_panel (p : nat) : within_budget (get_panel p).
Proof.
  intros w. unfold get_panel. destruct (nth_error (panels w) p); discriminate.
Qed.

Lemma within_budget_mapM {S A B} (f : A -> ST S B) (l : list A) :
  (forall a, within_budget (f a)) -> within_budget (mapM f l).
Proof.
  intro Hf. induction l as [|a l IH]; simpl; [apply within_budget_ret|].
  apply within_budget_bind; [apply Hf | intro b].
  apply within_budget_bind; [exact IH | intro bs]. apply within_budget_ret.
Qed.

Lemma list_insert_length {A} (l : list A) (n : nat) (a : A) :
  List.length (list_insert l n a) = S (List.length l).
Proof.
  unfold list_insert. rewrite length_app. cbn [List.length].
  rewrite Nat.add_succ_r, <- length_app, firstn_skipn. reflexivity.
Qed.

Lemma chained_app {V} (s1 s2 : EdgeSequence V) (d1 d2 : Edge V) :
  chained s1 -> chained s2 ->
  (s1 <> [] -> s2 <> [] -> end_ (List.last s1 d1) = start (List.hd d2 s2)) ->
  chained (s1 ++ s2).
Proof.
  intros H1 H2 Hj. induction s1 as [|x s1 IH]; [exact H2|].
  destruct s1 as [|y s1].
  - destruct s2 as [|z s2]; [exact I|]. simpl. split; [|exact H2].
    apply (Hj ltac:(discriminate) ltac:(discriminate)).
  - destruct H1 as (Hxy & H1). change ((x :: y :: s1) ++ s2) with (x :: (y :: s1) ++ s2).
    simpl. split; [exact Hxy|]. apply IH; [exact H1|].
    intros _ Hs2. apply Hj; [discriminate | exact Hs2].
Qed.

Lemma chained_tail {V} (x : Edge V) (s : EdgeSequence V) : chained (x :: s) -> chained s.
Proof. destruct s; [intros; exact I | intros (_ & H); exact H]. Qed.

Lemma chained_map_inherit (orig : Edge vertex) (s : EdgeSequence vertex) :
  chained s -> chained (map (inherit orig) s).
Proof.
  induction s as [|x s IH]; [intros; exact I|].
  destruct s as [|y s]; [intros; exact I|].
  intros (Hxy & H). simpl. split; [exact Hxy | apply IH; exact H].
Qed.

(** Putting a chain that runs from the start to the end of an edge in the
    place of that edge keeps a chain a chain, and keeps where it starts
    and where it ends. *)
Lemma substitute_chained (l : EdgeSequence vertex) (orig e1 e2 : Edge vertex)
    (r : EdgeSequence vertex) :
  substitute l orig [e1; e2] = Ok r ->
  start e1 = start orig -> end_ e1 = start e2 -> end_ e2 = end_ orig ->
  chained l ->
  chained r
  /\ (forall d, start (List.hd d r) = start (List.hd d l))
  /\ (forall d, end_ (List.last r d) = end_ (List.last l d))
  /\ r <> [].
Proof.
  intros Hsub Hs Hm He. revert r Hsub.
  induction l as [|x l IH]; intros r Hsub Hc; simpl in Hsub; [discriminate|].
  destruct (Edge_eq_dec x orig) as [->|Hne].
  - injection Hsub as <-. cbn [map app].
    split; [|split; [|split]].
    + change (chained ([inherit orig e1; inherit orig e2] ++ l)).
      apply (chained_app _ _ orig orig); [split; [exact Hm | exact I] | |].
      * now apply chained_tail in Hc.
      * intros _ Hl. destruct l as [|y l]; [congruence|].
        cbn [List.last List.hd inherit end_]. rewrite He. apply Hc.
    + intro d. cbn [List.hd inherit start]. exact Hs.
    + intro d. destruct l as [|y l].
      * cbn [List.last inherit end_]. exact He.
      * reflexivity.
    + discriminate.
  - destruct (substitute l orig [e1; e2]) as [r'|] eqn:E; [|discriminate].
    injection Hsub as <-.
    destruct (IH r' eq_refl (chained_tail _ _ Hc)) as (Hc' & Hhd & Hlast & Hne').
    split; [|split; [|split]].
    + destruct r' as [|y' r']; [congruence|].
      destruct l as [|y l]; [discriminate|].
      split; [|exact Hc'].
      specialize (Hhd x). cbn [List.hd] in Hhd. rewrite Hhd. apply Hc.
    + intro d. reflexivity.
    + intro d. destruct r' as [|y' r']; [congruence|].
      destruct l as [|y l]; [discriminate|].
      change (end_ (List.last (y' :: r') d) = end_ (List.last (y :: l) d)).
      apply Hlast.
    + discriminate.
Qed.

Lemma substitute_closed_loop (l : EdgeSequence vertex) (orig e1 e2 : Edge vertex)
    (r : EdgeSequence vertex) :
  substitute l orig [e1; e2] = Ok r ->
  start e1 = start orig -> end_ e1 = start e2 -> end_ e2 = end_ orig ->
  closed_loop l -> closed_loop r.
Proof.
  intros Hsub Hs Hm He (Hc & Hl).
  destruct (substitute_chained _ _ _ _ _ Hsub Hs Hm He Hc) as (Hc' & Hhd & Hlast & Hne).
  split; [exact Hc'|].
  destruct r as [|y r]; [exact I|].
  destruct l as [|x l]; [discriminate|].
  rewrite Hlast. specialize (Hhd x). cbn [List.hd] in Hhd. rewrite Hhd.
  rewrite <- Hl. f_equal. apply last_default. discriminate.
Qed.

Section MoreSideCount.
Context `{GU : generic_utils} `{EM : edge_module} `{IM : interface_module}.

(** A transitive relation between heaps that every turn of the loop
    respects holds between the heap before and the heap after a call of
    [_match_side_count], whatever its outcome. *)
Lemma side_count_rel (Rel : World -> World -> Prop) (inter : nat) (to_add : list R)
    (tol : R) :
  (forall w, Rel w w) ->
  (forall w1 w2 w3, Rel w1 w2 -> Rel w2 w3 -> Rel w1 w3) ->
  (forall c w o w', body_result inter c w o w' -> Rel w w') ->
  forall w o w', _match_side_count inter to_add tol w = (o, w') -> Rel w w'.
Proof.
  intros Hrefl Htrans Hbody w o w' Hrun.
  apply (side_count_ind inter to_add tol (fun _ w1 => Rel w w1) (Rel w)) in Hrun;
    [apply Hrun | auto | | apply Hrefl].
  intros c w0 i o0 w0' HP _ _ _ Hb.
  destruct o0; apply (Htrans _ w0); auto; eapply Hbody; eauto.
Qed.

Lemma match_edge_count_rel (Rel : World -> World -> Prop) (self : StitchingRule)
    (tol : R) :
  (forall w, Rel w w) ->
  (forall w1 w2 w3, Rel w1 w2 -> Rel w2 w3 -> Rel w1 w3) ->
  (forall inter to_add w o w',
      inter = int1 self \/ inter = int2 self ->
      _match_side_count inter to_add tol w = (o, w') -> Rel w w') ->
  forall w o w', match_edge_count self tol w = (o, w') -> Rel w w'.
Proof.
  intros Hrefl Htrans Hside w o w'.
  unfold match_edge_count, bind at 1, get_interface at 1.
  destruct (nth_error (interfaces w) (int1 self)) as [i1|];
    [|intro H; injection H as <- <-; apply Hrefl].
  unfold bind at 1.
  destruct (isTraversalMatching self w) as [o1 w1] eqn:Htm.
  apply isTraversalMatching_frame in Htm as ->.
  destruct o1 as [tm|e]; [|intro H; injection H as <- <-; apply Hrefl].
  unfold bind at 1, get_interface at 1.
  destruct (nth_error (interfaces w) (int2 self)) as [i2|];
    [|intro H; injection H as <- <-; apply Hrefl].
  unfold bind at 1.
  destruct (isTraversalMatching self w) as [o2 w2] eqn:Htm2.
  apply isTraversalMatching_frame in Htm2 as ->.
  destruct o2 as [tm2|e]; [|intro H; injection H as <- <-; apply Hrefl].
  destruct (negb (close_enough _ _ tol));
    [intro H; injection H as <- <-; apply Hrefl|].
  unfold bind at 1.
  destruct (_match_side_count (int1 self) _ tol w) as [o3 w3] eqn:H1.
  apply Hside in H1; [|now left].
  destruct o3 as [[]|e]; [|intro H; injection H as <- <-; exact H1].
  intro H2. apply Hside in H2; [|now right].
  eapply Htrans; eauto.
Qed.

Lemma StitchingRule_init_rel (Rel : World -> World -> Prop) (i1 i2 : nat) :
  (forall w, Rel w w) ->
  (forall w1 w2 w3, Rel w1 w2 -> Rel w2 w3 -> Rel w1 w3) ->
  (forall inter to_add w o w',
      inter = i1 \/ inter = i2 ->
      _match_side_count inter to_add default_tol w = (o, w') -> Rel w w') ->
  forall w o w', StitchingRule_init i1 i2 w = (o, w') -> Rel w w'.
Proof.
  intros Hrefl Htrans Hside w o w'.
  unfold StitchingRule_init, bind at 1.
  destruct (isMatching (mkRule i1 i2) w) as [o1 w1] eqn:Hm.
  apply isMatching_frame in Hm as ->.
  destruct o1 as [m|e]; [|intro H; injection H as <- <-; apply Hrefl].
  destruct (negb m); [|intro H; injection H as <- <-; apply Hrefl].
  unfold bind at 1.
  destruct (match_edge_count (mkRule i1 i2) default_tol w) as [o2 w2] eqn:Hmec.
  apply (match_edge_count_rel Rel (mkRule i1 i2) default_tol Hrefl Htrans Hside)
    in Hmec.
  destruct o2; intro H; injection H as <- <-; exact Hmec.
Qed.

Lemma framed_refl (touched : nat -> Prop) (w : World) : framed touched w w.
Proof.
  repeat split; auto. intros p pan Hp. exists pan. repeat split; auto.
Qed.

Lemma framed_trans (touched : nat -> Prop) (w1 w2 w3 : World) :
  framed touched w1 w2 -> framed touched w2 w3 -> framed touched w1 w3.
Proof.
  intros (Ha1 & Hb1 & Hc1 & Hd1) (Ha2 & Hb2 & Hc2 & Hd2).
  split; [congruence|]. split; [congruence|]. split.
  - intros k Hk. rewrite Hc2, Hc1 by exact Hk. reflexivity.
  - intros p pan Hp.
    destruct (Hd1 _ _ Hp) as (pan2 & Hp2 & Hn2 & Hq2 & Hl2).
    destruct (Hd2 _ _ Hp2) as (pan3 & Hp3 & Hn3 & Hq3 & Hl3).
    exists pan3. repeat split; try congruence. lia.
Qed.

Lemma framed_weaken (t1 t2 : nat -> Prop) (w w' : World) :
  (forall k, t1 k -> t2 k) -> framed t1 w w' -> framed t2 w w'.
Proof.
  intros Ht (Ha & Hb & Hc & Hd). repeat split; auto.
Qed.

Lemma body_framed (inter : nat) (c : cursor) (w w' : World) (o : outcome cursor) :
  body_result inter c w o w' -> framed (fun k => k = inter) w w'.
Proof.
  intros [e He | c1 Hin Hadd
         | i base_edge subdiv es_p es_i p pan frac c1
             Hi Hbase Hfrac Hff Hp Hpan Hsp Hsi Hin Hadd];
    try apply framed_refl.
  cbn [interfaces panels]. split; [apply list_set_length|].
  split; [apply list_set_length|]. split.
  - intros k Hk. apply nth_error_list_set_other. congruence.
  - intros q pan0 Hq. cbn [panels].
    destruct (Nat.eq_dec p q) as [<-|Hne].
    + rewrite nth_error_list_set by (apply nth_error_Some; congruence).
      rewrite Hpan in Hq. injection Hq as <-.
      eexists. split; [reflexivity|]. cbn [Panel.name Panel.point_to_3D Panel.edges].
      repeat split.
      pose proof (substitute_length _ _ _ _ Hsp) as Hl.
      destruct (from_fractions_split_length _ _ _ _ Hfrac Hff) as (_ & Hl2 & _). lia.
    + rewrite nth_error_list_set_other by exact Hne.
      exists pan0. repeat split; auto.
Qed.

Lemma side_count_framed (inter : nat) (to_add : list R) (tol : R) (w w' : World)
    (o : outcome unit) :
  _match_side_count inter to_add tol w = (o, w') -> framed (fun k => k = inter) w w'.
Proof.
  apply (side_count_rel (framed (fun k => k = inter))).
  - apply framed_refl.
  - apply framed_trans.
  - intros c w0 o0 w0'. apply body_framed.
Qed.

(** X14: constructing a rule, whether it returns or raises, writes only
    to its two interfaces and to the boundaries of panels: the heap keeps
    its numbers of interfaces and panels, every other interface is
    unchanged, and every panel keeps its name and its placement and loses
    no edge. *)
Theorem StitchingRule_init_frame (i1 i2 : nat) (w w' : World)
    (o : outcome StitchingRule) :
  StitchingRule_init i1 i2 w = (o, w') ->
  framed (fun k => k = i1 \/ k = i2) w w'.
Proof.
  apply (StitchingRule_init_rel (framed (fun k => k = i1 \/ k = i2))).
  - apply framed_refl.
  - apply framed_trans.
  - intros inter to_add w0 o0 w0' Hin Hrun.
    apply side_count_framed in Hrun.
    apply (framed_weaken (fun k => k = inter)); [|exact Hrun].
    intros k ->. exact Hin.
Qed.

Lemma loops_kept_refl (w : World) : loops_kept w w.
Proof. split; intros; eauto. Qed.

Lemma loops_kept_trans (w1 w2 w3 : World) :
  loops_kept w1 w2 -> loops_kept w2 w3 -> loops_kept w1 w3.
Proof.
  intros (Hp1 & Hi1) (Hp2 & Hi2). split.
  - intros p pan Hp Hc. destruct (Hp1 _ _ Hp Hc) as (pan2 & Hq & Hc2). eauto.
  - intros k i Hk Hc. destruct (Hi1 _ _ Hk Hc) as (i2 & Hq & Hc2). eauto.
Qed.

Lemma body_loops_kept (inter : nat) (c : cursor) (w w' : World) (o : outcome cursor) :
  body_result inter c w o w' -> loops_kept w w'.
Proof.
  intros [e He | c1 Hin Hadd
         | i base_edge subdiv es_p es_i p pan frac c1
             Hi Hbase Hfrac Hff Hp Hpan Hsp Hsi Hin Hadd];
    try apply loops_kept_refl.
  destruct (from_fractions_two _ _ _ _ _ Hff) as (_ & ->).
  split.
  - intros q pan0 Hq Hc. cbn [panels].
    destruct (Nat.eq_dec p q) as [<-|Hne].
    + rewrite nth_error_list_set by (apply nth_error_Some; congruence).
      rewrite Hpan in Hq. injection Hq as <-.
      eexists. split; [reflexivity|]. cbn [Panel.edges].
      eapply substitute_closed_loop; eauto.
    + rewrite nth_error_list_set_other by exact Hne. eauto.
  - intros k ik Hk Hc. cbn [interfaces].
    destruct (Nat.eq_dec inter k) as [<-|Hne].
    + rewrite nth_error_list_set by (apply nth_error_Some; congruence).
      rewrite Hi in Hk. injection Hk as <-.
      eexists. split; [reflexivity|]. cbn [Interface.edges].
      eapply substitute_chained; eauto.
    + rewrite nth_error_list_set_other by exact Hne. eauto.
Qed.

(** X15: constructing a rule, whether it returns or raises, keeps the
    boundary of every panel a closed loop and the edges of every chained
    interface chained: an edge is only ever replaced by two edges that
    run from its start, through the new vertex, to its end. *)
Theorem StitchingRule_init_keeps_loops (i1 i2 : nat) (w w' : World)
    (o : outcome StitchingRule) :
  StitchingRule_init i1 i2 w = (o, w') -> loops_kept w w'.
Proof.
  apply (StitchingRule_init_rel loops_kept).
  - apply loops_kept_refl.
  - apply loops_kept_trans.
  - intros inter to_add w0 o0 w0' _.
    apply (side_count_rel loops_kept).
    + apply loops_kept_refl.
    + apply loops_kept_trans.
    + intros c w1 o1 w1'. apply body_loops_kept.
Qed.

(** X16: [_match_side_count], whether it returns or raises, never takes
    an edge away from the interface and adds at most one edge per entry
    of [to_add]; the interface keeps as many more panel references than
    edges as it had (one reference per edge stays one reference per edge);
    and when the call returns, the interface has at least as many edges as
    [to_add] has entries. *)
Theorem match_side_count_edges (inter : nat) (to_add : list R) (tol : R)
    (w w' : World) (o : outcome unit) (i : Interface.t) :
  nth_error (interfaces w) inter = Some i ->
  _match_side_count inter to_add tol w = (o, w') ->
  exists i',
    nth_error (interfaces w') inter = Some i'
    /\ (List.length (Interface.edges i) <= List.length (Interface.edges i'))%nat
    /\ (List.length (Interface.edges i')
        <= List.length (Interface.edges i) + List.length to_add)%nat
    /\ (List.length (Interface.panel i') + List.length (Interface.edges i)
        = List.length (Interface.panel i) + List.length (Interface.edges i'))%nat
    /\ (o = Ok tt -> (List.length to_add <= List.length (Interface.edges i'))%nat).
Proof.
  intros Hi Hrun.
  pose (inv := fun (n : nat) (w1 : World) =>
                 exists i1,
                   nth_error (interfaces w1) inter = Some i1
                   /\ (List.length (Interface.edges i) <= List.length (Interface.edges i1))%nat
                   /\ (List.length (Interface.edges i1)
                       <= List.length (Interface.edges i) + n)%nat
                   /\ (List.length (Interface.panel i1) + List.length (Interface.edges i)
                       = List.length (Interface.panel i)
                         + List.length (Interface.edges i1))%nat).
  pose (P := fun (c : cursor) (w1 : World) =>
               (add_id c <= List.length to_add)%nat /\ inv (add_id c) w1).
  assert (Hmono : forall n m w1, (n <= m)%nat -> inv n w1 -> inv m w1).
  { intros n m w1 Hnm (i1 & H1 & H2 & H3 & H4). exists i1. repeat split; auto. lia. }
  pose proof Hrun as Hrun'.
  apply (side_count_ind inter to_add tol P (inv (List.length to_add))) in Hrun'.
  - destruct Hrun' as ((i' & H1 & H2 & H3 & H4) & _).
    exists i'. repeat split; auto.
    intros ->. destruct (side_count_grows _ _ _ _ _ Hrun) as (i'' & Hi'' & Hg).
    rewrite H1 in Hi''. injection Hi'' as <-. exact Hg.
  - intros c w1 (Hle & Hinv). now apply (Hmono (add_id c)).
  - intros c w0 i0 o0 w0' (Hle & Hinv) Hi0 Hin Hadd Hb.
    destruct Hb as [e He | c1 Hin1 Hadd1
                   | j base_edge subdiv es_p es_i p pan frac c1
                       Hj Hbase Hfrac Hff Hp Hpan Hsp Hsi Hin1 Hadd1].
    + now apply (Hmono (add_id c)).
    + split; [lia|]. apply (Hmono (add_id c)); [lia | exact Hinv].
    + split; [lia|].
      destruct Hinv as (i1 & H1 & H2 & H3 & H4).
      rewrite Hj in H1. injection H1 as <-.
      eexists. cbn [interfaces]. split.
      * apply nth_error_list_set. apply nth_error_Some. congruence.
      * cbn [Interface.edges Interface.panel]. rewrite list_insert_length.
        pose proof (substitute_length _ _ _ _ Hsi) as Hl.
        destruct (from_fractions_split_length _ _ _ _ Hfrac Hff) as (_ & Hl2 & _).
        repeat split; lia.
  - split; [simpl; lia|]. exists i. simpl. repeat split; auto; lia.
Qed.

Lemma isTraversalMatching_within_budget (self : StitchingRule) :
  within_budget (isTraversalMatching self).
Proof.
  unfold isTraversalMatching, corner_3D.
  repeat first
    [ apply within_budget_bind; [|intro]
    | apply within_budget_get_interface | apply within_budget_get_panel
    | apply within_budget_index | apply within_budget_ret
    | match goal with |- within_budget (lift (index_last _)) =>
        unfold index_last; apply within_budget_index end
    | match goal with |- within_budget (if ?b then _ else _) => destruct b end ].
Qed.

Lemma side_count_within_budget (inter : nat) (to_add : list R) (tol : R) :
  within_budget (_match_side_count inter to_add tol).
Proof.
  intros w E.
  destruct (_match_side_count inter to_add tol w) as [o w'] eqn:Hrun.
  simpl in E. subst o. revert Hrun. apply side_count_budget.
Qed.

(** X17: the [while] loop of [_match_side_count] always ends: it makes at
    most [len(inter.edges) + len(to_add)] turns, because every turn moves
    [in_id] or [add_id] one step closer to its bound.  So
    [_match_side_count], [match_edge_count], the construction of a rule
    and the construction of [Stitches] always come to an end, with a
    result or with one of the exceptions of the code. *)
Theorem stitching_terminates (inter : nat) (to_add : list R) (tol : R)
    (self : StitchingRule) (rules : list (nat * nat)) :
  within_budget (_match_side_count inter to_add tol)
  /\ within_budget (match_edge_count self tol)
  /\ within_budget (StitchingRule_init (int1 self) (int2 self))
  /\ within_budget (Stitches_init rules).
Proof.
  assert (Hmec : forall s t, within_budget (match_edge_count s t)).
  { intros s t. unfold match_edge_count.
    repeat first
      [ apply isTraversalMatching_within_budget
      | apply side_count_within_budget
      | apply within_budget_get_interface
      | apply within_budget_bind; [|intro]
      | match goal with |- within_budget (if ?b then _ else _) => destruct b end
      | (intros w0; discriminate) ]. }
  assert (Hinit : forall a b, within_budget (StitchingRule_init a b)).
  { intros a b. unfold StitchingRule_init, isMatching.
    repeat first
      [ apply Hmec
      | apply within_budget_get_interface
      | apply within_budget_ret
      | apply within_budget_bind; [|intro]
      | match goal with |- within_budget (if ?b then _ else _) => destruct b end ]. }
  split; [apply side_count_within_budget|]. split; [apply Hmec|].
  split; [apply Hinit|].
  unfold Stitches_init. apply within_budget_mapM. intro r. apply Hinit.
Qed.

End MoreSideCount.

(** The T-stitch of one edge of length 10 against edges of lengths 4 and
    6, run through the constructor of the rule and through one call of
    [_match_side_count]. *)
Lemma T_init_run :
  StitchingRule_init 0 1 (T_world 10 4 []) = (Ok T_rule, T_world_split 10 4).
Proof.
  unfold StitchingRule_init.
  rewrite (bind_ok _ _ _ _ _
             (isMatching_eval (T_world 10 4 []) (mkRule 0 1) _ _ eq_refl eq_refl)).
  cbn [T_interface_A T_interface_B Interface.edges List.length Nat.eqb negb].
  fold T_rule.
  rewrite (bind_ok _ _ _ _ _ (T_match_edge_count 10 4 default_tol []
                                ltac:(unfold default_tol; lra)
                                ltac:(unfold default_tol; lra)
                                ltac:(unfold default_tol; lra)
                                ltac:(apart) ltac:(apart))).
  reflexivity.
Qed.

Lemma T_side_run :
  _match_side_count 0 [4; 10 - 4] default_tol (T_world 10 4 [])
  = (Ok tt, T_world_split 10 4).
Proof. apply T_side_A; try apart; unfold default_tol; lra. Qed.

(** X14 at work: the T-stitch. *)
Lemma StitchingRule_init_frame_T :
  framed (fun k => k = 0%nat \/ k = 1%nat) (T_world 10 4 []) (T_world_split 10 4).
Proof.
  apply (StitchingRule_init_frame 0 1 (T_world 10 4 []) (T_world_split 10 4)
           (Ok T_rule)).
  exact T_init_run.
Defined.

(** X15 at work: the T-stitch. *)
Lemma StitchingRule_init_keeps_loops_T :
  loops_kept (T_world 10 4 []) (T_world_split 10 4).
Proof.
  apply (StitchingRule_init_keeps_loops 0 1 (T_world 10 4 []) (T_world_split 10 4)
           (Ok T_rule)).
  exact T_init_run.
Defined.

(** X16 at work: the single edge of side A receives one vertex. *)
Lemma match_side_count_edges_T :
  exists i',
    nth_error (interfaces (T_world_split 10 4)) 0 = Some i'
    /\ (List.length (Interface.edges (T_interface_A 10 []))
        <= List.length (Interface.edges i'))%nat
    /\ (List.length (Interface.edges i')
        <= List.length (Interface.edges (T_interface_A 10 []))
           + List.length [4; 10 - 4])%nat
    /\ (List.length (Interface.panel i')
        + List.length (Interface.edges (T_interface_A 10 []))
        = List.length (Interface.panel (T_interface_A 10 []))
          + List.length (Interface.edges i'))%nat
    /\ (Ok tt = Ok tt -> (List.length [4; 10 - 4] <= List.length (Interface.edges i'))%nat).
Proof.
  apply (match_side_count_edges 0 [4; 10 - 4] default_tol (T_world 10 4 [])
           (T_world_split 10 4) (Ok tt) (T_interface_A 10 [])).
  - reflexivity.
  - exact T_side_run.
Defined.

(** ** More on [assembly] and [Stitches] *)

Lemma readonly_mapM {S A B} (f : A -> ST S B) (l : list A) :
  (forall a, readonly (f a)) -> readonly (mapM f l).
Proof.
  intro Hf. induction l as [|a l IH]; simpl; [apply readonly_ret|].
  apply readonly_bind; [apply Hf | intro b].
  apply readonly_bind; [exact IH | intro bs]. apply readonly_ret.
Qed.

Lemma bind_ret_r {S A} (c : ST S A) (w : S) : bind c (fun a => ret a) w = c w.
Proof. unfold bind, ret. destruct (c w) as [[a|e] w']; reflexivity. Qed.

Lemma mapM_app {S A B} (f : A -> ST S B) (l1 l2 : list A) (w : S) :
  mapM f (l1 ++ l2) w
  = (x <- mapM f l1 ;; y <- mapM f l2 ;; ret (x ++ y)) w.
Proof.
  revert w. induction l1 as [|a l1 IH]; intro w.
  - cbn [app mapM]. rewrite bind_ret. symmetry. apply bind_ret_r.
  - cbn [app mapM]. unfold bind in *.
    destruct (f a w) as [[b|e] w1]; [|reflexivity].
    rewrite IH.
    destruct (mapM f l1 w1) as [[x|e] w2]; [|reflexivity].
    unfold ret. destruct (mapM f l2 w2) as [[y|e] w3]; reflexivity.
Qed.

Lemma norm3_sym (a b : vec3) : norm3 (sub3 a b) = norm3 (sub3 b a).
Proof.
  destruct a as ((ax, ay), az), b as ((bx, by_), bz). unfold norm3, sub3.
  f_equal. ring.
Qed.

Section MoreAssembly.
Context `{GU : generic_utils} `{EM : edge_module} `{IM : interface_module}.

Lemma assembly_readonly (self : StitchingRule) : readonly (assembly self).
Proof.
  unfold assembly.
  apply readonly_bind; [apply isMatching_readonly | intro m].
  destruct (negb m); [apply readonly_raise|].
  apply readonly_bind; [apply isTraversalMatching_readonly | intro tm].
  apply readonly_bind; [apply readonly_get_interface | intro i1].
  apply readonly_bind; [apply readonly_get_interface | intro i2].
  apply readonly_mapM. intros (i, j). unfold stitch_record.
  repeat first
    [ apply readonly_bind; [|intro]
    | apply readonly_get_interface | apply readonly_get_panel
    | apply readonly_lift | apply readonly_ret ].
Qed.

(** X18: [assembly] of a rule and [Stitches.assembly] only read: whether
    they return the stitches or raise, no interface and no panel has
    changed. *)
Theorem assembly_reads_only (self : StitchingRule) (rules : Stitches) :
  readonly (assembly self) /\ readonly (Stitches_assembly rules).
Proof.
  split; [apply assembly_readonly|].
  unfold Stitches_assembly.
  apply readonly_bind; [|intro ss; apply readonly_ret].
  apply readonly_mapM. apply assembly_readonly.
Qed.

(** X19: when the two interfaces of a rule have different numbers of
    edges, [assembly] raises the [RuntimeError] "Stitch sides do not
    matched" and gives no stitch. *)
Theorem assembly_count_mismatch (w : World) (self : StitchingRule)
    (i1 i2 : Interface.t) :
  nth_error (interfaces w) (int1 self) = Some i1 ->
  nth_error (interfaces w) (int2 self) = Some i2 ->
  List.length (Interface.edges i1) <> List.length (Interface.edges i2) ->
  assembly self w = (Raise (RuntimeError Stitch_sides_do_not_matched), w).
Proof.
  intros H1 H2 Hne. unfold assembly.
  rewrite (bind_ok _ _ _ _ _ (isMatching_eval w self i1 i2 H1 H2)).
  apply Nat.eqb_neq in Hne. rewrite Hne. reflexivity.
Qed.

(** X20: for two interfaces with the same number [n] of edges, each with
    one panel of the heap per edge, [assembly] returns [n] stitches:
    stitch [k] joins edge [k] of the first interface to edge [k] of the
    second one, or to edge [n - 1 - k] when the traversal test says that
    the directions differ; each side is given by the name of the panel
    that owns the edge and the [geometric_id] of the edge. *)
Theorem assembly_pairs (w : World) (self : StitchingRule) (i1 i2 : Interface.t)
    (tm : bool) :
  binds w self i1 i2 ->
  isTraversalMatching self w = (Ok tm, w) ->
  List.length (Interface.edges i1) = List.length (Interface.edges i2) ->
  exists recs,
    assembly self w = (Ok recs, w)
    /\ List.length recs = List.length (Interface.edges i1)
    /\ forall k, (k < List.length (Interface.edges i1))%nat ->
         exists s1 s2,
           side_at w i1 k = Some s1
           /\ side_at w i2
                (if tm then k else List.length (Interface.edges i2) - 1 - k)%nat
              = Some s2
           /\ nth_error recs k = Some (s1, s2).
Proof. apply assembly_zip. Qed.

(** X21: [Stitches.assembly] of a collection made of two parts is the
    stitches of the first part followed by those of the second; if a rule
    of the first part raises, its exception comes out and the second part
    is not looked at. *)
Theorem Stitches_assembly_app (s1 s2 : Stitches) (w : World) :
  Stitches_assembly (s1 ++ s2) w
  = (a1 <- Stitches_assembly s1 ;; a2 <- Stitches_assembly s2 ;; ret (a1 ++ a2)) w.
Proof.
  unfold Stitches_assembly. unfold bind at 1. rewrite mapM_app.
  unfold bind, ret.
  destruct (mapM assembly s1 w) as [[x|e] w1]; [|reflexivity].
  destruct (mapM assembly s2 w1) as [[y|e] w2]; [|reflexivity].
  now rewrite concat_app.
Qed.

(** X22: building [Stitches] from a list of pairs is the same as building
    it from all pairs but the last and then calling [append] with the last
    one: the same rules, the same heap, the same exception. *)
Theorem Stitches_init_append (rules : list (nat * nat)) (pair : nat * nat)
    (w : World) :
  Stitches_init (rules ++ [pair]) w
  = (s <- Stitches_init rules ;; Stitches_append s pair) w.
Proof.
  unfold Stitches_init, Stitches_append. rewrite mapM_app.
  unfold bind at 1 3.
  destruct (mapM _ rules w) as [[x|e] w1]; [|reflexivity].
  cbn [mapM]. unfold bind, ret.
  destruct (StitchingRule_init (fst pair) (snd pair) w1) as [[r|e] w2]; reflexivity.
Qed.

(** X23: for two interfaces with the same number of edges, the traversal
    test does not depend on which of the two is given first. *)
Theorem isTraversalMatching_swap (w : World) (self : StitchingRule)
    (i1 i2 : Interface.t) :
  binds w self i1 i2 ->
  List.length (Interface.edges i1) = List.length (Interface.edges i2) ->
  isTraversalMatching (mkRule (int2 self) (int1 self)) w = isTraversalMatching self w.
Proof.
  intros (H1 & H2 & Hv1 & Hv2) Hlen.
  destruct (valid_interface_corners _ _ Hv1) as (c1 & Hc1).
  destruct (valid_interface_corners _ _ Hv2) as (c2 & Hc2).
  rewrite (isTraversalMatching_eval w self i1 i2 c1 c2 H1 H2 Hc1 Hc2).
  rewrite (isTraversalMatching_eval w (mkRule (int2 self) (int1 self)) i2 i1 c2 c1
             H2 H1 Hc2 Hc1).
  rewrite Hlen.
  replace (reverse_distance c2 c1) with (reverse_distance c1 c2).
  - replace (straight_distance c2 c1) with (straight_distance c1 c2); [reflexivity|].
    unfold straight_distance.
    now rewrite (norm3_sym (fst c1) (fst c2)), (norm3_sym (snd c1) (snd c2)).
  - unfold reverse_distance.
    rewrite (norm3_sym (fst c1) (snd c2)), (norm3_sym (snd c1) (fst c2)). ring.
Qed.

End MoreAssembly.

(** X19 at work: the T-stitch before its edges are matched. *)
Lemma assembly_count_mismatch_T :
  assembly T_rule (T_world 10 4 [])
  = (Raise (RuntimeError Stitch_sides_do_not_matched), T_world 10 4 []).
Proof.
  apply (assembly_count_mismatch (T_world 10 4 []) T_rule
           (T_interface_A 10 []) (T_interface_B 10 4)).
  - reflexivity.
  - reflexivity.
  - discriminate.
Defined.

(** X20 at work: the T-stitch after its edges are matched. *)
Lemma assembly_pairs_T :
  exists recs,
    assembly T_rule (T_world_split 10 4) = (Ok recs, T_world_split 10 4)
    /\ List.length recs = List.length (Interface.edges (T_interface_A_split 10 4))
    /\ forall k, (k < List.length (Interface.edges (T_interface_A_split 10 4)))%nat ->
         exists s1 s2,
           side_at (T_world_split 10 4) (T_interface_A_split 10 4) k = Some s1
           /\ side_at (T_world_split 10 4) (T_interface_B 10 4)
                (if true then k
                 else List.length (Interface.edges (T_interface_B 10 4)) - 1 - k)%nat
              = Some s2
           /\ nth_error recs k = Some (s1, s2).
Proof.
  apply (assembly_pairs (T_world_split 10 4) T_rule (T_interface_A_split 10 4)
           (T_interface_B 10 4) true).
  - apply T_split_binds.
  - apply T_split_traversal.
  - reflexivity.
Defined.

(** X23 at work: the matched T-stitch read from B to A. *)
Lemma isTraversalMatching_swap_T :
  isTraversalMatching (mkRule (int2 T_rule) (int1 T_rule)) (T_world_split 10 4)
  = isTraversalMatching T_rule (T_world_split 10 4).
Proof.
  apply (isTraversalMatching_swap (T_world_split 10 4) T_rule
           (T_interface_A_split 10 4) (T_interface_B 10 4)).
  - apply T_split_binds.
  - reflexivity.
Defined.

(** ** The skirt panels *)

Lemma norm_flip (x y : R) : norm (x, - y) = norm (x, y).
Proof. unfold norm. cbn [fst snd]. f_equal. ring. Qed.

Lemma norm_horizontal (x : R) : norm (x, 0) = Rabs x.
Proof.
  unfold norm. cbn [fst snd].
  replace (x * x + 0 * 0) with (Rsqr x) by (unfold Rsqr; ring).
  apply sqrt_Rsqr_abs.
Qed.

(** Two vertices that are moved by the same vector stay as far apart. *)
Lemma vsub_moved (a b d : vertex) : vsub (vadd b d) (vadd a d) = vsub b a.
Proof. unfold vsub, vadd. cbn [fst snd]. f_equal; ring. Qed.

Section MorePanels.
Context `{GU : generic_utils} `{EM : edge_module}.

Variable pivot_shift : vertex -> vertex.

(** X24: the edge loop of [ThinSkirtPanel.__init__] goes through the
    corners (0,0), (flare, length), (flare + top_width, length) and
    (2 flare + top_width, 0) and back.  The edge constructor raises
    [AssertionError] when a corner does not differ from the next one, as
    for a [top_width] or a [bottom_width] of zero.  Otherwise, wherever
    [set_pivot] moves the panel, the boundary is a closed loop of four
    straight edges, the right side, the top, the left side and the bottom,
    of which the first three are handed to the interfaces; the two sides
    have the same length, the top has the length [|top_width|] and the
    bottom the length [|bottom_width|]. *)
Theorem ThinSkirtPanel_shape (name : string) (top_width bottom_width length : R) :
  let flare := (bottom_width - top_width) / 2 in
  let round := [ (0, 0); (flare, length); (flare + top_width, length);
                 (flare * 2 + top_width, 0); (0, 0) ] in
  (steps_differ same_vertex round = false ->
   SkirtPaneled.ThinSkirtPanel_init pivot_shift name top_width bottom_width length
   = Raise AssertionError)
  /\ (top_width = 0 \/ bottom_width = 0 -> steps_differ same_vertex round = false)
  /\ (steps_differ same_vertex round = true ->
      exists p bottom,
        SkirtPaneled.ThinSkirtPanel_init pivot_shift name top_width bottom_width length
        = Ok p
        /\ SkirtPaneled.thin_edges p
           = [ SkirtPaneled.thin_right p; SkirtPaneled.thin_top p;
               SkirtPaneled.thin_left p; bottom ]
        /\ closed_loop (SkirtPaneled.thin_edges p)
        /\ straight (SkirtPaneled.thin_edges p)
        /\ Edge_length (SkirtPaneled.thin_right p)
           = Edge_length (SkirtPaneled.thin_left p)
        /\ Edge_length (SkirtPaneled.thin_top p) = Rabs top_width
        /\ Edge_length bottom = Rabs bottom_width).
Proof.
  cbv zeta. set (flare := (bottom_width - top_width) / 2).
  set (d := pivot_shift (flare, length)).
  assert (Hrun : SkirtPaneled.ThinSkirtPanel_init pivot_shift name top_width
                   bottom_width length
                 = if steps_differ same_vertex
                        [ (0, 0); (flare, length); (flare + top_width, length);
                          (flare * 2 + top_width, 0); (0, 0) ]
                   then
                     let edges :=
                       move_by d
                         [ Edge_new (0, 0) (flare, length);
                           Edge_new (flare, length) (flare + top_width, length);
                           Edge_new (flare + top_width, length)
                                    (flare * 2 + top_width, 0);
                           Edge_new (flare * 2 + top_width, 0) (0, 0) ] in
                     Ok (SkirtPaneled.mkThinSkirtPanel name flare edges
                           (nth 0 edges (Edge_new (0, 0) (0, 0)))
                           (nth 1 edges (Edge_new (0, 0) (0, 0)))
                           (nth 2 edges (Edge_new (0, 0) (0, 0))))
                   else Raise AssertionError).
  { unfold SkirtPaneled.ThinSkirtPanel_init. cbv zeta. fold flare.
    unfold EdgeSeqFactory.from_verts. rewrite chain_from_eq.
    cbn [steps_differ List.last]. unfold Edge_init.
    destruct (same_vertex (0, 0) (flare, length)); [reflexivity|].
    destruct (same_vertex (flare, length) (flare + top_width, length)); [reflexivity|].
    destruct (same_vertex (flare + top_width, length) (flare * 2 + top_width, 0));
      [reflexivity|].
    cbn [negb andb obind chain].
    destruct (same_vertex (flare * 2 + top_width, 0) (0, 0)); reflexivity. }
  split; [|split].
  - intro Hd. now rewrite Hrun, Hd.
  - intros [->| ->].
    + replace (flare + 0) with flare by ring.
      apply steps_differ_tail, steps_differ_stay.
    + replace (flare * 2 + top_width) with 0 by (unfold flare; field).
      do 3 apply steps_differ_tail. apply steps_differ_stay.
  - intro Hd. rewrite Hrun, Hd. cbv zeta. do 2 eexists. split; [reflexivity|].
    cbn [SkirtPaneled.thin_edges SkirtPaneled.thin_right SkirtPaneled.thin_top
         SkirtPaneled.thin_left move_by map nth start end_ control_points
         geometric_id Edge_new].
    split; [reflexivity|]. split; [|split; [|split; [|split]]].
    + repeat split.
    + repeat constructor.
    + unfold Edge_length. cbn [control_points start end_].
      rewrite !vsub_moved. unfold vsub. cbn [fst snd].
      replace (flare * 2 + top_width - (flare + top_width)) with (flare - 0) by ring.
      replace (0 - length) with (- (length - 0)) by ring.
      now rewrite norm_flip.
    + unfold Edge_length. cbn [control_points start end_].
      rewrite vsub_moved. unfold vsub. cbn [fst snd].
      replace (flare + top_width - flare) with top_width by ring.
      replace (length - length) with 0 by ring.
      apply norm_horizontal.
    + unfold Edge_length. cbn [control_points start end_].
      rewrite vsub_moved. unfold vsub. cbn [fst snd].
      replace (0 - (flare * 2 + top_width)) with (- bottom_width)
        by (unfold flare; field).
      replace (0 - 0) with 0 by ring.
      rewrite norm_horizontal. apply Rabs_Ropp.
Qed.

(** What the edge-building part of [SkirtPanel.__init__] comes to, case
    by case. *)
Lemma SkirtPanel_init_eq (waist_length length ruffles bottom_cut flare : R) :
  let top_width := waist_length / 2 * ruffles in
  let low_width := top_width + 2 * flare in
  let x_shift_top := (low_width - top_width) / 2 in
  let A := (0, 0) in
  let B := (x_shift_top, length) in
  let C := (x_shift_top + top_width, length) in
  let D := (low_width, 0) in
  let M1 := vadd A (vscale (bottom_cut / length) (vsub B A)) in
  let M2 := vsub D (vscale (bottom_cut / length) (vsub D C)) in
  let panel := fun right left i_right i_left =>
    SkirtPaneled.mkSkirtPanel
      (right ++ [Edge_new B C] ++ left ++ [Edge_new D A]) (Edge_new B C) left
      (Edge_new D A) (right ++ [Edge_new B C] ++ left ++ [Edge_new D A])
      i_right (Edge_new B C) i_left (Edge_new D A) in
  let plain :=
    if steps_differ same_vertex [A; B; C; D; A]
    then Ok (panel [Edge_new A B] [Edge_new C D] (Edge_new A B) (Edge_new C D))
    else Raise AssertionError in
  SkirtPaneled.SkirtPanel_init waist_length length ruffles bottom_cut flare
  = if Req_dec_T bottom_cut 0 then plain
    else if Req_dec_T length 0 then Raise ZeroDivisionError
    else if Rltb 0 (bottom_cut / length) then
      if steps_differ same_vertex [A; M1; B; C; M2; D; A]
      then Ok (panel [Edge_new A M1; Edge_new M1 B] [Edge_new C M2; Edge_new M2 D]
                 (Edge_new M1 B) (Edge_new C M2))
      else Raise AssertionError
    else plain.
Proof.
  cbv zeta. unfold SkirtPaneled.SkirtPanel_init. cbv zeta.
  set (top_width := waist_length / 2 * ruffles).
  set (x_shift_top := (top_width + 2 * flare - top_width) / 2).
  set (B := (x_shift_top, length)).
  set (C := (x_shift_top + top_width, length)).
  set (D := (top_width + 2 * flare, 0)).
  assert (Hplain :
            obind (obind (Edge_init same_vertex (0, 0) B) (fun e => Ok [e]))
              (fun right =>
               obind (index_last right) (fun right_last =>
               obind (Edge_init same_vertex (end_ right_last) C) (fun waist =>
               obind (obind (Edge_init same_vertex (end_ waist) D) (fun e => Ok [e]))
                 (fun left =>
               obind (index_last left) (fun left_last =>
               obind (index right 0) (fun right_first =>
               obind (Edge_init same_vertex (end_ left_last) (start right_first))
                 (fun bottom =>
               obind (index_last right) (fun i_right =>
               obind (index left 0) (fun i_left =>
               Ok (SkirtPaneled.mkSkirtPanel
                     (right ++ [waist] ++ left ++ [bottom]) waist left bottom
                     (right ++ [waist] ++ left ++ [bottom])
                     i_right waist i_left bottom))))))))))
            = if steps_differ same_vertex [(0, 0); B; C; D; (0, 0)]
              then Ok (SkirtPaneled.mkSkirtPanel
                         ([Edge_new (0, 0) B] ++ [Edge_new B C] ++ [Edge_new C D]
                          ++ [Edge_new D (0, 0)])
                         (Edge_new B C) [Edge_new C D] (Edge_new D (0, 0))
                         ([Edge_new (0, 0) B] ++ [Edge_new B C] ++ [Edge_new C D]
                          ++ [Edge_new D (0, 0)])
                         (Edge_new (0, 0) B) (Edge_new B C) (Edge_new C D)
                         (Edge_new D (0, 0)))
              else Raise AssertionError).
  { cbn [steps_differ]. unfold Edge_init.
    destruct (same_vertex (0, 0) B); [reflexivity|].
    cbn [negb andb obind index_last index List.length Nat.sub nth_error end_ Edge_new].
    destruct (same_vertex B C); [reflexivity|].
    cbn [negb andb obind index_last index List.length Nat.sub nth_error end_ Edge_new].
    destruct (same_vertex C D); [reflexivity|].
    cbn [negb andb obind index_last index List.length Nat.sub nth_error end_ start
         Edge_new].
    destruct (same_vertex D (0, 0)); reflexivity. }
  destruct (Req_dec_T bottom_cut 0) as [E0|N0]; [exact Hplain|].
  unfold EdgeSeqFactory.py_div.
  destruct (Req_dec_T length 0) as [El|Nl]; [reflexivity|].
  cbn [obind]. rewrite !side_with_cut_cases. unfold cut_verts.
  rewrite (Rltb_false 0 0) by lra.
  destruct (Rltb 0 (bottom_cut / length)) eqn:Et.
  - cbn [app tl steps_differ chain].
    set (M1 := vadd (0, 0) (vscale (bottom_cut / length) (vsub B (0, 0)))).
    destruct (same_vertex (0, 0) M1); [reflexivity|].
    destruct (same_vertex M1 B); [reflexivity|].
    cbn [negb andb obind index_last index List.length Nat.sub nth_error end_ Edge_new].
    unfold Edge_init at 1.
    destruct (same_vertex B C); [reflexivity|].
    cbn [negb andb obind end_ Edge_new].
    rewrite side_with_cut_cases. unfold cut_verts.
    rewrite (Rltb_false 0 0) by lra.
    rewrite Et. cbn [app tl steps_differ chain].
    set (M2 := vsub D (vscale (bottom_cut / length) (vsub D C))).
    destruct (same_vertex C M2); [reflexivity|].
    destruct (same_vertex M2 D); [reflexivity|].
    cbn [negb andb obind index_last index List.length Nat.sub nth_error end_ start
         Edge_new].
    unfold Edge_init.
    destruct (same_vertex D (0, 0)); reflexivity.
  - cbn [app tl steps_differ chain].
    destruct (same_vertex (0, 0) B); [reflexivity|].
    cbn [negb andb obind index_last index List.length Nat.sub nth_error end_ Edge_new].
    unfold Edge_init at 1.
    destruct (same_vertex B C); [reflexivity|].
    cbn [negb andb obind end_ Edge_new].
    rewrite side_with_cut_cases. unfold cut_verts.
    rewrite (Rltb_false 0 0) by lra.
    rewrite Et. cbn [app tl steps_differ chain].
    destruct (same_vertex C D); [reflexivity|].
    cbn [negb andb obind index_last index List.length Nat.sub nth_error end_ start
         Edge_new].
    unfold Edge_init.
    destruct (same_vertex D (0, 0)); reflexivity.
Qed.

(** X25: the part of [SkirtPanel.__init__] that builds the edges raises
    [ZeroDivisionError] for a [bottom_cut] that is not zero with a
    [length] of zero, and the [AssertionError] of the edge constructor
    when a corner of the panel does not differ from the next one, as for a
    [bottom_cut] that equals the [length]; it raises nothing else.  When
    it returns, the boundary [self.edges] is a closed loop of straight
    edges, six of them when [bottom_cut / length] is positive and four
    when it is not (a negative cut is ignored); and [self.right] is then
    the whole boundary, since [self.edges = self.right] names one sequence
    to which the other edges are appended. *)
Theorem SkirtPanel_boundary (waist_length length ruffles bottom_cut flare : R) :
  (bottom_cut <> 0 -> length = 0 ->
   SkirtPaneled.SkirtPanel_init waist_length length ruffles bottom_cut flare
   = Raise ZeroDivisionError)
  /\ (bottom_cut = length -> length <> 0 ->
      SkirtPaneled.SkirtPanel_init waist_length length ruffles bottom_cut flare
      = Raise AssertionError)
  /\ match SkirtPaneled.SkirtPanel_init waist_length length ruffles bottom_cut flare with
     | Raise e => e = ZeroDivisionError \/ e = AssertionError
     | Ok p =>
         closed_loop (SkirtPaneled.edges p)
         /\ straight (SkirtPaneled.edges p)
         /\ SkirtPaneled.right p = SkirtPaneled.edges p
         /\ List.length (SkirtPaneled.edges p)
            = (if Rltb 0 (bottom_cut / length) then 6 else 4)%nat
     end.
Proof.
  pose proof (SkirtPanel_init_eq waist_length length ruffles bottom_cut flare) as E.
  cbv zeta in E. rewrite E. clear E.
  split; [|split].
  - intros N0 El.
    destruct (Req_dec_T bottom_cut 0) as [E0|_]; [contradiction|].
    destruct (Req_dec_T length 0) as [_|Nl]; [reflexivity | contradiction].
  - intros Ecut Nl.
    destruct (Req_dec_T bottom_cut 0) as [E0|_]; [exfalso; lra|].
    destruct (Req_dec_T length 0) as [El|_]; [contradiction|].
    assert (E1 : bottom_cut / length = 1) by (rewrite Ecut; now field).
    rewrite E1, (Rltb_true 0 1) by lra.
    pose proof (cut_verts_same (0, 0)
                  ((waist_length / 2 * ruffles + 2 * flare - waist_length / 2 * ruffles) / 2,
                   length) 1 0 (or_intror (or_intror (conj eq_refl (Rle_refl 0)))))
      as Hsame.
    unfold cut_verts in Hsame. rewrite (Rltb_true 0 1), (Rltb_false 0 0) in Hsame by lra.
    cbn [app steps_differ] in Hsame. cbn [steps_differ].
    apply andb_false_iff in Hsame. destruct Hsame as [H|H].
    + rewrite H. reflexivity.
    + rewrite andb_true_r in H. rewrite H, andb_false_r. reflexivity.
  - destruct (Req_dec_T bottom_cut 0) as [E0|N0].
    + replace (Rltb 0 (bottom_cut / length)) with false
        by (symmetry; apply Rltb_false; rewrite E0; unfold Rdiv; rewrite Rmult_0_l; lra).
      destruct (steps_differ same_vertex _); [|now right].
      cbn [SkirtPaneled.edges SkirtPaneled.right app List.length].
      repeat split; repeat constructor.
    + destruct (Req_dec_T length 0) as [El|Nl]; [now left|].
      destruct (Rltb 0 (bottom_cut / length));
        (destruct (steps_differ same_vertex _); [|now right]);
        cbn [SkirtPaneled.edges SkirtPaneled.right app List.length];
        repeat split; repeat constructor.
Qed.

(** X26: on a panel that [SkirtPanel.__init__] has built, the edges
    exposed by the interfaces ['right'] and ['left'] have the same length
    (the panel is symmetric, so the side seams of a front and a back panel
    built from the same parameters match), the waist edge has the length
    [|waist_length / 2 * ruffles|] and the bottom edge is longer than the
    waist by twice the flare, up to sign. *)
Theorem SkirtPanel_sides (waist_length length ruffles bottom_cut flare : R)
    (p : SkirtPaneled.SkirtPanel) :
  SkirtPaneled.SkirtPanel_init waist_length length ruffles bottom_cut flare = Ok p ->
  Edge_length (SkirtPaneled.interface_right p)
  = Edge_length (SkirtPaneled.interface_left p)
  /\ Edge_length (SkirtPaneled.interface_top p) = Rabs (waist_length / 2 * ruffles)
  /\ Edge_length (SkirtPaneled.interface_bottom p)
     = Rabs (waist_length / 2 * ruffles + 2 * flare).
Proof.
  pose proof (SkirtPanel_init_eq waist_length length ruffles bottom_cut flare) as E.
  cbv zeta in E. rewrite E. clear E.
  set (tw := waist_length / 2 * ruffles).
  assert (Hside : norm (vsub ((tw + 2 * flare - tw) / 2, length) (0, 0))
                  = norm (vsub (tw + 2 * flare, 0) ((tw + 2 * flare - tw) / 2 + tw, length))).
  { unfold vsub. cbn [fst snd].
    replace (tw + 2 * flare - ((tw + 2 * flare - tw) / 2 + tw))
      with ((tw + 2 * flare - tw) / 2 - 0) by field.
    replace (0 - length) with (- (length - 0)) by ring.
    now rewrite norm_flip. }
  assert (Hwaist : norm (vsub ((tw + 2 * flare - tw) / 2 + tw, length)
                              ((tw + 2 * flare - tw) / 2, length)) = Rabs tw).
  { unfold vsub. cbn [fst snd].
    replace ((tw + 2 * flare - tw) / 2 + tw - (tw + 2 * flare - tw) / 2) with tw by field.
    replace (length - length) with 0 by ring. apply norm_horizontal. }
  assert (Hbottom : norm (vsub (0, 0) (tw + 2 * flare, 0)) = Rabs (tw + 2 * flare)).
  { unfold vsub. cbn [fst snd].
    replace (0 - (tw + 2 * flare)) with (- (tw + 2 * flare)) by ring.
    replace (0 - 0) with 0 by ring. rewrite norm_horizontal. apply Rabs_Ropp. }
  destruct (Req_dec_T bottom_cut 0) as [E0|N0];
    [|destruct (Req_dec_T length 0) as [El|Nl]; [discriminate|];
      destruct (Rltb 0 (bottom_cut / length))];
    (destruct (steps_differ same_vertex _); [|discriminate]);
    intro H; injection H as <-;
    cbn [SkirtPaneled.interface_right SkirtPaneled.interface_left
         SkirtPaneled.interface_top SkirtPaneled.interface_bottom];
    rewrite !Edge_length_new;
    (split; [|split; [exact Hwaist | exact Hbottom]]); try exact Hside.
  rewrite vsub_cut_rest_start, vsub_cut_rest_end, !norm_scale, Hside. reflexivity.
Qed.

End MorePanels.

(** Replaces by [false] every test of the edge constructor on concrete
    vertices that lie apart. *)
Ltac all_apart :=
  repeat match goal with
         | |- context [same_vertex ?a ?b] =>
             replace (same_vertex a b) with false by (symmetry; apart)
         end.

(** X24 at work: the panel with the default widths 10 and 20 and the
    default length 70, with a [set_pivot] that makes the pivot the
    origin. *)
Lemma ThinSkirtPanel_shape_default :
  exists p bottom,
    SkirtPaneled.ThinSkirtPanel_init (fun pivot => vscale (- 1) pivot) "panel" 10 20 70
    = Ok p
    /\ SkirtPaneled.thin_edges p
       = [ SkirtPaneled.thin_right p; SkirtPaneled.thin_top p;
           SkirtPaneled.thin_left p; bottom ]
    /\ closed_loop (SkirtPaneled.thin_edges p)
    /\ straight (SkirtPaneled.thin_edges p)
    /\ Edge_length (SkirtPaneled.thin_right p)
       = Edge_length (SkirtPaneled.thin_left p)
    /\ Edge_length (SkirtPaneled.thin_top p) = Rabs 10
    /\ Edge_length bottom = Rabs 20.
Proof.
  apply (proj2 (proj2 (ThinSkirtPanel_shape (fun pivot => vscale (- 1) pivot)
                         "panel" 10 20 70))).
  cbn [steps_differ]. all_apart. reflexivity.
Defined.

(** A panel 70 long with a cut of 7 and a flare of 5 is built. *)
Lemma SkirtPanel_init_70 : exists p, SkirtPaneled.SkirtPanel_init 70 70 1 7 5 = Ok p.
Proof.
  rewrite (SkirtPanel_init_eq 70 70 1 7 5). cbv zeta.
  destruct (Req_dec_T 7 0) as [E0|_]; [exfalso; lra|].
  destruct (Req_dec_T 70 0) as [E1|_]; [exfalso; lra|].
  rewrite (Rltb_true 0 (7 / 70)) by lra.
  cbn [steps_differ]. all_apart. cbn [negb andb]. eexists. reflexivity.
Qed.

(** X25 at work: that panel has six edges. *)
Lemma SkirtPanel_boundary_70 :
  exists p,
    SkirtPaneled.SkirtPanel_init 70 70 1 7 5 = Ok p
    /\ closed_loop (SkirtPaneled.edges p)
    /\ straight (SkirtPaneled.edges p)
    /\ SkirtPaneled.right p = SkirtPaneled.edges p
    /\ List.length (SkirtPaneled.edges p) = 6%nat.
Proof.
  destruct SkirtPanel_init_70 as (p & E). exists p. split; [exact E|].
  destruct (SkirtPanel_boundary 70 70 1 7 5) as (_ & _ & H).
  rewrite E in H. rewrite (Rltb_true 0 (7 / 70)) in H by lra. exact H.
Defined.

(** X26 at work: a panel 70 long with a cut of 7 and a flare of 5. *)
Lemma SkirtPanel_sides_70 :
  exists p,
    SkirtPaneled.SkirtPanel_init 70 70 1 7 5 = Ok p
    /\ Edge_length (SkirtPaneled.interface_right p)
       = Edge_length (SkirtPaneled.interface_left p)
    /\ Edge_length (SkirtPaneled.interface_top p) = Rabs (70 / 2 * 1)
    /\ Edge_length (SkirtPaneled.interface_bottom p) = Rabs (70 / 2 * 1 + 2 * 5).
Proof.
  destruct SkirtPanel_init_70 as (p & E). exists p. split; [exact E|].
  apply (SkirtPanel_sides 70 70 1 7 5). exact E.
Defined.

(** ** The dictionaries of measurements *)

Lemma get_set (d : Dict.t) (k k' : string) (v : R) :
  Dict.get (Dict.set d k v) k' = if String.eqb k k' then Some v else Dict.get d k'.
Proof.
  induction d as [|(k0, v0) d IH]; simpl.
  - reflexivity.
  - destruct (String.eqb k0 k) eqn:E0.
    + apply String.eqb_eq in E0. subst k0. simpl.
      destruct (String.eqb k k'); reflexivity.
    + simpl. rewrite IH.
      destruct (String.eqb k0 k') eqn:E1; [|reflexivity].
      apply String.eqb_eq in E1. subst k'. rewrite String.eqb_sym, E0. reflexivity.
Qed.

Lemma set_same (d : Dict.t) (k : string) (v : R) :
  Dict.get d k = Some v -> Dict.set d k v = d.
Proof.
  induction d as [|(k0, v0) d IH]; simpl; [discriminate|].
  destruct (String.eqb k0 k).
  - intro H. injection H as ->. reflexivity.
  - intro H. now rewrite IH.
Qed.

Lemma py_max_ge (a b : R) : a <= py_max a b /\ b <= py_max a b.
Proof.
  unfold py_max. destruct (Rltb a b) eqn:E.
  - apply Rltb_spec in E. lra.
  - apply Rltb_spec_false in E. lra.
Qed.

(** Python's [max] of two numbers is their maximum. *)
Lemma py_max_Rmax (a b : R) : py_max a b = Rmax a b.
Proof.
  unfold py_max. destruct (Rltb a b) eqn:E.
  - apply Rltb_spec in E. now rewrite Rmax_right by lra.
  - apply Rltb_spec_false in E. now rewrite Rmax_left by lra.
Qed.

(** Reading a key after writing another one, or the same one. *)
Ltac dict_get :=
  rewrite ?get_set; cbn [String.eqb Ascii.eqb Bool.eqb andb]; try eassumption;
  try reflexivity.

(** Writing to a key the value that it already holds changes nothing. *)
Ltac dict_close :=
  repeat match goal with
         | |- context [Dict.set ?D ?k ?v] =>
             rewrite (set_same D k v)
               by (rewrite ?get_set; cbn [String.eqb Ascii.eqb Bool.eqb andb];
                   reflexivity)
         end;
  try reflexivity.

Section MoreBodyParameters.
Variable super_eval_dependencies : option string -> DS Dict.t unit.

(** X27: when every measurement is there, [eval_dependencies()] (with
    [key=None]) writes the four derived values after the base class has
    done its part: [_waist_level = height - head_l - waist_line],
    [_leg_length = _waist_level - hips_line], [_base_sleeve_balance =
    sholder_w - 4] and [_base_armhole_incline = max(1, (back_width -
    _base_sleeve_balance) / 2)], which is never less than 1; every other
    key reads as the base class left it. *)
Theorem eval_dependencies_all (d d1 : Dict.t)
    (height head_l waist_line hips_line sholder_w back_width : R) :
  super_eval_dependencies None d = (Returns tt, d1) ->
  Dict.get d1 "height" = Some height ->
  Dict.get d1 "head_l" = Some head_l ->
  Dict.get d1 "waist_line" = Some waist_line ->
  Dict.get d1 "hips_line" = Some hips_line ->
  Dict.get d1 "sholder_w" = Some sholder_w ->
  Dict.get d1 "back_width" = Some back_width ->
  exists d',
    BodyParameters.eval_dependencies super_eval_dependencies None d = (Returns tt, d')
    /\ Dict.get d' "_waist_level" = Some (height - head_l - waist_line)
    /\ Dict.get d' "_leg_length" = Some (height - head_l - waist_line - hips_line)
    /\ Dict.get d' "_base_sleeve_balance" = Some (sholder_w - 4)
    /\ Dict.get d' "_base_armhole_incline"
       = Some (Rmax 1 ((back_width - (sholder_w - 4)) / 2))
    /\ 1 <= Rmax 1 ((back_width - (sholder_w - 4)) / 2)
    /\ forall k,
         k <> "_waist_level"%string -> k <> "_leg_length"%string ->
         k <> "_base_sleeve_balance"%string -> k <> "_base_armhole_incline"%string ->
         Dict.get d' k = Dict.get d1 k.
Proof.
  intros Hsuper Hh Hhl Hwl Hhp Hsw Hbw.
  unfold BodyParameters.eval_dependencies, dbind, BodyParameters.getitem,
    BodyParameters.setitem, dret.
  rewrite Hsuper. cbn [BodyParameters.key_in existsb orb].
  repeat (progress (rewrite ?Hh, ?Hhl, ?Hwl, ?Hhp, ?Hsw, ?Hbw, ?get_set;
                    cbn [String.eqb Ascii.eqb Bool.eqb andb]; cbv beta iota)).
  rewrite py_max_Rmax.
  eexists. split; [reflexivity|].
  repeat split; try solve [dict_get].
  - apply Rmax_l.
  - intros k H1 H2 H3 H4. rewrite !get_set.
    apply String.eqb_neq in H1, H2, H3, H4.
    rewrite (String.eqb_sym _ k), H4, (String.eqb_sym _ k), H3,
            (String.eqb_sym _ k), H2, (String.eqb_sym _ k), H1.
    reflexivity.
Qed.

(** X28: when the base class method leaves the dictionary alone, a call of
    [eval_dependencies] that has returned has nothing left to do: calling
    it again with the same key returns and changes no entry. *)
Theorem eval_dependencies_idempotent (key : option string) (d d1 : Dict.t) :
  (forall k s, super_eval_dependencies k s = (Returns tt, s)) ->
  BodyParameters.eval_dependencies super_eval_dependencies key d = (Returns tt, d1) ->
  BodyParameters.eval_dependencies super_eval_dependencies key d1 = (Returns tt, d1).
Proof.
  intros Hsuper H.
  unfold BodyParameters.eval_dependencies, dbind, BodyParameters.getitem,
    BodyParameters.setitem, dret in *.
  rewrite Hsuper in H. rewrite Hsuper.
  destruct (BodyParameters.key_in key
              [Some "height"%string; Some "head_l"%string; Some "waist_line"%string;
               Some "hips_line"%string; None]);
    destruct (BodyParameters.key_in key [Some "sholder_w"%string; None]);
    cbv beta iota in H;
    repeat (first
      [ progress (rewrite get_set in H;
                  cbn [String.eqb Ascii.eqb Bool.eqb andb] in H; cbv beta iota in H)
      | match type of H with
        | context [match Dict.get d ?k with _ => _ end] =>
            destruct (Dict.get d k) eqn:?; cbv beta iota in H; [|discriminate H]
        end ]);
    injection H as <-;
    repeat (progress (rewrite ?get_set;
                      cbn [String.eqb Ascii.eqb Bool.eqb andb];
                      repeat match goal with
                             | Hg : Dict.get d _ = Some _ |- _ => rewrite Hg
                             end;
                      cbv beta iota));
    f_equal; dict_close.
Qed.

(** X29: [eval_dependencies] updates the dictionary step by step.  When
    the first group of values is due and [hips_line] is the only
    measurement that is missing, the call raises [KeyError] for it after
    [_waist_level] has been written: the dictionary that the caller is
    left with holds the new [_waist_level] and no new [_leg_length]. *)
Theorem eval_dependencies_missing_hips_line (key : option string) (d d1 : Dict.t)
    (height head_l waist_line : R) :
  BodyParameters.key_in key
    [Some "height"%string; Some "head_l"%string; Some "waist_line"%string;
     Some "hips_line"%string; None] = true ->
  super_eval_dependencies key d = (Returns tt, d1) ->
  Dict.get d1 "height" = Some height ->
  Dict.get d1 "head_l" = Some head_l ->
  Dict.get d1 "waist_line" = Some waist_line ->
  Dict.get d1 "hips_line" = None ->
  BodyParameters.eval_dependencies super_eval_dependencies key d
  = (Throws (KeyError "hips_line"),
     Dict.set d1 "_waist_level" (height - head_l - waist_line)).
Proof.
  intros Hkey Hsuper Hh Hhl Hwl Hhp.
  unfold BodyParameters.eval_dependencies, dbind, BodyParameters.getitem,
    BodyParameters.setitem, dret.
  rewrite Hsuper, Hkey.
  repeat (progress (rewrite ?Hh, ?Hhl, ?Hwl, ?Hhp, ?get_set;
                    cbn [String.eqb Ascii.eqb Bool.eqb andb]; cbv beta iota)).
  reflexivity.
Qed.

End MoreBodyParameters.

Section MoreBaseBottoms.
Variable lin_interpolation : R -> R -> R -> res R.

(** X30: [eval_rise] writes its two attributes one after the other.
    [adj_hips_depth = rise * hips_line] is stored first: when the
    interpolation of the waist then raises (as [lin_interpolation] does
    for a [rise] outside [0, 1]), that exception comes out and [adj_waist]
    is what it was.  When the interpolation returns, [adj_waist] is stored
    before the two back widths are read: both attributes are stored also
    when the call then raises [KeyError] for a missing back width, or when
    the second interpolation raises.  When [eval_rise] returns, it returns
    the two stored values and the interpolated back waist, which is not
    stored. *)
Theorem eval_rise_result (self : BaseBottoms.t) (rise waist hips hips_line : R) :
  Dict.get (BaseBottoms.body self) "waist" = Some waist ->
  Dict.get (BaseBottoms.body self) "hips" = Some hips ->
  Dict.get (BaseBottoms.body self) "hips_line" = Some hips_line ->
  BaseBottoms.eval_rise lin_interpolation rise self
  = match lin_interpolation hips waist rise with
    | Throws x =>
        (Throws x,
         BaseBottoms.mk (BaseBottoms.body self) (Some (rise * hips_line))
           (BaseBottoms.adj_waist self))
    | Returns new_waist =>
        (match Dict.get (BaseBottoms.body self) "hip_back_width",
               Dict.get (BaseBottoms.body self) "waist_back_width" with
         | Some hip_back_width, Some waist_back_width =>
             match lin_interpolation hip_back_width waist_back_width rise with
             | Returns back_waist => Returns (new_waist, rise * hips_line, back_waist)
             | Throws x => Throws x
             end
         | None, _ => Throws (KeyError "hip_back_width")
         | Some _, None => Throws (KeyError "waist_back_width")
         end,
         BaseBottoms.mk (BaseBottoms.body self) (Some (rise * hips_line))
           (Some new_waist))
    end.
Proof.
  intros Hw Hh Hl.
  unfold BaseBottoms.eval_rise, dbind, BaseBottoms.body_item, BaseBottoms.getattr,
    BaseBottoms.call, dret.
  rewrite Hw, Hh, Hl. cbv beta iota.
  cbn [BaseBottoms.body BaseBottoms.adj_waist BaseBottoms.adj_hips_depth].
  destruct (lin_interpolation hips waist rise) as [new_waist|x]; [|reflexivity].
  cbv beta iota.
  cbn [BaseBottoms.body BaseBottoms.adj_waist BaseBottoms.adj_hips_depth].
  destruct (Dict.get (BaseBottoms.body self) "hip_back_width");
    cbv beta iota;
    cbn [BaseBottoms.body BaseBottoms.adj_waist BaseBottoms.adj_hips_depth];
    [|reflexivity].
  destruct (Dict.get (BaseBottoms.body self) "waist_back_width");
    cbv beta iota; [|reflexivity].
  destruct (lin_interpolation _ _ rise); reflexivity.
Qed.

End MoreBaseBottoms.

(** X27 at work. *)
Lemma eval_dependencies_all_170 :
  exists d',
    BodyParameters.eval_dependencies (fun _ => dret tt) None
      [ ("height", 170); ("head_l", 25); ("waist_line", 40);
        ("hips_line", 20); ("sholder_w", 36); ("back_width", 40) ]%string
    = (Returns tt, d')
    /\ Dict.get d' "_waist_level" = Some (170 - 25 - 40)
    /\ Dict.get d' "_leg_length" = Some (170 - 25 - 40 - 20)
    /\ Dict.get d' "_base_sleeve_balance" = Some (36 - 4)
    /\ Dict.get d' "_base_armhole_incline" = Some (Rmax 1 ((40 - (36 - 4)) / 2))
    /\ 1 <= Rmax 1 ((40 - (36 - 4)) / 2)
    /\ forall k,
         k <> "_waist_level"%string -> k <> "_leg_length"%string ->
         k <> "_base_sleeve_balance"%string -> k <> "_base_armhole_incline"%string ->
         Dict.get d' k
         = Dict.get [ ("height", 170); ("head_l", 25); ("waist_line", 40);
                      ("hips_line", 20); ("sholder_w", 36); ("back_width", 40) ]%string k.
Proof.
  apply (eval_dependencies_all (fun _ => dret tt)
           [ ("height", 170); ("head_l", 25); ("waist_line", 40);
             ("hips_line", 20); ("sholder_w", 36); ("back_width", 40) ]%string
           [ ("height", 170); ("head_l", 25); ("waist_line", 40);
             ("hips_line", 20); ("sholder_w", 36); ("back_width", 40) ]%string
           170 25 40 20 36 40); reflexivity.
Defined.

(** X28 at work: a second call on the result of the first. *)
Lemma eval_dependencies_idempotent_170 :
  let d1 := snd (BodyParameters.eval_dependencies (fun _ => dret tt) None
                   [ ("height", 170); ("head_l", 25); ("waist_line", 40);
                     ("hips_line", 20); ("sholder_w", 36); ("back_width", 40) ]%string) in
  BodyParameters.eval_dependencies (fun _ => dret tt) None d1 = (Returns tt, d1).
Proof.
  cbv zeta.
  apply (eval_dependencies_idempotent (fun _ => dret tt) None
           [ ("height", 170); ("head_l", 25); ("waist_line", 40);
             ("hips_line", 20); ("sholder_w", 36); ("back_width", 40) ]%string).
  - intros k s. reflexivity.
  - reflexivity.
Defined.

(** X29 at work: no [hips_line]. *)
Lemma eval_dependencies_missing_hips_line_170 :
  BodyParameters.eval_dependencies (fun _ => dret tt) None
    [ ("height", 170); ("head_l", 25); ("waist_line", 40) ]%string
  = (Throws (KeyError "hips_line"),
     Dict.set [ ("height", 170); ("head_l", 25); ("waist_line", 40) ]%string
       "_waist_level" (170 - 25 - 40)).
Proof.
  apply (eval_dependencies_missing_hips_line (fun _ => dret tt) None
           [ ("height", 170); ("head_l", 25); ("waist_line", 40) ]%string
           [ ("height", 170); ("head_l", 25); ("waist_line", 40) ]%string
           170 25 40); reflexivity.
Defined.

(** X30 at work: the rise that [get_rise] gives, a [lin_interpolation]
    that returns, and no waist back width. *)
Lemma eval_rise_result_1 :
  BaseBottoms.eval_rise (fun a b t => Returns ((1 - t) * a + t * b))
    BaseBottoms.get_rise
    (BaseBottoms.mk [ ("waist", 70); ("hips", 100); ("hips_line", 20);
                      ("hip_back_width", 50) ]%string None None)
  = (Throws (KeyError "waist_back_width"),
     BaseBottoms.mk [ ("waist", 70); ("hips", 100); ("hips_line", 20);
                      ("hip_back_width", 50) ]%string
       (Some (BaseBottoms.get_rise * 20))
       (Some ((1 - BaseBottoms.get_rise) * 100 + BaseBottoms.get_rise * 70))).
Proof.
  apply (eval_rise_result (fun a b t => Returns ((1 - t) * a + t * b))
           (BaseBottoms.mk [ ("waist", 70); ("hips", 100); ("hips_line", 20);
                             ("hip_back_width", 50) ]%string None None)
           BaseBottoms.get_rise 70 100 20); reflexivity.
Defined.
